(** * Canonicalization pass of the Jabuti transformation engine

    A shallow embedding of [CanonicalParser] (src/parsers/canonical.parser.ts):
    the walk over the ANTLR syntax tree that lowers a contract into the
    canonical [Contract] model, together with the properties of that walk.

    Conventions.
    - A JavaScript string is a Rocq [string], read as the UTF-8 encoding of
      the text.
    - A JavaScript exception is an explicit [Throw] in the [Result] monad.
    - The closures passed to [forEach] mutate the locals of the enclosing
      call; every such block of locals is a record threaded through [forEach].
*)

From Stdlib Require Import String Ascii List Arith Bool Lia.
From Stdlib Require Import DecimalString DecimalNat.
Import ListNotations.

Open Scope string_scope.
Open Scope list_scope.

(** Template-literal concatenation; [++] is kept for lists. *)
Infix "^^" := String.append (at level 60, right associativity).

(** ** Host-language primitives *)

Module Js.

Local Open Scope nat_scope.

(** What a JavaScript expression evaluates to: a value, or a thrown
    exception.  [TypeError] is a property read on [undefined];
    [NoSuchNode] is the [Error] raised by the ANTLR runtime accessors
    [getToken] / [getRuleContext] when the requested child is absent. *)
Inductive Exn : Type := TypeError | NoSuchNode.

Inductive Result (A : Type) : Type :=
| Ok (a : A)
| Throw (e : Exn).
Arguments Ok {A} a.
Arguments Throw {A} e.

Definition bind {A B} (m : Result A) (k : A -> Result B) : Result B :=
  match m with
  | Ok a => k a
  | Throw e => Throw e
  end.

(** [xs.forEach(f)] where [f] updates the captured locals [s] and may
    throw. *)
Fixpoint forEach {A S : Type} (f : A -> S -> Result S) (xs : list A) (s : S)
  : Result S :=
  match xs with
  | [] => Ok s
  | x :: rest => bind (f x s) (forEach f rest)
  end.

(** [`${n}`] for a non-negative integer counter. *)
Definition showNat (n : nat) : string :=
  NilEmpty.string_of_uint (Nat.to_uint n).

(** *** Case mapping

    Only the letters [A]-[Z] and [a]-[z] are mapped; every other byte is
    left alone.  This is the host's mapping on ASCII text outside the
    locales with special casing rules (tr, az, lt); on text with other
    letters the host maps more.  No property below depends on how such
    a text is case-mapped: names are stated through [toLocaleLowerCase]
    and [capitalizeFirst] as the source calls them. *)

Definition isUpper (c : ascii) : bool :=
  (65 <=? nat_of_ascii c) && (nat_of_ascii c <=? 90).
Definition isLower (c : ascii) : bool :=
  (97 <=? nat_of_ascii c) && (nat_of_ascii c <=? 122).

Definition toUpperChar (c : ascii) : ascii :=
  if isLower c then ascii_of_nat (nat_of_ascii c - 32) else c.
Definition toLowerChar (c : ascii) : ascii :=
  if isUpper c then ascii_of_nat (nat_of_ascii c + 32) else c.

(** [s.toLocaleLowerCase()] *)
Fixpoint toLocaleLowerCase (s : string) : string :=
  match s with
  | EmptyString => EmptyString
  | String c rest => String (toLowerChar c) (toLocaleLowerCase rest)
  end.

(** The double-quote character, and [s.startsWith(dquote)]. *)
Definition dquote : string := String "034"%char EmptyString.

Definition startsWithQuote (s : string) : bool :=
  match s with
  | String c _ => Ascii.eqb c "034"%char
  | EmptyString => false
  end.

(** *** [Number(text)] and [isNaN]

    The string-to-number coercion of ECMAScript (StringToNumber): white
    space and line terminators are trimmed from both ends; the empty
    remainder is [0]; otherwise the remainder must be a
    StrNumericLiteral.  Only whether the result is [NaN] matters to the
    parser, so the recogniser returns a boolean. *)

Definition code (c : ascii) : nat := nat_of_ascii c.

Definition isWS1 (a : nat) : bool :=
  ((9 <=? a) && (a <=? 13)) || (a =? 32).
(** U+00A0 *)
Definition isWS2 (a b : nat) : bool := (a =? 194) && (b =? 160).
(** U+1680, U+2000..U+200A, U+2028, U+2029, U+202F, U+205F, U+3000,
    U+FEFF *)
Definition isWS3 (a b c : nat) : bool :=
  ((a =? 225) && (b =? 154) && (c =? 128))
  || ((a =? 226) && (b =? 128)
      && (((128 <=? c) && (c <=? 138)) || (c =? 168) || (c =? 169)
          || (c =? 175)))
  || ((a =? 226) && (b =? 129) && (c =? 159))
  || ((a =? 227) && (b =? 128) && (c =? 128))
  || ((a =? 239) && (b =? 187) && (c =? 191)).

Fixpoint trimStart (l : list nat) : list nat :=
  match l with
  | [] => []
  | a :: r1 =>
      if isWS1 a then trimStart r1
      else
        match r1 with
        | [] => l
        | b :: r2 =>
            if isWS2 a b then trimStart r2
            else
              match r2 with
              | [] => l
              | c :: r3 => if isWS3 a b c then trimStart r3 else l
              end
        end
  end.

(** [trimStart] on the reversed text: the bytes of a multi-byte white
    space arrive last byte first. *)
Fixpoint trimStartRev (l : list nat) : list nat :=
  match l with
  | [] => []
  | c :: r1 =>
      if isWS1 c then trimStartRev r1
      else
        match r1 with
        | [] => l
        | b :: r2 =>
            if isWS2 b c then trimStartRev r2
            else
              match r2 with
              | [] => l
              | a :: r3 => if isWS3 a b c then trimStartRev r3 else l
              end
        end
  end.

Definition trim (l : list nat) : list nat :=
  rev (trimStartRev (rev (trimStart l))).

Definition isDigit (a : nat) : bool := (48 <=? a) && (a <=? 57).
Definition isHexDigit (a : nat) : bool :=
  isDigit a || ((65 <=? a) && (a <=? 70)) || ((97 <=? a) && (a <=? 102)).
Definition isOctDigit (a : nat) : bool := (48 <=? a) && (a <=? 55).
Definition isBinDigit (a : nat) : bool := (48 <=? a) && (a <=? 49).

Fixpoint skipDigits (l : list nat) : list nat :=
  match l with
  | a :: r => if isDigit a then skipDigits r else l
  | [] => []
  end.

Definition startsWithDigit (l : list nat) : bool :=
  match l with
  | a :: _ => isDigit a
  | [] => false
  end.

(** one or more digits of the given class, and nothing else *)
Definition digits1 (p : nat -> bool) (l : list nat) : bool :=
  negb (Nat.eqb (length l) 0) && forallb p l.

(** ExponentPart, optional, up to the end of the literal *)
Definition exponentOpt (l : list nat) : bool :=
  match l with
  | [] => true
  | e :: r =>
      ((e =? 101) || (e =? 69))
      && match r with
         | s :: r' =>
             if (s =? 43) || (s =? 45) then digits1 isDigit r'
             else digits1 isDigit r
         | [] => false
         end
  end.

Definition infinityCodes : list nat := [73; 110; 102; 105; 110; 105; 116; 121].

(** StrUnsignedDecimalLiteral *)
Definition strUnsignedDecimalLiteral (l : list nat) : bool :=
  if list_eq_dec Nat.eq_dec l infinityCodes then true
  else
    match l with
    | a :: r =>
        if a =? 46 then startsWithDigit r && exponentOpt (skipDigits r)
        else
          isDigit a
          && match skipDigits l with
             | d :: r' =>
                 if d =? 46 then exponentOpt (skipDigits r')
                 else exponentOpt (d :: r')
             | [] => true
             end
    | [] => false
    end.

(** NonDecimalIntegerLiteral: [0x], [0o], [0b] prefixes, no sign *)
Definition nonDecimalIntegerLiteral (l : list nat) : bool :=
  match l with
  | z :: p :: r =>
      (z =? 48)
      && (if (p =? 120) || (p =? 88) then digits1 isHexDigit r
          else if (p =? 111) || (p =? 79) then digits1 isOctDigit r
          else if (p =? 98) || (p =? 66) then digits1 isBinDigit r
          else false)
  | _ => false
  end.

(** StrNumericLiteral *)
Definition strNumericLiteral (l : list nat) : bool :=
  nonDecimalIntegerLiteral l
  || match l with
     | s :: r =>
         if (s =? 43) || (s =? 45) then strUnsignedDecimalLiteral r
         else strUnsignedDecimalLiteral l
     | [] => false
     end.

(** [!isNaN(Number(s))] for a string [s] *)
Definition isNumericString (s : string) : bool :=
  match trim (map code (list_ascii_of_string s)) with
  | [] => true
  | l => strNumericLiteral l
  end.

(** [isNaN(Number(x))] where [x] is a string or [undefined] ([None]):
    [Number(undefined)] is [NaN]. *)
Definition isNaN_Number (x : option string) : bool :=
  match x with
  | None => true
  | Some s => negb (isNumericString s)
  end.

End Js.


Import Js.

(** ** The syntax tree handed over by the grammar front end

    The generated parser of [jabuti-dsl-grammar-antlr] is an external
    package; the canonicalizer only uses the ANTLR runtime view of its
    tree: the class of a rule node ([instanceof]), the ordered [children],
    the [text], and the accessors [ID()] and [rolePlayer()]. *)

Inductive RuleKind : Type :=
| ContractContext
| VariablesContext
| VariableStatementContext
| DatesContext
| BeginDateContext
| DueDateContext
| DatetimeContext
| PartiesContext
| ApplicationContext
| ProcessContext
| ClausesContext
| ClauseContext
| RolePlayerContext
| OnBreachContext
| TermsContext
| TermOrWhenContext
| TermContext
| TimeoutContext
| MessageContentContext
| OtherContext.

Inductive TokenType : Type := TokID | TokOther.

#[local] Set Warnings "-register-all".

Inductive ParseTree : Type :=
| TerminalNode (ttype : TokenType) (symbolText : string)
| RuleNode (kind : RuleKind) (nodes : list ParseTree).

Definition RuleKind_eq_dec (a b : RuleKind) : {a = b} + {a <> b}.
Proof. decide equality. Defined.

(** [t instanceof K] *)
Definition instanceOf (k : RuleKind) (t : ParseTree) : bool :=
  match t with
  | RuleNode k' _ => if RuleKind_eq_dec k' k then true else false
  | TerminalNode _ _ => false
  end.

(** [t.children].  The runtime allocates the array on the first
    [addChild], so a rule node has either no [children] property or a
    non-empty array; [[]] stands for [undefined]. *)
Definition children (t : ParseTree) : list ParseTree :=
  match t with
  | RuleNode _ cs => cs
  | TerminalNode _ _ => []
  end.

(** [t.childCount] *)
Definition childCount (t : ParseTree) : nat := length (children t).

(** [t.text]: the token text of a terminal, the concatenated text of the
    children of a rule node. *)
Fixpoint text (t : ParseTree) : string :=
  match t with
  | TerminalNode _ s => s
  | RuleNode _ cs => String.concat "" (map text cs)
  end.

(** [t.children?.[i]] *)
Definition child (t : ParseTree) (i : nat) : option ParseTree :=
  nth_error (children t) i.

(** [t.children?.[i].text]: [undefined] when [t] has no children; a
    [TypeError] when it has some but fewer than [i+1]. *)
Definition childText (t : ParseTree) (i : nat) : Result (option string) :=
  match children t with
  | [] => Ok None
  | cs =>
      match nth_error cs i with
      | Some c => Ok (Some (text c))
      | None => Throw TypeError
      end
  end.

(** [x ?? ''] *)
Definition orEmpty (x : option string) : string :=
  match x with
  | Some s => s
  | None => ""
  end.

Definition isIDToken (t : ParseTree) : bool :=
  match t with
  | TerminalNode TokID _ => true
  | _ => false
  end.

(** [t.ID()] read through [?.]: the first [ID] token among the children, or
    [undefined]. *)
Definition ID (t : ParseTree) : option ParseTree :=
  find isIDToken (children t).

(** [t.ID()] dereferenced directly. *)
Definition ID_required (t : ParseTree) : Result ParseTree :=
  match ID t with
  | Some n => Ok n
  | None => Throw NoSuchNode
  end.

(** [t.rolePlayer()] *)
Definition rolePlayerNode (t : ParseTree) : Result ParseTree :=
  match find (instanceOf RolePlayerContext) (children t) with
  | Some n => Ok n
  | None => Throw NoSuchNode
  end.

(** ** The canonical model (src/models) *)

Record IdentifierName : Type :=
  { pascal : string; camel : string; snake : string }.

Record VariableT : Type :=
  { var_name : IdentifierName; var_type : string }.

(** An entry of the array returned by [parseMessageContent]: a Variable
    object, a raw text, or [undefined]. *)
Inductive JsValue : Type :=
| JsUndefined
| JsString (s : string)
| JsObject (v : VariableT).

(** The two shapes pushed onto [terms]; [comparator] is [None] when the
    object literal has no such key. *)
Inductive Term : Type :=
| Timeout (name : IdentifierName) (value : string)
| MessageContent (name : IdentifierName) (comparator : option JsValue)
                 (variables : list JsValue).

Record Messages : Type := { error : string; success : string }.

Record Clause : Type :=
  { clause_name : IdentifierName;
    clause_type : string;
    clause_variables : list VariableT;
    rolePlayer : option string;
    operation : option string;
    clause_terms : list Term;
    clause_messages : Messages }.

Record Contract : Type :=
  { contract_name : string;
    beginDate : string;
    dueDate : string;
    application : string;
    process : string;
    contract_variables : list VariableT;
    clauses : list Clause }.

(** ** Identifier synthesis *)

(** Modelled from the spec: [capitalizeFirst] is imported from [../utils],
    which is not among the sources.  Section 4.1 describes the rendering as
    "each part's first character upper-cased"; the rest of the text keeps
    its case here (the generated sample under samples/ declares
    [RightRequestDelivery], the pascal name of a clause
    [right requestDelivery]).  What the helper does to the rest of an
    upper-case text such as [PENALTY] is not settled by the sources, so the
    properties below name [capitalizeFirst] where the source calls it and
    use its body only on the literals [timeout] and [messageContent]. *)
Definition capitalizeFirst (s : string) : string :=
  match s with
  | EmptyString => EmptyString
  | String c rest => String (toUpperChar c) rest
  end.

(** [clauseName], lines 96-100. *)
Definition mkClauseName (clauseType name : string) : IdentifierName :=
  {| pascal := capitalizeFirst clauseType ^^ capitalizeFirst name;
     camel := toLocaleLowerCase clauseType ^^ capitalizeFirst name;
     snake := clauseType ^^ "_" ^^ name |}.

(** The [name] of a term, lines 134-138 and 148-152. *)
Definition termName (clauseName : IdentifierName) (termType : string)
           (termIndex : nat) : IdentifierName :=
  {| pascal := pascal clauseName ^^ capitalizeFirst termType ^^ showNat termIndex;
     camel := camel clauseName ^^ capitalizeFirst termType ^^ showNat termIndex;
     snake := snake clauseName ^^ "_" ^^ termType ^^ "_" ^^ showNat termIndex |}.

(** ** [parseMessageContent] *)

(** [['==', '!='].includes(comparator) ? 'TEXT' : 'NUMBER'] *)
Definition inferType (comparator : JsValue) : string :=
  match comparator with
  | JsString s => if String.eqb s "==" || String.eqb s "!=" then "TEXT" else "NUMBER"
  | _ => "NUMBER"
  end.

(** The anonymous Variable of lines 244-251 ([pos] is ["1"]) and 264-271
    ([pos] is ["2"]). *)
Definition anonymousVariable (type : string) (index : nat) (pos : string)
  : VariableT :=
  {| var_name :=
       {| pascal := "MessageContent" ^^ showNat index ^^ pos;
          camel := "messageContent" ^^ showNat index ^^ pos;
          snake := "messageContent_" ^^ showNat index ^^ "_" ^^ pos |};
     var_type := type |}.

(** The Variable of a bare reference, lines 239-242 and 259-262. *)
Definition referenceVariable (type : string) (raw : string) : VariableT :=
  {| var_name := {| pascal := capitalizeFirst raw; camel := raw; snake := raw |};
     var_type := type |}.

(** One operand: the [if / else if / else] of lines 236-252 (left) and
    256-272 (right), which differ only in the positional suffix. *)
Definition operand (value : option ParseTree) (type : string) (index : nat)
           (pos : string) : JsValue :=
  if negb (isNaN_Number (option_map text value)) then
    match option_map text value with
    | Some s => JsString s
    | None => JsUndefined
    end
  else
    match value with
    | Some v =>
        if negb (startsWithQuote (text v)) then JsObject (referenceVariable type (text v))
        else JsObject (anonymousVariable type index pos)
    | None => JsObject (anonymousVariable type index pos)
    end.

(** The presence-check Variable of lines 222-227. *)
Definition presenceVariable (index : nat) : VariableT :=
  {| var_name :=
       {| pascal := "MessageContent" ^^ showNat index;
          camel := "messageContent" ^^ showNat index;
          snake := "messageContent_" ^^ showNat index |};
     var_type := "boolean" |}.

(** [comparator] as read by line 232: a text or [undefined]. *)
Definition comparatorValue (c : option string) : JsValue :=
  match c with
  | Some s => JsString s
  | None => JsUndefined
  end.

Definition parseMessageContent (term : ParseTree) (index : nat)
  : Result (list JsValue) :=
  if Nat.eqb (childCount term) 4 then Ok [JsObject (presenceVariable index)]
  else
    let value1 := child term 2 in
    let value2 := child term 4 in
    bind (childText term 3) (fun c =>
    let comparator := comparatorValue c in
    let type := inferType comparator in
    Ok [operand value1 type index "1"; comparator; operand value2 type index "2"]).

(** ** Lowering of one clause *)

(** [variables: Record<string, Variable>].  An object keeps its string
    keys in insertion order, and [{...variables, ...{[k]: v}}] overwrites
    the value of an existing key in place or appends a new key. *)
Definition VarMap : Type := list (string * VariableT).

Fixpoint upsert (k : string) (v : VariableT) (m : VarMap) : VarMap :=
  match m with
  | [] => [(k, v)]
  | (k', v') :: rest =>
      if String.eqb k' k then (k, v) :: rest else (k', v') :: upsert k v rest
  end.

(** [Object.values(variables)] *)
Definition values (m : VarMap) : list VariableT := map snd m.

(** The locals captured by the closures of lines 109-199. *)
Record ClauseLocals : Type :=
  { terms : list Term;
    variables : VarMap;
    messages : Messages;
    termIndex : nat }.

Definition initClauseLocals : ClauseLocals :=
  {| terms := [];
     variables := [];
     messages := {| error := ""; success := "" |};
     termIndex := 0 |}.

(** Lines 133-140: name the term from the current index, advance the
    index, push the term. *)
Definition pushTimeout (clauseName : IdentifierName) (_timeout : ParseTree)
           (s : ClauseLocals) : ClauseLocals :=
  let termType := "timeout" in
  let name := termName clauseName termType (termIndex s) in
  {| terms := terms s ++ [Timeout name (text _timeout)];
     variables := variables s;
     messages := messages s;
     termIndex := S (termIndex s) |}.

(** [messages.error = e] *)
Definition setError (e : string) (s : ClauseLocals) : ClauseLocals :=
  {| terms := terms s;
     variables := variables s;
     messages := {| error := e; success := success (messages s) |};
     termIndex := termIndex s |}.

(** Body of the [forEach] over a timeout node's children, lines 131-142. *)
Definition timeoutStep (clauseName : IdentifierName) (_timeout : ParseTree)
           (s : ClauseLocals) : Result ClauseLocals :=
  if negb (isNaN_Number (Some (text _timeout))) then
    Ok (pushTimeout clauseName _timeout s)
  else Ok s.

(** [parameters[i]] *)
Definition at_ (parameters : list JsValue) (i : nat) : JsValue :=
  nth i parameters JsUndefined.

(** [if (typeof p !== 'number' && typeof p !== 'string' && p)
       variables = {...variables, ...{[p.name.camel]: p}}] *)
Definition merge (p : JsValue) (m : VarMap) : VarMap :=
  match p with
  | JsObject v => upsert (camel (var_name v)) v m
  | _ => m
  end.

(** Lines 145-195. *)
Definition messageContentStep (clauseName : IdentifierName)
           (_operation : ParseTree) (s : ClauseLocals) : Result ClauseLocals :=
  let termType := "messageContent" in
  let name := termName clauseName termType (termIndex s) in
  bind (parseMessageContent _operation (termIndex s)) (fun parameters =>
  let s1 :=
    if Nat.eqb (length parameters) 1 then
      {| terms := terms s ++ [MessageContent name None parameters];
         variables := merge (at_ parameters 0) (variables s);
         messages := messages s;
         termIndex := termIndex s |}
    else s in
  let s2 :=
    if Nat.eqb (length parameters) 3 then
      {| terms :=
           terms s1
           ++ [MessageContent name (Some (at_ parameters 1))
                              [at_ parameters 0; at_ parameters 2]];
         variables :=
           merge (at_ parameters 2) (merge (at_ parameters 0) (variables s1));
         messages := messages s1;
         termIndex := termIndex s1 |}
    else s1 in
  Ok {| terms := terms s2;
        variables := variables s2;
        messages := messages s2;
        termIndex := S (termIndex s2) |}).

(** Body of [_term.children?.forEach(_operation => ...)], lines 129-196. *)
Definition operationStep (clauseName : IdentifierName) (_operation : ParseTree)
           (s : ClauseLocals) : Result ClauseLocals :=
  bind (if instanceOf TimeoutContext _operation
        then forEach (timeoutStep clauseName) (children _operation) s
        else Ok s) (fun s' =>
  if instanceOf MessageContentContext _operation
  then messageContentStep clauseName _operation s'
  else Ok s').

(** Lines 124-197. *)
Definition termStep (clauseName : IdentifierName) (_term : ParseTree)
           (s : ClauseLocals) : Result ClauseLocals :=
  if negb (instanceOf TermContext _term) then Ok s
  else forEach (operationStep clauseName) (children _term) s.

(** Lines 119-198. *)
Definition termsStep (clauseName : IdentifierName) (_terms : ParseTree)
           (s : ClauseLocals) : Result ClauseLocals :=
  if negb (instanceOf TermOrWhenContext _terms) then Ok s
  else forEach (termStep clauseName) (children _terms) s.

(** Lines 109-199. *)
Definition clauseChildStep (clauseName : IdentifierName) (_clause : ParseTree)
           (s : ClauseLocals) : Result ClauseLocals :=
  if instanceOf OnBreachContext _clause then
    bind (childText _clause 4) (fun e => Ok (setError (orEmpty e) s))
  else if negb (instanceOf TermsContext _clause) then Ok s
  else forEach (termsStep clauseName) (children _clause) s.

(** The walk over the children of a clause node, from fresh locals. *)
Definition lowerTerms (clauseName : IdentifierName) (_clauses : ParseTree)
  : Result ClauseLocals :=
  forEach (clauseChildStep clauseName) (children _clauses) initClauseLocals.

(** Lines 94-209 for one [ClauseContext]. *)
Definition lowerClause (_clauses : ParseTree) : Result Clause :=
  bind (childText _clauses 0) (fun ct =>
  let clauseType := orEmpty ct in
  bind (ID_required _clauses) (fun idNode =>
  let name := text idNode in
  let clauseName := mkClauseName clauseType name in
  bind (rolePlayerNode _clauses) (fun rp1 =>
  bind (childText rp1 2) (fun rolePlayer =>
  bind (rolePlayerNode _clauses) (fun rp2 =>
  bind (childText rp2 2) (fun operation =>
  bind (lowerTerms clauseName _clauses) (fun s =>
  Ok {| clause_name := clauseName;
        clause_type := clauseType;
        clause_variables := values (variables s);
        rolePlayer := rolePlayer;
        operation := operation;
        clause_terms := terms s;
        clause_messages := messages s |}))))))).

(** ** The contract walk ([parse]) *)

(** The locals of [parse] that its closures assign, lines 36-41. *)
Record Locals : Type :=
  { cur_beginDate : string;
    cur_dueDate : string;
    cur_application : string;
    cur_process : string;
    cur_clauses : list Clause }.

Definition initLocals : Locals :=
  {| cur_beginDate := ""; cur_dueDate := ""; cur_application := "";
     cur_process := ""; cur_clauses := [] |}.

(** Lines 45-56: every path through the body leaves the locals alone. *)
Definition variableStep (_variable : ParseTree) (l : Locals) : Result Locals :=
  if instanceOf VariableStatementContext _variable then
    match child _variable 2 with
    | Some c2 =>
        if instanceOf TermContext c2 then
          match child c2 0 with
          | Some current =>
              if instanceOf MessageContentContext current then Ok l else Ok l
          | None => Ok l
          end
        else Ok l
    | None => Ok l
    end
  else Ok l.

Definition setBeginDate (v : string) (l : Locals) : Locals :=
  {| cur_beginDate := v; cur_dueDate := cur_dueDate l;
     cur_application := cur_application l; cur_process := cur_process l;
     cur_clauses := cur_clauses l |}.
Definition setDueDate (v : string) (l : Locals) : Locals :=
  {| cur_beginDate := cur_beginDate l; cur_dueDate := v;
     cur_application := cur_application l; cur_process := cur_process l;
     cur_clauses := cur_clauses l |}.
Definition setApplication (v : string) (l : Locals) : Locals :=
  {| cur_beginDate := cur_beginDate l; cur_dueDate := cur_dueDate l;
     cur_application := v; cur_process := cur_process l;
     cur_clauses := cur_clauses l |}.
Definition setProcess (v : string) (l : Locals) : Locals :=
  {| cur_beginDate := cur_beginDate l; cur_dueDate := cur_dueDate l;
     cur_application := cur_application l; cur_process := v;
     cur_clauses := cur_clauses l |}.
Definition pushClause (c : Clause) (l : Locals) : Locals :=
  {| cur_beginDate := cur_beginDate l; cur_dueDate := cur_dueDate l;
     cur_application := cur_application l; cur_process := cur_process l;
     cur_clauses := cur_clauses l ++ [c] |}.

(** Lines 60-76. *)
Definition dateStep (_date : ParseTree) (l : Locals) : Result Locals :=
  bind (if instanceOf BeginDateContext _date
        then forEach (fun _beginDate l =>
                        if instanceOf DatetimeContext _beginDate
                        then Ok (setBeginDate (text _beginDate) l) else Ok l)
                     (children _date) l
        else Ok l) (fun l' =>
  if instanceOf DueDateContext _date
  then forEach (fun _dueDate l =>
                  if instanceOf DatetimeContext _dueDate
                  then Ok (setDueDate (text _dueDate) l) else Ok l)
               (children _date) l'
  else Ok l').

(** Lines 80-88. *)
Definition partyStep (_party : ParseTree) (l : Locals) : Result Locals :=
  bind (if instanceOf ApplicationContext _party
        then bind (childText _party 2) (fun a => Ok (setApplication (orEmpty a) l))
        else Ok l) (fun l' =>
  if instanceOf ProcessContext _party
  then bind (childText _party 2) (fun p => Ok (setProcess (orEmpty p) l'))
  else Ok l').

(** Lines 92-211. *)
Definition clauseStep (_clauses : ParseTree) (l : Locals) : Result Locals :=
  if instanceOf ClauseContext _clauses
  then bind (lowerClause _clauses) (fun c => Ok (pushClause c l))
  else Ok l.

(** Body of [tree.children?.forEach(_item => ...)], lines 43-213. *)
Definition itemStep (_item : ParseTree) (l : Locals) : Result Locals :=
  bind (if instanceOf VariablesContext _item
        then forEach variableStep (children _item) l else Ok l) (fun l1 =>
  bind (if instanceOf DatesContext _item
        then forEach dateStep (children _item) l1 else Ok l1) (fun l2 =>
  bind (if instanceOf PartiesContext _item
        then forEach partyStep (children _item) l2 else Ok l2) (fun l3 =>
  if instanceOf ClausesContext _item
  then forEach clauseStep (children _item) l3 else Ok l3))).

(** The lowering of [CanonicalParser.parse], lines 34-215, on the tree
    returned by [parser.contract()].  Lines 28-32 (the call of
    [parser.contract()] and the walk of [JabutiGrammarListenerImpl], from
    src/validators, whose result the lowering never reads) are not part of
    it: [parse tree = Ok contract] reads "the lowering returns [contract]",
    which is what the method returns whenever it returns. *)
Definition parse (tree : ParseTree) : Result Contract :=
  let contractName := orEmpty (option_map text (ID tree)) in
  bind (forEach itemStep (children tree) initLocals) (fun l =>
  Ok {| contract_name := contractName;
        beginDate := cur_beginDate l;
        dueDate := cur_dueDate l;
        application := cur_application l;
        process := cur_process l;
        contract_variables := [];
        clauses := cur_clauses l |}).

(** ** Notions used to state the properties *)

(** The [_operation] nodes that the walk of lines 109-199 reaches under a
    clause node, in visiting order. *)
Definition operationsOfTerm (_term : ParseTree) : list ParseTree :=
  if instanceOf TermContext _term then children _term else [].

Definition operationsOfTerms (_terms : ParseTree) : list ParseTree :=
  if instanceOf TermOrWhenContext _terms
  then flat_map operationsOfTerm (children _terms) else [].

Definition operationsOfChild (_clause : ParseTree) : list ParseTree :=
  if instanceOf OnBreachContext _clause then []
  else if instanceOf TermsContext _clause
       then flat_map operationsOfTerms (children _clause) else [].

Definition operationNodes (_clauses : ParseTree) : list ParseTree :=
  flat_map operationsOfChild (children _clauses).

(** The locals with [messages] replaced; the term walk never reads
    [messages]. *)
Definition setMessages (m : Messages) (s : ClauseLocals) : ClauseLocals :=
  {| terms := terms s;
     variables := variables s;
     messages := m;
     termIndex := termIndex s |}.

(** The outcome of a step with [messages] replaced afterwards. *)
Definition withMessages (m : Messages) (r : Result ClauseLocals)
  : Result ClauseLocals :=
  bind r (fun s => Ok (setMessages m s)).

(** [s'] is reached from [s] by the operation loop over [ops], up to the
    [messages] that an on-breach child may have set on the way. *)
Definition Reaches (cn : IdentifierName) (ops : list ParseTree)
           (s s' : ClauseLocals) : Prop :=
  forEach (operationStep cn) ops (setMessages (messages s') s) = Ok s'.

(** The message-content nodes among them. *)
Definition messageContentNodes (ops : list ParseTree) : list ParseTree :=
  filter (instanceOf MessageContentContext) ops.

(** The children of timeout nodes whose text coerces to a number. *)
Definition numericChildren (o : ParseTree) : list ParseTree :=
  filter (fun c => isNumericString (text c)) (children o).

Definition numericTimeoutChildren (ops : list ParseTree) : list ParseTree :=
  flat_map (fun o => if instanceOf TimeoutContext o then numericChildren o else [])
           ops.

Definition isTimeoutTerm (t : Term) : bool :=
  match t with
  | Timeout _ _ => true
  | MessageContent _ _ _ => false
  end.

Definition timeoutTerms (ts : list Term) : list Term := filter isTimeoutTerm ts.

(** The Timeout terms named from consecutive indices starting at [i]. *)
Fixpoint timeoutTermsFrom (clauseName : IdentifierName) (i : nat)
         (cs : list ParseTree) : list Term :=
  match cs with
  | [] => []
  | c :: rest =>
      Timeout (termName clauseName "timeout" i) (text c)
      :: timeoutTermsFrom clauseName (S i) rest
  end.

(** The Variable objects among the entries of a [variables] array. *)
Fixpoint variablesIn (ps : list JsValue) : list VariableT :=
  match ps with
  | [] => []
  | JsObject v :: rest => v :: variablesIn rest
  | _ :: rest => variablesIn rest
  end.

(** The Variables discovered by a term, and by a sequence of terms. *)
Definition termVariables (t : Term) : list VariableT :=
  match t with
  | Timeout _ _ => []
  | MessageContent _ _ ps => variablesIn ps
  end.

Definition discovered (ts : list Term) : list VariableT :=
  flat_map termVariables ts.

Definition camelOf (v : VariableT) : string := camel (var_name v).

(** A property key made of decimal digits only.  Every array-index key is
    one, and array-index keys are the only keys that an object does not
    enumerate in insertion order. *)
Definition isArrayIndexLike (k : string) : bool :=
  digits1 isDigit (map code (list_ascii_of_string k)).

(** [Object.keys(variables)] and [variables[k]] *)
Definition keys (m : VarMap) : list string := map fst m.

Fixpoint lookup (k : string) (m : VarMap) : option VariableT :=
  match m with
  | [] => None
  | (k', v) :: rest => if String.eqb k' k then Some v else lookup k rest
  end.

(** The words of the specification for the clause's variable set,
    "deduplicated by camel name, later occurrence overwriting earlier,
    insertion order = first-discovery order": walk the discovered
    Variables in order; a name not met before takes the next position, and
    each name ends up bound to the Variable met last under it. *)
Definition mem (k : string) (ks : list string) : bool :=
  existsb (String.eqb k) ks.

Definition firstOccurrences (ks : list string) : list string :=
  fold_left (fun acc k => if mem k acc then acc else acc ++ [k]) ks [].

Definition lastNamed (k : string) (vs : list VariableT) : option VariableT :=
  fold_left (fun acc v => if String.eqb (camelOf v) k then Some v else acc) vs None.

Definition dedupLastWins (vs : list VariableT) : list VariableT :=
  flat_map (fun k => match lastNamed k vs with
                     | Some v => [v]
                     | None => []
                     end)
           (firstOccurrences (map camelOf vs)).

(** The merges of lines 156-184 replayed over a sequence of Variables. *)
Definition mergeAll (vs : list VariableT) (m : VarMap) : VarMap :=
  fold_left (fun m v => merge (JsObject v) m) vs m.

(** The clause nodes that [parse] lowers, in source order. *)
Definition clauseNodes (tree : ParseTree) : list ParseTree :=
  flat_map (fun _item =>
              if instanceOf ClausesContext _item
              then filter (instanceOf ClauseContext) (children _item)
              else [])
           (children tree).

(** The terms pushed for a message-content node, lines 164-168 and
    186-191. *)
Definition presenceTerm (cn : IdentifierName) (i : nat) : Term :=
  MessageContent (termName cn "messageContent" i) None
                 [JsObject (presenceVariable i)].

Definition comparisonTerm (cn : IdentifierName) (i : nat) (l c r : JsValue)
  : Term :=
  MessageContent (termName cn "messageContent" i) (Some c) [l; r].

(** [l'] extends the clauses of [l] by the lowerings of [nodes]. *)
Definition Appends (nodes : list ParseTree) (l l' : Locals) : Prop :=
  exists cls,
    Forall2 (fun n c => lowerClause n = Ok c) nodes cls
    /\ cur_clauses l' = cur_clauses l ++ cls.

(** The type the comparator decides, in the words of the specification. *)
Definition comparatorType (comparator : string) : string :=
  if String.eqb comparator "==" then "TEXT"
  else if String.eqb comparator "!=" then "TEXT"
  else "NUMBER".

(** The typing rule of section 8 for the [variables] array of a
    message-content term: without comparator the array is one Variable of
    type [boolean]; with a comparator every Variable in it has type [TEXT]
    when the comparator is [==] or [!=] and [NUMBER] otherwise. *)
Definition VariableTypeRule (comparator : option JsValue) (vars : list JsValue)
  : Prop :=
  match comparator with
  | None => exists v, vars = [JsObject v] /\ var_type v = "boolean"
  | Some c =>
      forall v, In (JsObject v) vars ->
                (c = JsString "==" \/ c = JsString "!=" -> var_type v = "TEXT")
                /\ (c <> JsString "==" -> c <> JsString "!=" ->
                    var_type v = "NUMBER")
  end.

(** An entry of the two-slot [variables] array of a comparison: a
    Variable, or the raw text of an operand that coerces to a number. *)
Definition OperandEntry (e : JsValue) : Prop :=
  (exists v, e = JsObject v)
  \/ (exists raw, e = JsString raw /\ isNumericString raw = true).

(** The shape of the [variables] array of a message-content term: one
    Variable without comparator, two operand entries with one. *)
Definition TermShape (comparator : option JsValue) (vars : list JsValue) : Prop :=
  match comparator with
  | None => exists v, vars = [JsObject v]
  | Some _ => exists l r, vars = [l; r] /\ OperandEntry l /\ OperandEntry r
  end.

(** The message-content terms of a sequence of terms, in order. *)
Definition messageTerms (ts : list Term) : list Term :=
  filter (fun t => match t with
                   | Timeout _ _ => false
                   | MessageContent _ _ _ => true
                   end) ts.

(** Whether an operand read as [term.children?.[i]] is there and has a
    text that coerces to a number, and how many of the two operands of a
    message-content node do. *)
Definition isNumericOperand (value : option ParseTree) : bool :=
  match value with
  | Some v => isNumericString (text v)
  | None => false
  end.

Definition numericOperands (o : ParseTree) : nat :=
  (if isNumericOperand (child o 2) then 1 else 0)
  + (if isNumericOperand (child o 4) then 1 else 0).

(** The entry [e] stands for the operand [value]: the raw text of the
    operand when that text coerces to a number, a Variable otherwise. *)
Definition EntryOf (value : option ParseTree) (e : JsValue) : Prop :=
  match value with
  | Some v => if isNumericString (text v) then e = JsString (text v)
              else exists x, e = JsObject x
  | None => exists x, e = JsObject x
  end.

(** The term [t] is what the message-content node [o] lowers to.  A node
    of four children gives a term without comparator that holds one
    Variable.  Any other node gives a term whose comparator is the text of
    the node's fourth child and whose [variables] are two entries, the
    first for the node's third child and the second for its fifth; the
    Variables among them are two less one for each numeric operand. *)
Definition TermOfNode (o : ParseTree) (t : Term) : Prop :=
  match t with
  | Timeout _ _ => False
  | MessageContent _ comparator vars =>
      if Nat.eqb (childCount o) 4
      then comparator = None
           /\ (exists v, vars = [JsObject v])
           /\ length (variablesIn vars) = 1
      else comparator = Some (comparatorValue (option_map text (child o 3)))
           /\ (exists l r, vars = [l; r]
                           /\ EntryOf (child o 2) l /\ EntryOf (child o 4) r)
           /\ length (variablesIn vars) = 2 - numericOperands o
  end.

(** The number of Variables section 3 requires of a message-content term. *)
Definition requiredVariables (comparator : option JsValue) : nat :=
  match comparator with
  | None => 1
  | Some _ => 2
  end.

(** The three-way rule of section 4.2 for one operand with raw text [raw]
    at position [pos] (["1"] left, ["2"] right) of the term numbered
    [index], as a relation to the entry [r] the analyzer returns. *)
Definition OperandRule (type : string) (index : nat) (pos : string)
           (raw : string) (r : JsValue) : Prop :=
  (isNumericString raw = true -> r = JsString raw)
  /\ (isNumericString raw = false -> startsWithQuote raw = false ->
      r = JsObject {| var_name := {| pascal := capitalizeFirst raw;
                                     camel := raw;
                                     snake := raw |};
                      var_type := type |})
  /\ (isNumericString raw = false -> startsWithQuote raw = true ->
      r = JsObject {| var_name :=
                        {| pascal := "MessageContent" ^^ showNat index ^^ pos;
                           camel := "messageContent" ^^ showNat index ^^ pos;
                           snake := "messageContent_" ^^ showNat index ^^ "_" ^^ pos |};
                      var_type := type |}).

(** ** Notions for the further properties *)

(** Whether an outcome is a value. *)
Definition succeeds {A : Type} (r : Result A) : bool :=
  match r with
  | Ok _ => true
  | Throw _ => false
  end.

(** The [name] and the [type] field of a term. *)
Definition termNameOf (t : Term) : IdentifierName :=
  match t with
  | Timeout n _ => n
  | MessageContent n _ _ => n
  end.

Definition termTypeOf (t : Term) : string :=
  match t with
  | Timeout _ _ => "timeout"
  | MessageContent _ _ _ => "messageContent"
  end.

(** The read [t.children?.[i].text] finds a child to read, or no children
    at all. *)
Definition indexable (t : ParseTree) (i : nat) : bool :=
  match children t with
  | [] => true
  | cs => Nat.ltb i (length cs)
  end.

(** The shapes on which the walk does not throw. *)
Definition messageContentOk (o : ParseTree) : bool :=
  Nat.eqb (childCount o) 4 || indexable o 3.

Definition operationOk (o : ParseTree) : bool :=
  if instanceOf MessageContentContext o then messageContentOk o else true.

Definition breachOk (c : ParseTree) : bool :=
  if instanceOf OnBreachContext c then indexable c 4 else true.

Definition rolePlayerOk (n : ParseTree) : bool :=
  match find (instanceOf RolePlayerContext) (children n) with
  | Some rp => indexable rp 2
  | None => false
  end.

Definition hasID (n : ParseTree) : bool :=
  match ID n with
  | Some _ => true
  | None => false
  end.

Definition clauseOk (n : ParseTree) : bool :=
  hasID n && rolePlayerOk n
  && forallb breachOk (children n)
  && forallb operationOk (operationNodes n).

Definition partyOk (p : ParseTree) : bool :=
  if instanceOf ApplicationContext p || instanceOf ProcessContext p
  then indexable p 2 else true.

Definition itemOk (item : ParseTree) : bool :=
  (if instanceOf PartiesContext item
   then forallb partyOk (children item) else true)
  && (if instanceOf ClausesContext item
      then forallb (fun c => if instanceOf ClauseContext c then clauseOk c else true)
                   (children item)
      else true).

Definition wellShaped (tree : ParseTree) : bool :=
  forallb itemOk (children tree).

(** The term at position [k] is named from [k]. *)
Definition NamedByPosition (cn : IdentifierName) (ts : list Term) : Prop :=
  forall k t, nth_error ts k = Some t ->
              termNameOf t = termName cn (termTypeOf t) k.

(** The four string locals that the dates and parties blocks assign. *)
Inductive Field : Type := FBeginDate | FDueDate | FApplication | FProcess.

Definition Field_eqb (f g : Field) : bool :=
  match f, g with
  | FBeginDate, FBeginDate | FDueDate, FDueDate
  | FApplication, FApplication | FProcess, FProcess => true
  | _, _ => false
  end.

Definition getField (f : Field) (l : Locals) : string :=
  match f with
  | FBeginDate => cur_beginDate l
  | FDueDate => cur_dueDate l
  | FApplication => cur_application l
  | FProcess => cur_process l
  end.

(** The text of child [i], or the empty text when there is none:
    [t.children?.[i].text ?? ''] when the read does not throw. *)
Definition childTextOrEmpty (t : ParseTree) (i : nat) : string :=
  match nth_error (children t) i with
  | Some c => text c
  | None => ""
  end.

(** The assignments [field = value] that the walk of lines 59-89 executes,
    in execution order. *)
Definition datetimeTexts (f : Field) (d : ParseTree) : list (Field * string) :=
  map (fun x => (f, text x)) (filter (instanceOf DatetimeContext) (children d)).

Definition assignmentsOfDate (d : ParseTree) : list (Field * string) :=
  (if instanceOf BeginDateContext d then datetimeTexts FBeginDate d else [])
  ++ (if instanceOf DueDateContext d then datetimeTexts FDueDate d else []).

Definition assignmentsOfParty (p : ParseTree) : list (Field * string) :=
  (if instanceOf ApplicationContext p
   then [(FApplication, childTextOrEmpty p 2)] else [])
  ++ (if instanceOf ProcessContext p
      then [(FProcess, childTextOrEmpty p 2)] else []).

Definition assignmentsOfItem (item : ParseTree) : list (Field * string) :=
  (if instanceOf DatesContext item
   then flat_map assignmentsOfDate (children item) else [])
  ++ (if instanceOf PartiesContext item
      then flat_map assignmentsOfParty (children item) else []).

Definition assignments (tree : ParseTree) : list (Field * string) :=
  flat_map assignmentsOfItem (children tree).

(** The values assigned to one field, in order. *)
Definition assigned (f : Field) (ev : list (Field * string)) : list string :=
  map snd (filter (fun e => Field_eqb (fst e) f) ev).

(** The locals after [ev]: every field holds the value assigned last, or
    what it held before; the clauses are those of before. *)
Definition Assigns (ev : list (Field * string)) (l l' : Locals) : Prop :=
  (forall f, getField f l' = last (assigned f ev) (getField f l))
  /\ cur_clauses l' = cur_clauses l.

(** The messages that the on-breach children of a clause node assign. *)
Definition breachTexts (n : ParseTree) : list string :=
  map (fun c => childTextOrEmpty c 4)
      (filter (instanceOf OnBreachContext) (children n)).

(** The [value]s of the Timeout terms and the [comparator]s of the
    message-content terms of a sequence of terms, in order. *)
Definition timeoutValues (ts : list Term) : list string :=
  flat_map (fun t => match t with
                     | Timeout _ v => [v]
                     | MessageContent _ _ _ => []
                     end) ts.

Definition comparators (ts : list Term) : list (option JsValue) :=
  flat_map (fun t => match t with
                     | Timeout _ _ => []
                     | MessageContent _ c _ => [c]
                     end) ts.

(** The comparator a message-content node yields: none for the four-child
    shape, else the text of the fourth child, [undefined] without
    children. *)
Definition nodeComparator (o : ParseTree) : option JsValue :=
  if Nat.eqb (childCount o) 4 then None
  else Some (comparatorValue (option_map text (child o 3))).

(** ** Sample trees *)

Module Sample.

Definition tok (s : string) : ParseTree := TerminalNode TokOther s.
Definition ident (s : string) : ParseTree := TerminalNode TokID s.

(** [Timeout(n)] *)
Definition timeoutNode (n : string) : ParseTree :=
  RuleNode TimeoutContext [tok "Timeout"; tok "("; tok n; tok ")"].

(** [MessageContent(path)] *)
Definition presenceNode (path : string) : ParseTree :=
  RuleNode MessageContentContext [tok "MessageContent"; tok "("; tok path; tok ")"].

(** [MessageContent(l op r)] *)
Definition comparisonNode (l op r : string) : ParseTree :=
  RuleNode MessageContentContext
           [tok "MessageContent"; tok "("; tok l; tok op; tok r; tok ")"].

Definition termNode (o : ParseTree) : ParseTree :=
  RuleNode TermOrWhenContext [RuleNode TermContext [o]].

Definition termsNode (ops : list ParseTree) : ParseTree :=
  RuleNode TermsContext ([tok "terms"; tok "{"] ++ map termNode ops ++ [tok "}"]).

Definition clauseNode (kind name player : string) (ops : list ParseTree)
  : ParseTree :=
  RuleNode ClauseContext
           [tok kind; ident name; tok "{";
            RuleNode RolePlayerContext [tok "rolePlayer"; tok "="; tok player];
            termsNode ops;
            RuleNode OnBreachContext
                     [tok "onBreach"; tok "("; tok "log"; tok "("; tok "late";
                      tok ")"; tok ")"];
            tok "}"].

Definition variablesNode (body : list ParseTree) : ParseTree :=
  RuleNode VariablesContext ([tok "variables"; tok "{"] ++ body ++ [tok "}"]).

Definition contractNode (name : string) (vars : list ParseTree)
           (cls : list ParseTree) : ParseTree :=
  RuleNode ContractContext
           [tok "contract"; ident name; tok "{";
            variablesNode vars;
            RuleNode ClausesContext ([tok "clauses"; tok "{"] ++ cls ++ [tok "}"]);
            tok "}"].

(** [PENALTY lateDelivery { ... Timeout(86400) ... }] *)
Definition penaltyClause : ParseTree :=
  clauseNode "PENALTY" "lateDelivery" "application" [timeoutNode "86400"].

Definition penaltyContract : ParseTree := contractNode "c" [] [penaltyClause].

(** A clause mixing the term shapes: a timeout, a presence check, a
    comparison with a numeric literal, one with a quoted literal, one
    between two numeric literals, and a second reference to [amount]. *)
Definition mixedClause : ParseTree :=
  clauseNode "right" "requestDelivery" "process"
             [timeoutNode "30";
              presenceNode "$.order";
              comparisonNode "amount" ">" "100";
              comparisonNode "status" "==" (dquote ^^ "DELIVERED" ^^ dquote);
              comparisonNode "1" "<" "2";
              comparisonNode "amount" "!=" "limit"].

Definition mixedContract : ParseTree :=
  contractNode "delivery"
               [RuleNode VariableStatementContext
                         [ident "x"; tok "=";
                          RuleNode TermContext [presenceNode "$.x"]]]
               [mixedClause; penaltyClause].

End Sample.

(** A contract with dates, parties and a clause with two on-breach
    children. *)
Module SampleFull.

Import Sample.

Definition datesNode : ParseTree :=
  RuleNode DatesContext
           [tok "dates"; tok "{";
            RuleNode BeginDateContext
                     [tok "beginDate"; tok "=";
                      RuleNode DatetimeContext [tok "2024-01-01"; tok "T"; tok "00:00"]];
            RuleNode DueDateContext
                     [tok "dueDate"; tok "=";
                      RuleNode DatetimeContext [tok "2024-06-30"];
                      RuleNode DatetimeContext [tok "2024-12-31"]];
            tok "}"].

Definition partiesNode : ParseTree :=
  RuleNode PartiesContext
           [tok "parties"; tok "{";
            RuleNode ApplicationContext [tok "application"; tok "="; tok "shop"];
            RuleNode ProcessContext [tok "process"; tok "="; tok "carrier"];
            RuleNode ProcessContext [];
            tok "}"].

Definition breachNode (message : string) : ParseTree :=
  RuleNode OnBreachContext
           [tok "onBreach"; tok "("; tok "log"; tok "("; tok message;
            tok ")"; tok ")"].

Definition clause : ParseTree :=
  RuleNode ClauseContext
           [tok "obligation"; ident "pay"; tok "{";
            RuleNode RolePlayerContext [tok "rolePlayer"; tok "="; tok "process"];
            breachNode "first";
            termsNode [timeoutNode "30"; comparisonNode "amount" ">=" "100";
                       timeoutNode "1e3"; presenceNode "$.paid"];
            breachNode "second";
            tok "}"].

Definition contract : ParseTree :=
  RuleNode ContractContext
           [tok "contract"; ident "payment"; tok "{";
            datesNode; RuleNode OtherContext [tok "note"]; partiesNode;
            RuleNode ClausesContext [tok "clauses"; tok "{"; clause; tok "}"];
            tok "}"].

End SampleFull.

(** ** The revised canonicalizer (src/unnamed/part_000)

    A second revision of [CanonicalParser], over a later grammar: names
    are [VariableNameContext] rule nodes, dates are [DateContext] nodes,
    the operand of a timeout is a [NumberContext] node, Variables carry a
    plain string name and a clause lists them without deduplication. *)

Module Revised.

Inductive RuleKind : Type :=
| ContractContext
| VariablesContext
| VariableStatementContext
| DatesContext
| BeginDateContext
| DueDateContext
| DateContext
| PartiesContext
| ApplicationContext
| ProcessContext
| ClausesContext
| ClauseContext
| RolePlayerContext
| OnBreachContext
| TermsContext
| TermOrWhenContext
| TermContext
| TimeoutContext
| MessageContentContext
| NumberContext
| VariableNameContext
| OtherContext.

Inductive ParseTree : Type :=
| TerminalNode (symbolText : string)
| RuleNode (kind : RuleKind) (nodes : list ParseTree).

Definition RuleKind_eq_dec (a b : RuleKind) : {a = b} + {a <> b}.
Proof. decide equality. Defined.

(** [t instanceof K] *)
Definition instanceOf (k : RuleKind) (t : ParseTree) : bool :=
  match t with
  | RuleNode k' _ => if RuleKind_eq_dec k' k then true else false
  | TerminalNode _ => false
  end.

(** [t.children], with [[]] for [undefined] as before. *)
Definition children (t : ParseTree) : list ParseTree :=
  match t with
  | RuleNode _ cs => cs
  | TerminalNode _ => []
  end.

Definition childCount (t : ParseTree) : nat := length (children t).

Fixpoint text (t : ParseTree) : string :=
  match t with
  | TerminalNode s => s
  | RuleNode _ cs => String.concat "" (map text cs)
  end.

(** [t.children?.[i]] *)
Definition child (t : ParseTree) (i : nat) : option ParseTree :=
  nth_error (children t) i.

(** [t.children?.[i].text] *)
Definition childText (t : ParseTree) (i : nat) : Result (option string) :=
  match children t with
  | [] => Ok None
  | cs =>
      match nth_error cs i with
      | Some c => Ok (Some (text c))
      | None => Throw TypeError
      end
  end.

(** [t.variableName()] read through [?.]: the first name node among the
    children, or [undefined]. *)
Definition variableName (t : ParseTree) : option ParseTree :=
  find (instanceOf VariableNameContext) (children t).

(** [t.variableName()] dereferenced directly. *)
Definition variableName_required (t : ParseTree) : Result ParseTree :=
  match variableName t with
  | Some n => Ok n
  | None => Throw NoSuchNode
  end.

(** [t.rolePlayer()] *)
Definition rolePlayerNode (t : ParseTree) : Result ParseTree :=
  match find (instanceOf RolePlayerContext) (children t) with
  | Some n => Ok n
  | None => Throw NoSuchNode
  end.

(** [{ name: string; type: string }] *)
Record VariableT : Type := { var_name : string; var_type : string }.

(** What [parseMessageContent] returns. *)
Record MessageContentResult : Type :=
  { mc_variables : list VariableT; mc_comparator : option string }.

Inductive Term : Type :=
| Timeout (name : IdentifierName) (value : string)
| MessageContent (name : IdentifierName) (variables : list VariableT)
                 (comparator : option string).

Record Clause : Type :=
  { clause_name : IdentifierName;
    clause_type : string;
    clause_variables : list VariableT;
    rolePlayer : option string;
    operation : option string;
    clause_terms : list Term;
    clause_messages : Messages }.

Record Contract : Type :=
  { contract_name : string;
    beginDate : string;
    dueDate : string;
    application : string;
    process : string;
    contract_variables : list VariableT;
    clauses : list Clause }.

(** [typeof v === 'number'] for [v] a tree node or [undefined]: never. *)
Definition typeofIsNumber (v : option ParseTree) : bool := false.

(** [v instanceof VariableNameContext] for [v] a tree node or [undefined] *)
Definition isVariableName (v : option ParseTree) : bool :=
  match v with
  | Some n => instanceOf VariableNameContext n
  | None => false
  end.

(** [`${v.text}${index}${pos}`], used only under [v instanceof
    VariableNameContext], and [`messageContent${index}${pos}`] *)
Definition referenceName (v : option ParseTree) (index : nat) (pos : string)
  : string :=
  orEmpty (option_map text v) ^^ showNat index ^^ pos.

Definition anonymousName (index : nat) (pos : string) : string :=
  "messageContent" ^^ showNat index ^^ pos.

Definition mkVar (name type : string) : VariableT :=
  {| var_name := name; var_type := type |}.

(** Lines 170-209 of part_000. *)
Definition parseMessageContent (term : ParseTree) (index : nat)
  : Result MessageContentResult :=
  let variables0 : list VariableT := [] in
  let variables1 :=
    if Nat.eqb (childCount term) 4
    then variables0 ++ [mkVar ("messageContent" ^^ showNat index) "boolean"]
    else variables0 in
  if Nat.eqb (childCount term) 6 then
    let value1 := child term 2 in
    let value2 := child term 4 in
    bind (childText term 3) (fun comparator =>
    let type := inferType (comparatorValue comparator) in
    let pushed :=
      if typeofIsNumber value1 || typeofIsNumber value2 then
        [mkVar (anonymousName index "1") "NUMBER";
         mkVar (anonymousName index "2") "NUMBER"]
      else if negb (isVariableName value1) && negb (isVariableName value2) then
        [mkVar (anonymousName index "1") type;
         mkVar (anonymousName index "2") type]
      else if isVariableName value1 && negb (isVariableName value2) then
        [mkVar (referenceName value1 index "1") type;
         mkVar (anonymousName index "2") type]
      else if negb (isVariableName value1) && isVariableName value2 then
        [mkVar (anonymousName index "1") type;
         mkVar (referenceName value2 index "2") type]
      else if isVariableName value1 && isVariableName value2 then
        [mkVar (referenceName value1 index "1") type;
         mkVar (referenceName value2 index "2") type]
      else
        [mkVar (anonymousName index "1") "BOOLEAN";
         mkVar (anonymousName index "2") "BOOLEAN"] in
    Ok {| mc_variables := variables1 ++ pushed; mc_comparator := comparator |})
  else Ok {| mc_variables := variables1; mc_comparator := None |}.

(** The locals captured by the closures of lines 103-159. *)
Record ClauseLocals : Type :=
  { terms : list Term;
    variables : list VariableT;
    messages : Messages;
    termIndex : nat }.

Definition initClauseLocals : ClauseLocals :=
  {| terms := [];
     variables := [];
     messages := {| error := ""; success := "" |};
     termIndex := 0 |}.

(** Lines 127-134: name the term from the index, advance it, push. *)
Definition pushTimeout (clauseName : IdentifierName) (_timeout : ParseTree)
           (s : ClauseLocals) : ClauseLocals :=
  let termType := "timeout" in
  let name := termName clauseName termType (termIndex s) in
  {| terms := terms s ++ [Timeout name (text _timeout)];
     variables := variables s;
     messages := messages s;
     termIndex := S (termIndex s) |}.

(** Lines 126-136. *)
Definition timeoutStep (clauseName : IdentifierName) (_timeout : ParseTree)
           (s : ClauseLocals) : Result ClauseLocals :=
  if instanceOf NumberContext _timeout
  then Ok (pushTimeout clauseName _timeout s)
  else Ok s.

(** Lines 150-154: advance the index, append the Variables, push the
    term. *)
Definition pushMessageContent (clauseName : IdentifierName)
           (messageContent : MessageContentResult) (s : ClauseLocals)
  : ClauseLocals :=
  let termType := "messageContent" in
  let name := termName clauseName termType (termIndex s) in
  {| terms := terms s
              ++ [MessageContent name (mc_variables messageContent)
                                 (mc_comparator messageContent)];
     variables := variables s ++ mc_variables messageContent;
     messages := messages s;
     termIndex := S (termIndex s) |}.

(** Lines 139-155. *)
Definition messageContentStep (clauseName : IdentifierName)
           (_operation : ParseTree) (s : ClauseLocals) : Result ClauseLocals :=
  bind (parseMessageContent _operation (termIndex s)) (fun messageContent =>
  Ok (pushMessageContent clauseName messageContent s)).

(** [messages.error = e] *)
Definition setError (e : string) (s : ClauseLocals) : ClauseLocals :=
  {| terms := terms s;
     variables := variables s;
     messages := {| error := e; success := success (messages s) |};
     termIndex := termIndex s |}.

Definition operationStep (clauseName : IdentifierName) (_operation : ParseTree)
           (s : ClauseLocals) : Result ClauseLocals :=
  bind (if instanceOf TimeoutContext _operation
        then forEach (timeoutStep clauseName) (children _operation) s
        else Ok s) (fun s' =>
  if instanceOf MessageContentContext _operation
  then messageContentStep clauseName _operation s'
  else Ok s').

Definition termStep (clauseName : IdentifierName) (_term : ParseTree)
           (s : ClauseLocals) : Result ClauseLocals :=
  if negb (instanceOf TermContext _term) then Ok s
  else forEach (operationStep clauseName) (children _term) s.

Definition termsStep (clauseName : IdentifierName) (_terms : ParseTree)
           (s : ClauseLocals) : Result ClauseLocals :=
  if negb (instanceOf TermOrWhenContext _terms) then Ok s
  else forEach (termStep clauseName) (children _terms) s.

Definition clauseChildStep (clauseName : IdentifierName) (_clause : ParseTree)
           (s : ClauseLocals) : Result ClauseLocals :=
  if instanceOf OnBreachContext _clause then
    bind (childText _clause 4) (fun e => Ok (setError (orEmpty e) s))
  else if negb (instanceOf TermsContext _clause) then Ok s
  else forEach (termsStep clauseName) (children _clause) s.

Definition lowerTerms (clauseName : IdentifierName) (_clauses : ParseTree)
  : Result ClauseLocals :=
  forEach (clauseChildStep clauseName) (children _clauses) initClauseLocals.

(** Lines 88-161 for one [ClauseContext]. *)
Definition lowerClause (_clauses : ParseTree) : Result Clause :=
  bind (childText _clauses 0) (fun ct =>
  let clauseType := orEmpty ct in
  bind (variableName_required _clauses) (fun nameNode =>
  let name := text nameNode in
  let clauseName := mkClauseName clauseType name in
  bind (rolePlayerNode _clauses) (fun rp1 =>
  bind (childText rp1 2) (fun rolePlayer =>
  bind (rolePlayerNode _clauses) (fun rp2 =>
  bind (childText rp2 2) (fun operation =>
  bind (lowerTerms clauseName _clauses) (fun s =>
  Ok {| clause_name := clauseName;
        clause_type := clauseType;
        clause_variables := variables s;
        rolePlayer := rolePlayer;
        operation := operation;
        clause_terms := terms s;
        clause_messages := messages s |}))))))).

(** The locals of [parse], lines 30-35. *)
Record Locals : Type :=
  { cur_beginDate : string;
    cur_dueDate : string;
    cur_application : string;
    cur_process : string;
    cur_clauses : list Clause }.

Definition initLocals : Locals :=
  {| cur_beginDate := ""; cur_dueDate := ""; cur_application := "";
     cur_process := ""; cur_clauses := [] |}.

Definition setBeginDate (v : string) (l : Locals) : Locals :=
  {| cur_beginDate := v; cur_dueDate := cur_dueDate l;
     cur_application := cur_application l; cur_process := cur_process l;
     cur_clauses := cur_clauses l |}.
Definition setDueDate (v : string) (l : Locals) : Locals :=
  {| cur_beginDate := cur_beginDate l; cur_dueDate := v;
     cur_application := cur_application l; cur_process := cur_process l;
     cur_clauses := cur_clauses l |}.
Definition setApplication (v : string) (l : Locals) : Locals :=
  {| cur_beginDate := cur_beginDate l; cur_dueDate := cur_dueDate l;
     cur_application := v; cur_process := cur_process l;
     cur_clauses := cur_clauses l |}.
Definition setProcess (v : string) (l : Locals) : Locals :=
  {| cur_beginDate := cur_beginDate l; cur_dueDate := cur_dueDate l;
     cur_application := cur_application l; cur_process := v;
     cur_clauses := cur_clauses l |}.
Definition pushClause (c : Clause) (l : Locals) : Locals :=
  {| cur_beginDate := cur_beginDate l; cur_dueDate := cur_dueDate l;
     cur_application := cur_application l; cur_process := cur_process l;
     cur_clauses := cur_clauses l ++ [c] |}.

(** Lines 39-50: no path assigns anything. *)
Definition variableStep (_variable : ParseTree) (l : Locals) : Result Locals :=
  if instanceOf VariableStatementContext _variable then
    match child _variable 2 with
    | Some c2 =>
        if instanceOf TermContext c2 then
          match child c2 0 with
          | Some current =>
              if instanceOf MessageContentContext current then Ok l else Ok l
          | None => Ok l
          end
        else Ok l
    | None => Ok l
    end
  else Ok l.

(** Lines 54-70. *)
Definition dateStep (_date : ParseTree) (l : Locals) : Result Locals :=
  bind (if instanceOf BeginDateContext _date
        then forEach (fun _beginDate l =>
                        if instanceOf DateContext _beginDate
                        then Ok (setBeginDate (text _beginDate) l) else Ok l)
                     (children _date) l
        else Ok l) (fun l' =>
  if instanceOf DueDateContext _date
  then forEach (fun _dueDate l =>
                  if instanceOf DateContext _dueDate
                  then Ok (setDueDate (text _dueDate) l) else Ok l)
               (children _date) l'
  else Ok l').

(** Lines 74-82. *)
Definition partyStep (_party : ParseTree) (l : Locals) : Result Locals :=
  bind (if instanceOf ApplicationContext _party
        then bind (childText _party 2) (fun a => Ok (setApplication (orEmpty a) l))
        else Ok l) (fun l' =>
  if instanceOf ProcessContext _party
  then bind (childText _party 2) (fun p => Ok (setProcess (orEmpty p) l'))
  else Ok l').

Definition clauseStep (_clauses : ParseTree) (l : Locals) : Result Locals :=
  if instanceOf ClauseContext _clauses
  then bind (lowerClause _clauses) (fun c => Ok (pushClause c l))
  else Ok l.

Definition itemStep (_item : ParseTree) (l : Locals) : Result Locals :=
  bind (if instanceOf VariablesContext _item
        then forEach variableStep (children _item) l else Ok l) (fun l1 =>
  bind (if instanceOf DatesContext _item
        then forEach dateStep (children _item) l1 else Ok l1) (fun l2 =>
  bind (if instanceOf PartiesContext _item
        then forEach partyStep (children _item) l2 else Ok l2) (fun l3 =>
  if instanceOf ClausesContext _item
  then forEach clauseStep (children _item) l3 else Ok l3))).

(** [CanonicalParser.parse] of part_000, lines 27-168. *)
Definition parse (context : ParseTree) : Result Contract :=
  let contractName := orEmpty (option_map text (variableName context)) in
  bind (forEach itemStep (children context) initLocals) (fun l =>
  Ok {| contract_name := contractName;
        beginDate := cur_beginDate l;
        dueDate := cur_dueDate l;
        application := cur_application l;
        process := cur_process l;
        contract_variables := [];
        clauses := cur_clauses l |}).

(** *** Notions for its properties *)

Definition termNameOf (t : Term) : IdentifierName :=
  match t with
  | Timeout n _ => n
  | MessageContent n _ _ => n
  end.

Definition termTypeOf (t : Term) : string :=
  match t with
  | Timeout _ _ => "timeout"
  | MessageContent _ _ _ => "messageContent"
  end.

Definition termVariables (t : Term) : list VariableT :=
  match t with
  | Timeout _ _ => []
  | MessageContent _ vs _ => vs
  end.

Definition timeoutValues (ts : list Term) : list string :=
  flat_map (fun t => match t with
                     | Timeout _ v => [v]
                     | MessageContent _ _ _ => []
                     end) ts.

(** The operation nodes reached under a clause node, in visiting order. *)
Definition operationsOfTerm (_term : ParseTree) : list ParseTree :=
  if instanceOf TermContext _term then children _term else [].

Definition operationsOfTerms (_terms : ParseTree) : list ParseTree :=
  if instanceOf TermOrWhenContext _terms
  then flat_map operationsOfTerm (children _terms) else [].

Definition operationsOfChild (_clause : ParseTree) : list ParseTree :=
  if instanceOf OnBreachContext _clause then []
  else if instanceOf TermsContext _clause
       then flat_map operationsOfTerms (children _clause) else [].

Definition operationNodes (_clauses : ParseTree) : list ParseTree :=
  flat_map operationsOfChild (children _clauses).

(** The number nodes directly under the timeout nodes among [ops]. *)
Definition numberChildren (ops : list ParseTree) : list ParseTree :=
  flat_map (fun o => if instanceOf TimeoutContext o
                     then filter (instanceOf NumberContext) (children o)
                     else [])
           ops.

(** The Timeout values of [s'] are those of [s] followed by the texts of
    the number nodes under the timeout nodes among [ops]. *)
Definition TimeoutsAppended (ops : list ParseTree) (s s' : ClauseLocals) : Prop :=
  timeoutValues (terms s')
  = timeoutValues (terms s) ++ map text (numberChildren ops).

(** The name of the Variable of an operand. *)
Definition operandName (v : ParseTree) (index : nat) (pos : string) : string :=
  if instanceOf VariableNameContext v then text v ^^ showNat index ^^ pos
  else "messageContent" ^^ showNat index ^^ pos.

Definition indexable (t : ParseTree) (i : nat) : bool :=
  match children t with
  | [] => true
  | cs => Nat.ltb i (length cs)
  end.

(** The clause nodes on which [lowerClause] does not throw. *)
Definition clauseOk (n : ParseTree) : bool :=
  match variableName n with
  | Some _ => true
  | None => false
  end
  && match find (instanceOf RolePlayerContext) (children n) with
     | Some rp => indexable rp 2
     | None => false
     end
  && forallb (fun c => if instanceOf OnBreachContext c then indexable c 4 else true)
             (children n).

(** Sample nodes. *)
Definition tok (s : string) : ParseTree := TerminalNode s.
Definition nameNode (s : string) : ParseTree :=
  RuleNode VariableNameContext [tok s].
Definition numberNode (s : string) : ParseTree := RuleNode NumberContext [tok s].

Definition comparisonNode (l : ParseTree) (op : string) (r : ParseTree)
  : ParseTree :=
  RuleNode MessageContentContext
           [tok "MessageContent"; tok "("; l; tok op; r; tok ")"].

Definition sampleClause : ParseTree :=
  RuleNode ClauseContext
           [tok "right"; nameNode "requestDelivery"; tok "{";
            RuleNode RolePlayerContext [tok "rolePlayer"; tok "="; tok "process"];
            RuleNode TermsContext
                     [RuleNode TermOrWhenContext
                               [RuleNode TermContext
                                         [RuleNode TimeoutContext
                                                   [tok "Timeout"; tok "(";
                                                    numberNode "30"; tok ")"]]];
                      RuleNode TermOrWhenContext
                               [RuleNode TermContext
                                         [comparisonNode (nameNode "weight") "=="
                                                         (numberNode "100")]];
                      RuleNode TermOrWhenContext
                               [RuleNode TermContext
                                         [comparisonNode (nameNode "weight") "<"
                                                         (nameNode "limit")]];
                      RuleNode TermOrWhenContext
                               [RuleNode TermContext
                                         [RuleNode MessageContentContext
                                                   [tok "MessageContent"; tok "(";
                                                    tok "a"; tok "b"; tok ")"]]]];
            tok "}"].

End Revised.

(** * Properties *)

(** ** [Number] coercion on sample texts *)

Example number_examples :
  map Js.isNumericString
      ["86400"; ""; " 12 "; "1e5"; "0x1F"; "-Infinity"; "5."; "+.5"; "1.e-3"]
  = [true; true; true; true; true; true; true; true; true]
  /\ map Js.isNumericString
       ["abc"; Js.dquote ^^ "x" ^^ Js.dquote; "Timeout"; "("; ")"; "1_000"; "."; "-0x10"; "0b2";
        "1e"; "12px"; "1 2"; "infinity"; "+"; "0x"]
     = [false; false; false; false; false; false; false; false; false;
        false; false; false; false; false; false].
Proof. split; vm_compute; reflexivity. Qed.

(** ** Reasoning about [forEach] *)

Section ForEach.
Context {A S : Type}.
Variable f : A -> S -> Result S.

Lemma bind_Ok {X Y} (m : Result X) (k : X -> Result Y) (y : Y) :
  bind m k = Ok y -> exists x, m = Ok x /\ k x = Ok y.
Proof.
  destruct m as [x | e]; simpl; intros H; [eauto | discriminate].
Qed.

Lemma forEach_app (xs ys : list A) (s : S) :
  forEach f (xs ++ ys) s = bind (forEach f xs s) (forEach f ys).
Proof.
  revert s; induction xs as [| x xs IH]; intros s; simpl; [reflexivity |].
  destruct (f x s); simpl; auto.
Qed.

(** A property of the locals kept by every iteration is kept by the loop. *)
Lemma forEach_invariant (P : S -> Prop) :
  (forall x s s', P s -> f x s = Ok s' -> P s') ->
  forall xs s s', P s -> forEach f xs s = Ok s' -> P s'.
Proof.
  intros Hstep xs; induction xs as [| x xs IH]; simpl; intros s s' Hs H.
  - injection H as <-; exact Hs.
  - apply bind_Ok in H as (s1 & H1 & H2); eauto.
Qed.

(** A loop whose iterations never throw never throws. *)
Lemma forEach_total :
  (forall x s, exists s', f x s = Ok s') ->
  forall xs s, exists s', forEach f xs s = Ok s'.
Proof.
  intros Hstep xs; induction xs as [| x xs IH]; simpl; intros s; [eauto |].
  destruct (Hstep x s) as (s1 & ->); simpl; apply IH.
Qed.

(** A relation between the locals before and after, indexed by the nodes
    visited, that composes along concatenation. *)
Lemma forEach_flat {B : Type} (g : A -> list B) (R : list B -> S -> S -> Prop) :
  (forall s, R [] s s) ->
  (forall l1 l2 s1 s2 s3, R l1 s1 s2 -> R l2 s2 s3 -> R (l1 ++ l2) s1 s3) ->
  (forall x s s', f x s = Ok s' -> R (g x) s s') ->
  forall xs s s', forEach f xs s = Ok s' -> R (flat_map g xs) s s'.
Proof.
  intros Hrefl Htrans Hstep xs; induction xs as [| x xs IH]; simpl; intros s s' H.
  - injection H as <-; apply Hrefl.
  - apply bind_Ok in H as (s1 & H1 & H2); eauto.
Qed.
End ForEach.

(** ** Invariants of the clause walk *)

Lemma timeoutStep_cases (cn : IdentifierName) (c : ParseTree) (s : ClauseLocals) :
  timeoutStep cn c s
  = Ok (if isNumericString (text c) then pushTimeout cn c s else s).
Proof.
  unfold timeoutStep, pushTimeout; simpl.
  rewrite negb_involutive; destruct (isNumericString (text c)); reflexivity.
Qed.

Section ClauseWalk.
Variable clauseName : IdentifierName.
Variable P : ClauseLocals -> Prop.
Hypothesis P_timeout : forall c s, P s -> P (pushTimeout clauseName c s).
Hypothesis P_message :
  forall o s s', P s -> messageContentStep clauseName o s = Ok s' -> P s'.
Hypothesis P_error : forall e s, P s -> P (setError e s).

Lemma timeoutStep_invariant c s s' :
  P s -> timeoutStep clauseName c s = Ok s' -> P s'.
Proof.
  intros Hs H; rewrite timeoutStep_cases in H; injection H as <-.
  destruct (isNumericString (text c)); auto.
Qed.

Lemma operationStep_invariant o s s' :
  P s -> operationStep clauseName o s = Ok s' -> P s'.
Proof.
  unfold operationStep; intros Hs H.
  apply bind_Ok in H as (s1 & H1 & H2).
  assert (P s1) as Hs1.
  { destruct (instanceOf TimeoutContext o).
    - exact (forEach_invariant _ P timeoutStep_invariant _ _ _ Hs H1).
    - injection H1 as <-; exact Hs. }
  destruct (instanceOf MessageContentContext o); [eauto |].
  injection H2 as <-; exact Hs1.
Qed.

Lemma termStep_invariant t s s' :
  P s -> termStep clauseName t s = Ok s' -> P s'.
Proof.
  unfold termStep; intros Hs H.
  destruct (negb (instanceOf TermContext t)).
  - injection H as <-; exact Hs.
  - exact (forEach_invariant _ P operationStep_invariant _ _ _ Hs H).
Qed.

Lemma termsStep_invariant t s s' :
  P s -> termsStep clauseName t s = Ok s' -> P s'.
Proof.
  unfold termsStep; intros Hs H.
  destruct (negb (instanceOf TermOrWhenContext t)).
  - injection H as <-; exact Hs.
  - exact (forEach_invariant _ P termStep_invariant _ _ _ Hs H).
Qed.

Lemma clauseChildStep_invariant c s s' :
  P s -> clauseChildStep clauseName c s = Ok s' -> P s'.
Proof.
  unfold clauseChildStep; intros Hs H.
  destruct (instanceOf OnBreachContext c).
  - apply bind_Ok in H as (e & _ & H); injection H as <-.
    apply (P_error (orEmpty e)); exact Hs.
  - destruct (negb (instanceOf TermsContext c)).
    + injection H as <-; exact Hs.
    + exact (forEach_invariant _ P termsStep_invariant _ _ _ Hs H).
Qed.

Lemma lowerTerms_invariant _clauses s :
  P initClauseLocals -> lowerTerms clauseName _clauses = Ok s -> P s.
Proof.
  unfold lowerTerms; intros H0 H.
  exact (forEach_invariant _ P clauseChildStep_invariant _ _ _ H0 H).
Qed.
End ClauseWalk.

(** ** Invariants of the contract walk *)

Lemma lowerClause_inv (_clauses : ParseTree) (c : Clause) :
  lowerClause _clauses = Ok c ->
  exists ct idNode rp s,
    childText _clauses 0 = Ok ct
    /\ ID_required _clauses = Ok idNode
    /\ lowerTerms (mkClauseName (orEmpty ct) (text idNode)) _clauses = Ok s
    /\ c = {| clause_name := mkClauseName (orEmpty ct) (text idNode);
              clause_type := orEmpty ct;
              clause_variables := values (variables s);
              rolePlayer := rp;
              operation := rp;
              clause_terms := terms s;
              clause_messages := messages s |}.
Proof.
  unfold lowerClause; intros H.
  apply bind_Ok in H as (ct & Hct & H).
  apply bind_Ok in H as (idNode & Hid & H).
  apply bind_Ok in H as (rp1 & Hrp1 & H).
  apply bind_Ok in H as (r1 & Hr1 & H).
  apply bind_Ok in H as (rp2 & Hrp2 & H).
  apply bind_Ok in H as (r2 & Hr2 & H).
  apply bind_Ok in H as (s & Hs & H).
  rewrite Hrp1 in Hrp2; injection Hrp2 as <-.
  rewrite Hr1 in Hr2; injection Hr2 as <-.
  injection H as <-.
  exists ct, idNode, r1, s; auto.
Qed.

Section ContractWalk.
Variable Q : Locals -> Prop.
Hypothesis Q_beginDate : forall v l, Q l -> Q (setBeginDate v l).
Hypothesis Q_dueDate : forall v l, Q l -> Q (setDueDate v l).
Hypothesis Q_application : forall v l, Q l -> Q (setApplication v l).
Hypothesis Q_process : forall v l, Q l -> Q (setProcess v l).
Hypothesis Q_clause :
  forall n c l, Q l -> lowerClause n = Ok c -> Q (pushClause c l).

Lemma variableStep_id v l : variableStep v l = Ok l.
Proof.
  unfold variableStep.
  destruct (instanceOf VariableStatementContext v); [| reflexivity].
  destruct (child v 2) as [c2 |]; [| reflexivity].
  destruct (instanceOf TermContext c2); [| reflexivity].
  destruct (child c2 0) as [cur |]; [| reflexivity].
  destruct (instanceOf MessageContentContext cur); reflexivity.
Qed.

Lemma variables_block_id vs l : forEach variableStep vs l = Ok l.
Proof.
  induction vs as [| v vs IH]; simpl; [reflexivity |].
  rewrite variableStep_id; simpl; exact IH.
Qed.

Lemma dateStep_invariant d l l' : Q l -> dateStep d l = Ok l' -> Q l'.
Proof.
  unfold dateStep; intros Hl H.
  apply bind_Ok in H as (l1 & H1 & H2).
  assert (Q l1) as Hl1.
  { destruct (instanceOf BeginDateContext d).
    - revert H1; apply forEach_invariant; [| exact Hl].
      intros x s s' Hs Hx; destruct (instanceOf DatetimeContext x);
        injection Hx as <-; auto.
    - injection H1 as <-; exact Hl. }
  destruct (instanceOf DueDateContext d).
  - revert H2; apply forEach_invariant; [| exact Hl1].
    intros x s s' Hs Hx; destruct (instanceOf DatetimeContext x);
      injection Hx as <-; auto.
  - injection H2 as <-; exact Hl1.
Qed.

Lemma partyStep_invariant p l l' : Q l -> partyStep p l = Ok l' -> Q l'.
Proof.
  unfold partyStep; intros Hl H.
  apply bind_Ok in H as (l1 & H1 & H2).
  assert (Q l1) as Hl1.
  { destruct (instanceOf ApplicationContext p).
    - apply bind_Ok in H1 as (a & _ & H1); injection H1 as <-; auto.
    - injection H1 as <-; exact Hl. }
  destruct (instanceOf ProcessContext p).
  - apply bind_Ok in H2 as (a & _ & H2); injection H2 as <-; auto.
  - injection H2 as <-; exact Hl1.
Qed.

Lemma clauseStep_invariant n l l' : Q l -> clauseStep n l = Ok l' -> Q l'.
Proof.
  unfold clauseStep; intros Hl H.
  destruct (instanceOf ClauseContext n).
  - apply bind_Ok in H as (c & Hc & H); injection H as <-; eauto.
  - injection H as <-; exact Hl.
Qed.

Lemma itemStep_invariant i l l' : Q l -> itemStep i l = Ok l' -> Q l'.
Proof.
  unfold itemStep; intros Hl H.
  apply bind_Ok in H as (l1 & H1 & H).
  apply bind_Ok in H as (l2 & H2 & H).
  apply bind_Ok in H as (l3 & H3 & H).
  assert (Q l1) as Hl1.
  { destruct (instanceOf VariablesContext i).
    - rewrite variables_block_id in H1; injection H1 as <-; exact Hl.
    - injection H1 as <-; exact Hl. }
  assert (Q l2) as Hl2.
  { destruct (instanceOf DatesContext i).
    - exact (forEach_invariant _ Q dateStep_invariant _ _ _ Hl1 H2).
    - injection H2 as <-; exact Hl1. }
  assert (Q l3) as Hl3.
  { destruct (instanceOf PartiesContext i).
    - exact (forEach_invariant _ Q partyStep_invariant _ _ _ Hl2 H3).
    - injection H3 as <-; exact Hl2. }
  destruct (instanceOf ClausesContext i).
  - exact (forEach_invariant _ Q clauseStep_invariant _ _ _ Hl3 H).
  - injection H as <-; exact Hl3.
Qed.

Lemma walk_invariant tree l :
  Q initLocals -> forEach itemStep (children tree) initLocals = Ok l -> Q l.
Proof.
  intros H0 H; exact (forEach_invariant _ Q itemStep_invariant _ _ _ H0 H).
Qed.
End ContractWalk.

(** Every clause of a returned contract is the lowering of some clause
    node. *)
Lemma parse_clauses (R : Clause -> Prop) :
  (forall n c, lowerClause n = Ok c -> R c) ->
  forall tree contract, parse tree = Ok contract -> Forall R (clauses contract).
Proof.
  intros HR tree contract H; unfold parse in H.
  apply bind_Ok in H as (l & Hl & H); injection H as <-; simpl.
  revert Hl; apply walk_invariant with (Q := fun l => Forall R (cur_clauses l));
    simpl; auto.
  intros n c l0 Hl0 Hc; apply Forall_app; split; [exact Hl0 |].
  constructor; [eauto | constructor].
Qed.

(** ** The message-condition analyzer *)

Lemma parseMessageContent_presence (term : ParseTree) (index : nat) :
  childCount term = 4 ->
  parseMessageContent term index = Ok [JsObject (presenceVariable index)].
Proof.
  intros H; unfold parseMessageContent; rewrite H; reflexivity.
Qed.

Lemma parseMessageContent_comparison (term : ParseTree) (index : nat)
      (ps : list JsValue) :
  childCount term <> 4 ->
  parseMessageContent term index = Ok ps ->
  exists c,
    childText term 3 = Ok c
    /\ ps = [operand (child term 2) (inferType (comparatorValue c)) index "1";
             comparatorValue c;
             operand (child term 4) (inferType (comparatorValue c)) index "2"].
Proof.
  intros Hn H; unfold parseMessageContent in H.
  apply Nat.eqb_neq in Hn; rewrite Hn in H.
  apply bind_Ok in H as (c & Hc & H); injection H as <-.
  exists c; split; [exact Hc | reflexivity].
Qed.

(** What an operand slot can hold: the raw text of a numeric operand, or a
    Variable of the inferred type. *)
Lemma operand_cases (value : option ParseTree) (type : string) (index : nat)
      (pos : string) :
  (exists v, value = Some v /\ isNumericString (text v) = true
             /\ operand value type index pos = JsString (text v))
  \/ (exists x, operand value type index pos = JsObject x /\ var_type x = type).
Proof.
  unfold operand; destruct value as [v |]; simpl.
  - destruct (isNumericString (text v)) eqn:Hnum; simpl.
    + left; exists v; auto.
    + right; destruct (startsWithQuote (text v)); simpl; eauto.
  - right; eauto.
Qed.

Lemma operand_rule (v : ParseTree) (type : string) (index : nat) (pos : string) :
  OperandRule type index pos (text v) (operand (Some v) type index pos).
Proof.
  unfold OperandRule, operand; simpl.
  destruct (isNumericString (text v)); simpl;
    destruct (startsWithQuote (text v)); simpl;
    repeat split; intros; try discriminate; reflexivity.
Qed.

Lemma inferType_comparatorType (cmp : string) :
  inferType (JsString cmp) = comparatorType cmp.
Proof.
  unfold inferType, comparatorType.
  destruct (String.eqb cmp "=="); simpl; reflexivity.
Qed.

Lemma childText_child (t : ParseTree) (i : nat) (c : ParseTree) :
  child t i = Some c -> childText t i = Ok (Some (text c)).
Proof.
  unfold child, childText; destruct (children t) as [| x xs].
  - destruct i; discriminate.
  - intros ->; reflexivity.
Qed.

Lemma child_before (t : ParseTree) (i j : nat) (c : ParseTree) :
  child t j = Some c -> i <= j -> exists d, child t i = Some d.
Proof.
  unfold child; intros Hj Hij.
  destruct (nth_error (children t) i) as [d |] eqn:Hi; [eauto |].
  apply nth_error_None in Hi.
  assert (nth_error (children t) j <> None) as Hj' by (rewrite Hj; discriminate).
  apply nth_error_Some in Hj'; lia.
Qed.

(** C3.  In a binary comparison whose operand slots are both filled, each
    operand independently follows the three-way rule, with the type the
    comparator decides: a numeric text is carried through as a literal, a
    text not starting with a double quote becomes a Variable named by that
    text (pascal with its first character upper-cased), a quoted text
    becomes the anonymous Variable of the term index and position. *)
Theorem C3_operand_classification (term : ParseTree) (index : nat)
        (value1 value2 : ParseTree) :
  child term 2 = Some value1 ->
  child term 4 = Some value2 ->
  exists comparator l r,
    option_map text (child term 3) = Some comparator
    /\ parseMessageContent term index = Ok [l; JsString comparator; r]
    /\ OperandRule (comparatorType comparator) index "1" (text value1) l
    /\ OperandRule (comparatorType comparator) index "2" (text value2) r.
Proof.
  intros H1 H2.
  assert (childCount term <> 4) as Hn.
  { unfold childCount; unfold child in H2.
    assert (nth_error (children term) 4 <> None) as H by (rewrite H2; discriminate).
    apply nth_error_Some in H; lia. }
  destruct (child_before term 3 4 value2 H2) as (c & Hc); [lia |].
  exists (text c),
    (operand (Some value1) (comparatorType (text c)) index "1"),
    (operand (Some value2) (comparatorType (text c)) index "2").
  split; [rewrite Hc; reflexivity |].
  split; [| split; apply operand_rule].
  unfold parseMessageContent.
  apply Nat.eqb_neq in Hn; rewrite Hn.
  rewrite (childText_child term 3 c Hc), H1, H2; simpl.
  rewrite <- inferType_comparatorType; reflexivity.
Qed.

Lemma C3_operand_classification_witness :
  exists comparator l r,
    option_map text (child (Sample.comparisonNode "amount" ">" "100") 3)
    = Some comparator
    /\ parseMessageContent (Sample.comparisonNode "amount" ">" "100") 2
       = Ok [l; JsString comparator; r]
    /\ OperandRule (comparatorType comparator) 2 "1" "amount" l
    /\ OperandRule (comparatorType comparator) 2 "2" "100" r.
Proof.
  apply (C3_operand_classification
           (Sample.comparisonNode "amount" ">" "100") 2
           (Sample.tok "amount") (Sample.tok "100")).
  - reflexivity.
  - reflexivity.
Defined.

(** ** One message-content node *)

(** The two ways a message-content node leaves the locals. *)
Lemma messageContentStep_inv (cn : IdentifierName) (o : ParseTree)
      (s s' : ClauseLocals) :
  messageContentStep cn o s = Ok s' ->
  (childCount o = 4
   /\ s' = {| terms := terms s ++ [presenceTerm cn (termIndex s)];
              variables := merge (JsObject (presenceVariable (termIndex s)))
                                 (variables s);
              messages := messages s;
              termIndex := S (termIndex s) |})
  \/ (childCount o <> 4
      /\ exists c l r,
          childText o 3 = Ok c
          /\ l = operand (child o 2) (inferType (comparatorValue c)) (termIndex s) "1"
          /\ r = operand (child o 4) (inferType (comparatorValue c)) (termIndex s) "2"
          /\ s' = {| terms := terms s
                              ++ [comparisonTerm cn (termIndex s) l (comparatorValue c) r];
                     variables := merge r (merge l (variables s));
                     messages := messages s;
                     termIndex := S (termIndex s) |}).
Proof.
  unfold messageContentStep; intros H.
  apply bind_Ok in H as (ps & Hps & H).
  destruct (Nat.eq_dec (childCount o) 4) as [H4 | H4].
  - left; split; [exact H4 |].
    rewrite (parseMessageContent_presence o _ H4) in Hps; injection Hps as <-.
    simpl in H; injection H as <-; reflexivity.
  - right; split; [exact H4 |].
    destruct (parseMessageContent_comparison o _ ps H4 Hps) as (c & Hc & ->).
    simpl in H; injection H as <-.
    exists c; do 2 eexists; repeat split; exact Hc.
Qed.

(** ** A property of every term of every returned clause *)

Section TermInvariant.
Variable T : Term -> Prop.
Hypothesis T_timeout : forall name value, T (Timeout name value).
Hypothesis T_presence : forall cn i, T (presenceTerm cn i).
Hypothesis T_comparison :
  forall cn i o c,
    childCount o <> 4 ->
    childText o 3 = Ok c ->
    T (comparisonTerm cn i
         (operand (child o 2) (inferType (comparatorValue c)) i "1")
         (comparatorValue c)
         (operand (child o 4) (inferType (comparatorValue c)) i "2")).

Lemma lowerTerms_terms (cn : IdentifierName) (n : ParseTree) (s : ClauseLocals) :
  lowerTerms cn n = Ok s -> Forall T (terms s).
Proof.
  apply lowerTerms_invariant with (P := fun s => Forall T (terms s)).
  - intros c s0 H0; simpl; apply Forall_app; split; [exact H0 |].
    constructor; [apply T_timeout | constructor].
  - intros o s0 s1 H0 H.
    apply messageContentStep_inv in H
      as [(_ & ->) | (H4 & c & l & r & Hc & -> & -> & ->)];
      simpl; apply Forall_app; (split; [exact H0 |]);
      (constructor; [| constructor]).
    + apply T_presence.
    + apply T_comparison; assumption.
  - intros e s0 H0; exact H0.
  - constructor.
Qed.

Lemma parse_terms (tree : ParseTree) (contract : Contract) (cl : Clause)
      (t : Term) :
  parse tree = Ok contract ->
  In cl (clauses contract) -> In t (clause_terms cl) -> T t.
Proof.
  intros Hp Hcl Ht.
  assert (Forall (fun c => Forall T (clause_terms c)) (clauses contract)) as HF.
  { revert Hp; apply parse_clauses.
    intros n c Hc; apply lowerClause_inv in Hc as (ct & idn & rp & s & _ & _ & Hs & ->).
    simpl; eapply lowerTerms_terms; exact Hs. }
  rewrite Forall_forall in HF; specialize (HF cl Hcl).
  rewrite Forall_forall in HF; exact (HF t Ht).
Qed.
End TermInvariant.

Lemma inferType_rule (c : JsValue) :
  (c = JsString "==" \/ c = JsString "!=" -> inferType c = "TEXT")
  /\ (c <> JsString "==" -> c <> JsString "!=" -> inferType c = "NUMBER").
Proof.
  split.
  - intros [-> | ->]; reflexivity.
  - intros H1 H2; destruct c as [| s |]; simpl; try reflexivity.
    destruct (String.eqb_spec s "==") as [-> | _]; [congruence |].
    destruct (String.eqb_spec s "!=") as [-> | _]; [congruence |].
    reflexivity.
Qed.

(** C1.  In every message-content term of every returned clause, a
    Variable of a term whose comparator is [==] or [!=] has type [TEXT], a
    Variable of a term with any other comparator has type [NUMBER], and a
    term without comparator holds exactly one Variable, of type [boolean];
    the analyzer returns that presence-check shape exactly for a node with
    four children. *)
Theorem C1_variable_types :
  (forall tree contract cl name comparator vars,
      parse tree = Ok contract ->
      In cl (clauses contract) ->
      In (MessageContent name comparator vars) (clause_terms cl) ->
      VariableTypeRule comparator vars)
  /\ (forall term index,
         childCount term = 4 ->
         exists v, parseMessageContent term index = Ok [JsObject v]
                   /\ var_type v = "boolean").
Proof.
  split.
  - intros tree contract cl name comparator vars Hp Hcl Ht.
    refine (parse_terms
              (fun t => match t with
                        | Timeout _ _ => True
                        | MessageContent _ c vs => VariableTypeRule c vs
                        end) _ _ _ tree contract cl
              (MessageContent name comparator vars) Hp Hcl Ht).
    + intros; exact I.
    + intros cn i; simpl; eexists; split; reflexivity.
    + intros cn i o c _ _ v Hv; simpl in Hv.
      assert (var_type v = inferType (comparatorValue c)) as ->.
      { destruct Hv as [Hv | [Hv | []]];
          match type of Hv with
          | operand ?a ?b ?c ?d = _ =>
              destruct (operand_cases a b c d) as [(x & _ & _ & Hx) | (x & Hx & Hty)]
          end; rewrite Hx in Hv; try discriminate;
          injection Hv as <-; exact Hty. }
      apply inferType_rule.
  - intros term index H; eexists; split.
    + apply parseMessageContent_presence; exact H.
    + reflexivity.
Qed.

Lemma C1_variable_types_witness :
  VariableTypeRule (Some (JsString ">"))
                   [JsObject (referenceVariable "NUMBER" "amount"); JsString "100"]
  /\ exists v, parseMessageContent (Sample.presenceNode "$.order") 1
               = Ok [JsObject v]
               /\ var_type v = "boolean".
Proof.
  split.
  - destruct (parse Sample.mixedContract) as [contract |] eqn:Hp;
      [| vm_compute in Hp; discriminate].
    pose proof (proj1 C1_variable_types Sample.mixedContract contract) as H.
    vm_compute in Hp; injection Hp as <-.
    eapply H; [reflexivity | left; reflexivity |].
    simpl; do 2 right; left; reflexivity.
  - apply (proj2 C1_variable_types); reflexivity.
Defined.

Lemma operand_entry (value : option ParseTree) (type : string) (index : nat)
      (pos : string) :
  OperandEntry (operand value type index pos).
Proof.
  destruct (operand_cases value type index pos)
    as [(v & _ & Hnum & ->) | (x & -> & _)]; [right | left]; eauto.
Qed.

(** C4 as stated fails: the term lowered from [MessageContent(amount > 100)]
    has a comparator and holds one Variable, not two. *)
Lemma C4_two_variables_counterexample :
  ~ (forall tree contract cl name comparator vars,
        parse tree = Ok contract ->
        In cl (clauses contract) ->
        In (MessageContent name comparator vars) (clause_terms cl) ->
        length (variablesIn vars) = requiredVariables comparator).
Proof.
  intros H.
  assert (length (variablesIn [JsObject (referenceVariable "NUMBER" "amount");
                               JsString "100"])
          = requiredVariables (Some (JsString ">"))) as E; [| discriminate E].
  eapply (H Sample.mixedContract)
    with (name := termName (mkClauseName "right" "requestDelivery")
                           "messageContent" 2).
  - vm_compute; reflexivity.
  - left; reflexivity.
  - simpl; do 2 right; left; reflexivity.
Qed.

(** C7.  In every returned clause [operation] equals [rolePlayer]. *)
Theorem C7_operation_is_rolePlayer (tree : ParseTree) (contract : Contract) :
  parse tree = Ok contract ->
  Forall (fun cl => operation cl = rolePlayer cl) (clauses contract).
Proof.
  apply parse_clauses.
  intros n c Hc; apply lowerClause_inv in Hc as (ct & idn & rp & s & _ & _ & _ & ->).
  reflexivity.
Qed.

Lemma C7_operation_is_rolePlayer_witness :
  exists contract,
    parse Sample.mixedContract = Ok contract
    /\ length (clauses contract) = 2
    /\ Forall (fun cl => operation cl = rolePlayer cl) (clauses contract).
Proof.
  destruct (parse Sample.mixedContract) as [contract |] eqn:Hp;
    [| vm_compute in Hp; discriminate].
  exists contract; split; [reflexivity |]; split.
  - vm_compute in Hp; injection Hp as <-; reflexivity.
  - apply (C7_operation_is_rolePlayer Sample.mixedContract); exact Hp.
Defined.

(** ** The timeout branch *)

Lemma instanceOf_exclusive (k k' : RuleKind) (t : ParseTree) :
  instanceOf k t = true -> k <> k' -> instanceOf k' t = false.
Proof.
  destruct t as [ty s | kind cs]; simpl; [discriminate |].
  destruct (RuleKind_eq_dec kind k) as [-> |]; [| discriminate].
  intros _ Hne; destruct (RuleKind_eq_dec k k'); [contradiction | reflexivity].
Qed.

Lemma forEach_timeoutStep (cn : IdentifierName) (cs : list ParseTree)
      (s : ClauseLocals) :
  forEach (timeoutStep cn) cs s
  = Ok {| terms := terms s
                   ++ timeoutTermsFrom cn (termIndex s)
                        (filter (fun c => isNumericString (text c)) cs);
          variables := variables s;
          messages := messages s;
          termIndex := termIndex s
                       + length (filter (fun c => isNumericString (text c)) cs) |}.
Proof.
  revert s; induction cs as [| c cs IH]; intros s; simpl.
  - rewrite app_nil_r, Nat.add_0_r; destruct s; reflexivity.
  - rewrite timeoutStep_cases; simpl.
    destruct (isNumericString (text c)); rewrite IH; simpl; [| reflexivity].
    rewrite <- app_assoc, Nat.add_succ_r; reflexivity.
Qed.

(** ** One operation node *)

Lemma operationStep_timeout (cn : IdentifierName) (o : ParseTree)
      (s : ClauseLocals) :
  instanceOf TimeoutContext o = true ->
  operationStep cn o s
  = Ok {| terms := terms s
                   ++ timeoutTermsFrom cn (termIndex s) (numericChildren o);
          variables := variables s;
          messages := messages s;
          termIndex := termIndex s + length (numericChildren o) |}.
Proof.
  intros Ho; unfold operationStep; rewrite Ho, forEach_timeoutStep; simpl.
  rewrite (instanceOf_exclusive _ MessageContentContext o Ho); [reflexivity |].
  discriminate.
Qed.

Lemma operationStep_message (cn : IdentifierName) (o : ParseTree)
      (s : ClauseLocals) :
  instanceOf MessageContentContext o = true ->
  operationStep cn o s = messageContentStep cn o s.
Proof.
  intros Ho; unfold operationStep.
  rewrite (instanceOf_exclusive _ TimeoutContext o Ho) by discriminate.
  simpl; rewrite Ho; reflexivity.
Qed.

Lemma operationStep_other (cn : IdentifierName) (o : ParseTree)
      (s : ClauseLocals) :
  instanceOf TimeoutContext o = false ->
  instanceOf MessageContentContext o = false ->
  operationStep cn o s = Ok s.
Proof.
  intros H1 H2; unfold operationStep; rewrite H1; simpl; rewrite H2; reflexivity.
Qed.

(** C10.  A timeout node emits one Timeout term for each child whose text
    coerces to a number, in order and with consecutive indices, and
    nothing else changes; a child with empty text passes the guard and is
    emitted with the empty value. *)
Theorem C10_timeout_guard :
  (forall cn o s,
      instanceOf TimeoutContext o = true ->
      operationStep cn o s
      = Ok {| terms := terms s
                       ++ timeoutTermsFrom cn (termIndex s) (numericChildren o);
              variables := variables s;
              messages := messages s;
              termIndex := termIndex s + length (numericChildren o) |})
  /\ (forall cn c s,
         text c = "" ->
         timeoutStep cn c s
         = Ok {| terms := terms s
                          ++ [Timeout (termName cn "timeout" (termIndex s)) ""];
                 variables := variables s;
                 messages := messages s;
                 termIndex := S (termIndex s) |}).
Proof.
  split.
  - exact operationStep_timeout.
  - intros cn c s Hc; rewrite timeoutStep_cases; unfold pushTimeout.
    rewrite Hc; reflexivity.
Qed.

Lemma C10_timeout_guard_witness :
  operationStep (mkClauseName "right" "deliver")
                (RuleNode TimeoutContext
                          [Sample.tok "Timeout"; Sample.tok "("; Sample.tok "10";
                           RuleNode OtherContext []; Sample.tok "2e3";
                           Sample.tok ")"])
                initClauseLocals
  = Ok {| terms :=
            [Timeout (termName (mkClauseName "right" "deliver") "timeout" 0) "10";
             Timeout (termName (mkClauseName "right" "deliver") "timeout" 1) "";
             Timeout (termName (mkClauseName "right" "deliver") "timeout" 2) "2e3"];
          variables := [];
          messages := {| error := ""; success := "" |};
          termIndex := 3 |}
  /\ timeoutStep (mkClauseName "right" "deliver") (Sample.tok "") initClauseLocals
     = Ok {| terms :=
               [Timeout (termName (mkClauseName "right" "deliver") "timeout" 0) ""];
             variables := [];
             messages := {| error := ""; success := "" |};
             termIndex := 1 |}.
Proof.
  split.
  - apply (proj1 C10_timeout_guard); reflexivity.
  - apply (proj2 C10_timeout_guard); reflexivity.
Defined.

(** ** The contract-level variables block *)

Lemma find_ID_skips_rule (before after : list ParseTree) (k : RuleKind)
      (body : list ParseTree) :
  find isIDToken (before ++ RuleNode k body :: after)
  = find isIDToken (before ++ after).
Proof.
  induction before as [| b before IH]; simpl; [reflexivity |].
  destruct (isIDToken b); [reflexivity | exact IH].
Qed.

Lemma itemStep_variables (item : ParseTree) (l : Locals) :
  instanceOf VariablesContext item = true -> itemStep item l = Ok l.
Proof.
  intros H; unfold itemStep; rewrite H, variables_block_id; simpl.
  rewrite !(instanceOf_exclusive VariablesContext _ item H) by discriminate.
  reflexivity.
Qed.

(** C9.  A variables block at contract level never throws and leaves every
    local of the walk as it was; the [variables] of a returned contract is
    empty; and the outcome of [parse] does not depend on what the block
    contains. *)
Theorem C9_variables_block_inert :
  (forall item l, instanceOf VariablesContext item = true -> itemStep item l = Ok l)
  /\ (forall tree contract,
         parse tree = Ok contract -> contract_variables contract = [])
  /\ (forall kind before body body' after,
         parse (RuleNode kind (before ++ RuleNode VariablesContext body :: after))
         = parse (RuleNode kind (before ++ RuleNode VariablesContext body' :: after))).
Proof.
  split; [exact itemStep_variables |]; split.
  - intros tree contract H; unfold parse in H.
    apply bind_Ok in H as (l & _ & H); injection H as <-; reflexivity.
  - intros kind before body body' after; unfold parse, ID; cbn [children].
    rewrite !find_ID_skips_rule, !forEach_app.
    destruct (forEach itemStep before initLocals) as [l | e];
      cbn [bind forEach]; [| reflexivity].
    rewrite !itemStep_variables by reflexivity; reflexivity.
Qed.

Lemma C9_variables_block_inert_witness :
  itemStep (Sample.variablesNode
              [RuleNode VariableStatementContext
                        [Sample.ident "x"; Sample.tok "=";
                         RuleNode TermContext [Sample.presenceNode "$.x"]]])
           initLocals
  = Ok initLocals
  /\ exists contract,
      parse Sample.mixedContract = Ok contract
      /\ contract_variables contract = [].
Proof.
  split.
  - apply (proj1 C9_variables_block_inert); reflexivity.
  - destruct (parse Sample.mixedContract) as [contract |] eqn:Hp;
      [| vm_compute in Hp; discriminate].
    exists contract; split; [reflexivity |].
    apply (proj1 (proj2 C9_variables_block_inert) Sample.mixedContract); exact Hp.
Defined.

(** ** The clause walk as one loop over the operation nodes *)

Lemma setMessages_same (s : ClauseLocals) : setMessages (messages s) s = s.
Proof. destruct s; reflexivity. Qed.

Section MessagesParametric.
Variable cn : IdentifierName.
Variable m : Messages.

Lemma forEach_setMessages {A : Type} (f : A -> ClauseLocals -> Result ClauseLocals) :
  (forall x s, f x (setMessages m s) = withMessages m (f x s)) ->
  forall xs s, forEach f xs (setMessages m s) = withMessages m (forEach f xs s).
Proof.
  intros Hf xs; induction xs as [| x xs IH]; intros s; simpl; [reflexivity |].
  rewrite Hf; unfold withMessages; destruct (f x s) as [s1 | e]; simpl; [apply IH | reflexivity].
Qed.

Lemma timeoutStep_setMessages c s :
  timeoutStep cn c (setMessages m s) = withMessages m (timeoutStep cn c s).
Proof.
  rewrite !timeoutStep_cases; unfold withMessages; simpl.
  destruct (isNumericString (text c)); reflexivity.
Qed.

Lemma messageContentStep_setMessages o s :
  messageContentStep cn o (setMessages m s) = withMessages m (messageContentStep cn o s).
Proof.
  unfold messageContentStep, withMessages; simpl.
  destruct (parseMessageContent o (termIndex s)) as [ps | e]; simpl; [| reflexivity].
  destruct (Nat.eqb (length ps) 1); destruct (Nat.eqb (length ps) 3); reflexivity.
Qed.

Lemma operationStep_setMessages o s :
  operationStep cn o (setMessages m s) = withMessages m (operationStep cn o s).
Proof.
  unfold operationStep.
  destruct (instanceOf TimeoutContext o).
  - rewrite (forEach_setMessages (timeoutStep cn) timeoutStep_setMessages).
    unfold withMessages; destruct (forEach (timeoutStep cn) (children o) s) as [s1 | e];
      simpl; [| reflexivity].
    destruct (instanceOf MessageContentContext o); [| reflexivity].
    apply messageContentStep_setMessages.
  - simpl; destruct (instanceOf MessageContentContext o); [| reflexivity].
    apply messageContentStep_setMessages.
Qed.

Lemma operations_setMessages ops s :
  forEach (operationStep cn) ops (setMessages m s)
  = withMessages m (forEach (operationStep cn) ops s).
Proof. apply forEach_setMessages; exact operationStep_setMessages. Qed.
End MessagesParametric.

Section Flattening.
Variable cn : IdentifierName.

Lemma Reaches_nil s : Reaches cn [] s s.
Proof. unfold Reaches; simpl; rewrite setMessages_same; reflexivity. Qed.

Lemma Reaches_app l1 l2 s1 s2 s3 :
  Reaches cn l1 s1 s2 -> Reaches cn l2 s2 s3 -> Reaches cn (l1 ++ l2) s1 s3.
Proof.
  unfold Reaches; intros H1 H2; rewrite forEach_app.
  replace (setMessages (messages s3) s1)
    with (setMessages (messages s3) (setMessages (messages s2) s1))
    by reflexivity.
  rewrite operations_setMessages, H1; simpl; exact H2.
Qed.

Lemma Reaches_loop ops s s' :
  forEach (operationStep cn) ops s = Ok s' -> Reaches cn ops s s'.
Proof.
  unfold Reaches; intros H.
  rewrite operations_setMessages, H; simpl; rewrite setMessages_same; reflexivity.
Qed.

Lemma termStep_Reaches t s s' :
  termStep cn t s = Ok s' -> Reaches cn (operationsOfTerm t) s s'.
Proof.
  unfold termStep, operationsOfTerm; destruct (instanceOf TermContext t); simpl.
  - apply Reaches_loop.
  - intros H; injection H as <-; apply Reaches_nil.
Qed.

Lemma termsStep_Reaches t s s' :
  termsStep cn t s = Ok s' -> Reaches cn (operationsOfTerms t) s s'.
Proof.
  unfold termsStep, operationsOfTerms;
    destruct (instanceOf TermOrWhenContext t); simpl.
  - exact (forEach_flat (termStep cn) operationsOfTerm (Reaches cn)
                        Reaches_nil Reaches_app termStep_Reaches _ s s').
  - intros H; injection H as <-; apply Reaches_nil.
Qed.

Lemma clauseChildStep_Reaches c s s' :
  clauseChildStep cn c s = Ok s' -> Reaches cn (operationsOfChild c) s s'.
Proof.
  unfold clauseChildStep, operationsOfChild.
  destruct (instanceOf OnBreachContext c).
  - intros H; apply bind_Ok in H as (e & _ & H); injection H as <-.
    reflexivity.
  - destruct (instanceOf TermsContext c); simpl.
    + exact (forEach_flat (termsStep cn) operationsOfTerms (Reaches cn)
                          Reaches_nil Reaches_app termsStep_Reaches _ s s').
    + intros H; injection H as <-; apply Reaches_nil.
Qed.

(** The walk of a clause node is the operation loop over its operation
    nodes, started from fresh locals that already carry the final
    [messages]. *)
Lemma lowerTerms_flat n s :
  lowerTerms cn n = Ok s ->
  forEach (operationStep cn) (operationNodes n)
          (setMessages (messages s) initClauseLocals) = Ok s.
Proof.
  unfold lowerTerms, operationNodes.
  exact (forEach_flat (clauseChildStep cn) operationsOfChild (Reaches cn)
                      Reaches_nil Reaches_app clauseChildStep_Reaches
                      _ initClauseLocals s).
Qed.
End Flattening.

Lemma timeoutTerms_app (a b : list Term) :
  timeoutTerms (a ++ b) = timeoutTerms a ++ timeoutTerms b.
Proof. apply filter_app. Qed.

Lemma timeoutTerms_from (cn : IdentifierName) (i : nat) (cs : list ParseTree) :
  timeoutTerms (timeoutTermsFrom cn i cs) = timeoutTermsFrom cn i cs
  /\ length (timeoutTermsFrom cn i cs) = length cs.
Proof.
  revert i; induction cs as [| c cs IH]; intros i; simpl; [auto |].
  destruct (IH (S i)) as (IH1 & IH2).
  unfold timeoutTerms in *; simpl; rewrite IH1, IH2; auto.
Qed.

(** The index and the Timeout terms after the loop over [ops]. *)
Lemma operations_count (cn : IdentifierName) (ops : list ParseTree)
      (s s' : ClauseLocals) :
  forEach (operationStep cn) ops s = Ok s' ->
  termIndex s'
  = termIndex s + length (numericTimeoutChildren ops)
    + length (messageContentNodes ops)
  /\ length (timeoutTerms (terms s'))
     = length (timeoutTerms (terms s)) + length (numericTimeoutChildren ops).
Proof.
  revert s; induction ops as [| o ops IH]; intros s H; simpl in *.
  - injection H as <-; lia.
  - apply bind_Ok in H as (s1 & H1 & H2).
    apply IH in H2 as (IHi & IHt); rewrite IHi, IHt; clear IH IHi IHt.
    unfold numericTimeoutChildren, messageContentNodes; simpl.
    destruct (instanceOf TimeoutContext o) eqn:Ht.
    + rewrite operationStep_timeout in H1 by exact Ht; injection H1 as <-.
      rewrite (instanceOf_exclusive _ MessageContentContext o Ht) by discriminate.
      simpl; rewrite timeoutTerms_app, !length_app.
      destruct (timeoutTerms_from cn (termIndex s) (numericChildren o)) as (-> & ->).
      lia.
    + destruct (instanceOf MessageContentContext o) eqn:Hm.
      * rewrite operationStep_message in H1 by exact Hm.
        apply messageContentStep_inv in H1
          as [(_ & ->) | (_ & c & l & r & _ & _ & _ & ->)];
          simpl; rewrite timeoutTerms_app; simpl; rewrite length_app; simpl; lia.
      * rewrite operationStep_other in H1 by assumption; injection H1 as <-.
        simpl; lia.
Qed.

(** C2.  After a clause is lowered the term index is the number of Timeout
    terms emitted plus the number of message-content nodes visited, and
    the Timeout terms emitted are as many as the timeout children with
    numeric text; a timeout child with non-numeric text leaves the locals
    untouched, and a message-content node always advances the index by
    one. *)
Theorem C2_term_index :
  (forall cn n s,
      lowerTerms cn n = Ok s ->
      termIndex s
      = length (timeoutTerms (terms s))
        + length (messageContentNodes (operationNodes n))
      /\ length (timeoutTerms (terms s))
         = length (numericTimeoutChildren (operationNodes n)))
  /\ (forall cn c s, isNumericString (text c) = false -> timeoutStep cn c s = Ok s)
  /\ (forall cn o s s',
         messageContentStep cn o s = Ok s' -> termIndex s' = S (termIndex s)).
Proof.
  split; [| split].
  - intros cn n s H.
    apply lowerTerms_flat, operations_count in H as (Hi & Ht); simpl in Hi, Ht.
    rewrite Hi, Ht; auto.
  - intros cn c s H; rewrite timeoutStep_cases, H; reflexivity.
  - intros cn o s s' H.
    apply messageContentStep_inv in H
      as [(_ & ->) | (_ & c & l & r & _ & _ & _ & ->)]; reflexivity.
Qed.

Lemma C2_term_index_witness :
  exists s,
    lowerTerms (mkClauseName "right" "requestDelivery") Sample.mixedClause = Ok s
    /\ termIndex s = 6
    /\ length (timeoutTerms (terms s)) = 1
    /\ length (messageContentNodes (operationNodes Sample.mixedClause)) = 5
    /\ timeoutStep (mkClauseName "right" "requestDelivery") (Sample.tok "soon") s
       = Ok s.
Proof.
  destruct (lowerTerms (mkClauseName "right" "requestDelivery") Sample.mixedClause)
    as [s |] eqn:Hs; [| vm_compute in Hs; discriminate].
  exists s; split; [reflexivity |].
  destruct (proj1 C2_term_index _ _ _ Hs) as (Hi & Ht).
  assert (length (messageContentNodes (operationNodes Sample.mixedClause)) = 5)
    as Hm by reflexivity.
  assert (length (numericTimeoutChildren (operationNodes Sample.mixedClause)) = 1)
    as Hn by reflexivity.
  rewrite Hm in Hi; rewrite Hn in Ht; rewrite Ht in Hi.
  split; [exact Hi |]; split; [exact Ht |]; split; [exact Hm |].
  apply (proj1 (proj2 C2_term_index)); reflexivity.
Defined.

(** ** Scenario A: [PENALTY lateDelivery { ... Timeout(86400) ... }] *)

(** Scenario A up to the helper.  A clause node whose kind token is
    [PENALTY], whose name is [lateDelivery] and whose only operation node
    is [Timeout(86400)] lowers to exactly one Timeout term, of value
    [86400], named as lines 134-138 compose the name of term 0 from the
    clause name of lines 96-100. *)
Lemma penalty_timeout_lowering (n o : ParseTree) (cl : Clause) :
  childText n 0 = Ok (Some "PENALTY") ->
  option_map text (ID n) = Some "lateDelivery" ->
  operationNodes n = [o] ->
  instanceOf TimeoutContext o = true ->
  map text (children o) = ["Timeout"; "("; "86400"; ")"] ->
  lowerClause n = Ok cl ->
  clause_terms cl
  = [Timeout (termName (mkClauseName "PENALTY" "lateDelivery") "timeout" 0)
             "86400"].
Proof.
  intros Hkind Hname Hops Ho Htexts Hcl.
  apply lowerClause_inv in Hcl as (ct & idn & rp & s & Hct & Hid & Hs & ->).
  rewrite Hkind in Hct; injection Hct as <-.
  unfold ID_required in Hid; destruct (ID n) as [i |]; [| discriminate].
  injection Hid as ->; injection Hname as Hname; rewrite Hname in Hs.
  apply lowerTerms_flat in Hs; rewrite Hops in Hs; simpl in Hs.
  rewrite operationStep_timeout in Hs by exact Ho; injection Hs as <-; simpl.
  unfold numericChildren.
  destruct (children o) as [| c1 [| c2 [| c3 [| c4 [| c5 rest]]]]];
    try discriminate Htexts.
  injection Htexts as H1 H2 H3 H4; simpl; rewrite H1, H2, H3, H4.
  assert (isNumericString "Timeout" = false) as -> by reflexivity.
  assert (isNumericString "(" = false) as -> by reflexivity.
  assert (isNumericString "86400" = true) as -> by reflexivity.
  assert (isNumericString ")" = false) as -> by reflexivity.
  simpl; rewrite H3; reflexivity.
Qed.

(** ** The per-clause variable map *)

Lemma mem_In (k : string) (ks : list string) : mem k ks = true <-> In k ks.
Proof.
  unfold mem; rewrite existsb_exists; split.
  - intros (x & Hx & He); apply String.eqb_eq in He; subst; exact Hx.
  - intros H; exists k; split; [exact H | apply String.eqb_refl].
Qed.

Lemma keys_upsert (k : string) (v : VariableT) (m : VarMap) :
  keys (upsert k v m) = if mem k (keys m) then keys m else keys m ++ [k].
Proof.
  unfold keys, mem; induction m as [| [k' v'] m IH]; simpl; [reflexivity |].
  rewrite (String.eqb_sym k k').
  destruct (String.eqb_spec k' k) as [-> | Hne]; simpl; [reflexivity |].
  rewrite IH; destruct (existsb (String.eqb k) (map fst m)); reflexivity.
Qed.

Lemma lookup_upsert (k k' : string) (v : VariableT) (m : VarMap) :
  lookup k' (upsert k v m) = if String.eqb k k' then Some v else lookup k' m.
Proof.
  induction m as [| [k0 v0] m IH]; simpl; [reflexivity |].
  destruct (String.eqb_spec k0 k) as [-> | Hne]; simpl;
    [destruct (String.eqb k k'); reflexivity |].
  rewrite IH.
  destruct (String.eqb_spec k0 k') as [-> | Hne'].
  - destruct (String.eqb_spec k k'); [congruence | reflexivity].
  - reflexivity.
Qed.

Lemma upsert_entries (k : string) (v : VariableT) (m : VarMap) :
  Forall (fun kv => fst kv = camelOf (snd kv)) m ->
  k = camelOf v ->
  Forall (fun kv => fst kv = camelOf (snd kv)) (upsert k v m).
Proof.
  intros Hm Hk; induction m as [| [k' v'] m IH]; simpl.
  - constructor; [exact Hk | constructor].
  - inversion Hm as [| x xs Hx Hxs]; subst.
    destruct (String.eqb k' (camelOf v)); constructor; auto.
Qed.

Lemma NoDup_snoc {A : Type} (l : list A) (a : A) :
  NoDup l -> ~ In a l -> NoDup (l ++ [a]).
Proof.
  intros Hl Ha; induction Hl as [| x l Hx Hl IH]; simpl.
  - constructor; [intros [] | constructor].
  - constructor.
    + rewrite in_app_iff; simpl; intros [H | [H | []]]; [auto |].
      subst; apply Ha; left; reflexivity.
    + apply IH; intros H; apply Ha; right; exact H.
Qed.

Lemma NoDup_keys_upsert (k : string) (v : VariableT) (m : VarMap) :
  NoDup (keys m) -> NoDup (keys (upsert k v m)).
Proof.
  intros H; rewrite keys_upsert.
  destruct (mem k (keys m)) eqn:Hk; [exact H |].
  apply NoDup_snoc; [exact H |].
  rewrite <- mem_In, Hk; discriminate.
Qed.

(** The map after replaying the merges, against the words of the
    specification. *)
Lemma mergeAll_spec (vs : list VariableT) (m : VarMap) :
  keys (mergeAll vs m)
  = fold_left (fun acc k => if mem k acc then acc else acc ++ [k])
              (map camelOf vs) (keys m)
  /\ (forall k,
         lookup k (mergeAll vs m)
         = fold_left (fun acc v => if String.eqb (camelOf v) k then Some v else acc)
                     vs (lookup k m))
  /\ (NoDup (keys m) -> NoDup (keys (mergeAll vs m)))
  /\ (Forall (fun kv => fst kv = camelOf (snd kv)) m ->
      Forall (fun kv => fst kv = camelOf (snd kv)) (mergeAll vs m)).
Proof.
  revert m; induction vs as [| v vs IH]; intros m; [simpl; auto |].
  change (mergeAll (v :: vs) m) with (mergeAll vs (upsert (camelOf v) v m)).
  destruct (IH (upsert (camelOf v) v m)) as (IHk & IHl & IHn & IHe).
  cbn [map fold_left].
  split; [| split; [| split]].
  - rewrite IHk, keys_upsert; reflexivity.
  - intros k; rewrite IHl, lookup_upsert; reflexivity.
  - intros H; apply IHn, NoDup_keys_upsert, H.
  - intros H; apply IHe, upsert_entries; [exact H | reflexivity].
Qed.

Lemma flat_map_agree {A B : Type} (f g : A -> list B) (l : list A) :
  (forall a, In a l -> f a = g a) -> flat_map f l = flat_map g l.
Proof.
  induction l as [| a l IH]; simpl; intros H; [reflexivity |].
  rewrite (H a (or_introl eq_refl)), IH; [reflexivity |].
  intros b Hb; apply H; right; exact Hb.
Qed.

Lemma values_by_keys (m : VarMap) :
  NoDup (keys m) ->
  values m
  = flat_map (fun k => match lookup k m with
                       | Some v => [v]
                       | None => []
                       end) (keys m).
Proof.
  unfold values, keys; induction m as [| [k v] m IH]; simpl; intros H;
    [reflexivity |].
  inversion H as [| x xs Hk Hm]; subst.
  rewrite String.eqb_refl; simpl; f_equal.
  rewrite (IH Hm).
  apply flat_map_agree; intros k' Hk'.
  destruct (String.eqb_spec k k') as [-> | _]; [contradiction | reflexivity].
Qed.

Lemma values_mergeAll (vs : list VariableT) :
  values (mergeAll vs []) = dedupLastWins vs
  /\ NoDup (map camelOf (values (mergeAll vs []))).
Proof.
  destruct (mergeAll_spec vs []) as (Hk & Hl & Hn & He).
  specialize (Hn (NoDup_nil _)); specialize (He (Forall_nil _)).
  assert (map camelOf (values (mergeAll vs [])) = keys (mergeAll vs [])) as Hc.
  { unfold values, keys; rewrite map_map; apply map_ext_in.
    intros kv Hkv; rewrite Forall_forall in He; symmetry; exact (He kv Hkv). }
  split; [| rewrite Hc; exact Hn].
  rewrite (values_by_keys _ Hn), Hk; unfold dedupLastWins, firstOccurrences, lastNamed.
  apply flat_map_ext; intros k; rewrite Hl; reflexivity.
Qed.

Lemma mergeAll_app (a b : list VariableT) (m : VarMap) :
  mergeAll (a ++ b) m = mergeAll b (mergeAll a m).
Proof. apply fold_left_app. Qed.

Lemma discovered_app (a b : list Term) :
  discovered (a ++ b) = discovered a ++ discovered b.
Proof. apply flat_map_app. Qed.

Lemma mergeAll_operands (l r : JsValue) (m : VarMap) :
  mergeAll (variablesIn [l; r]) m = merge r (merge l m).
Proof. destruct l, r; reflexivity. Qed.

(** The map held by the locals is the replay of the merges over the
    Variables of the terms pushed so far. *)
Lemma lowerTerms_variables (cn : IdentifierName) (n : ParseTree)
      (s : ClauseLocals) :
  lowerTerms cn n = Ok s -> variables s = mergeAll (discovered (terms s)) [].
Proof.
  apply lowerTerms_invariant
    with (P := fun s => variables s = mergeAll (discovered (terms s)) []).
  - intros c s0 H0; simpl.
    rewrite discovered_app; simpl; rewrite app_nil_r; exact H0.
  - intros o s0 s1 H0 H.
    apply messageContentStep_inv in H
      as [(_ & ->) | (_ & c & l & r & _ & _ & _ & ->)]; simpl;
      rewrite discovered_app, mergeAll_app, <- H0; simpl.
    + reflexivity.
    + rewrite app_nil_r; apply (eq_sym (mergeAll_operands l r (variables s0))).
  - intros e s0 H0; exact H0.
  - reflexivity.
Qed.

(** *** The keys of the map are enumerated in insertion order

    [Object.values] lists array-index keys first; no key of the map is one:
    a digits-only text coerces to a number and is kept as a literal, and
    the synthesized names start with a letter. *)

Ltac digit_tests a :=
  repeat match goal with
         | |- context [Nat.eqb a ?n] =>
             replace (Nat.eqb a n) with false
             by (symmetry; apply Nat.eqb_neq; lia)
         | |- context [Nat.leb a ?n] =>
             replace (Nat.leb a n) with false
             by (symmetry; apply Nat.leb_gt; lia)
         | |- context [Nat.leb ?n a] =>
             replace (Nat.leb n a) with false
             by (symmetry; apply Nat.leb_gt; lia)
         end;
  rewrite ?andb_false_r, ?andb_false_l, ?orb_false_r; try reflexivity.

Lemma isDigit_range (a : nat) : isDigit a = true -> 48 <= a <= 57.
Proof.
  unfold isDigit; intros H; apply andb_true_iff in H as (H1 & H2).
  apply Nat.leb_le in H1, H2; lia.
Qed.

Lemma digit_not_white (a : nat) :
  isDigit a = true ->
  isWS1 a = false
  /\ (forall b, isWS2 a b = false)
  /\ (forall b c, isWS3 a b c = false)
  /\ (forall b, isWS2 b a = false)
  /\ (forall b c, isWS3 b c a = false).
Proof.
  intros H; apply isDigit_range in H.
  unfold isWS1, isWS2, isWS3; repeat split; intros; digit_tests a.
Qed.

Lemma trimStart_digit (a : nat) (r : list nat) :
  isDigit a = true -> trimStart (a :: r) = a :: r.
Proof.
  intros H; destruct (digit_not_white a H) as (H1 & H2 & H3 & _ & _); simpl.
  rewrite H1; destruct r as [| b r]; [reflexivity |].
  rewrite H2; destruct r as [| c r]; [reflexivity |].
  rewrite H3; reflexivity.
Qed.

Lemma trimStartRev_digit (a : nat) (r : list nat) :
  isDigit a = true -> trimStartRev (a :: r) = a :: r.
Proof.
  intros H; destruct (digit_not_white a H) as (H1 & _ & _ & H4 & H5); simpl.
  rewrite H1; destruct r as [| b r]; [reflexivity |].
  rewrite H4; destruct r as [| c r]; [reflexivity |].
  rewrite H5; reflexivity.
Qed.

Lemma skipDigits_all (l : list nat) :
  forallb isDigit l = true -> skipDigits l = [].
Proof.
  induction l as [| a l IH]; simpl; [reflexivity |].
  intros H; apply andb_true_iff in H as (-> & H); auto.
Qed.

Lemma digits_numeric (l : list nat) :
  digits1 isDigit l = true -> trim l = l /\ strNumericLiteral l = true.
Proof.
  unfold digits1; intros H; apply andb_true_iff in H as (Hne & Hall).
  destruct l as [| a r]; [discriminate |]; clear Hne.
  assert (isDigit a = true) as Ha by (simpl in Hall; apply andb_true_iff in Hall; tauto).
  split.
  - unfold trim; rewrite (trimStart_digit a r Ha).
    assert (forallb isDigit (rev (a :: r)) = true) as Hrev.
    { rewrite forallb_forall in *; intros x Hx; apply Hall, in_rev, Hx. }
    destruct (rev (a :: r)) as [| z t] eqn:E.
    + apply (f_equal (@length nat)) in E; rewrite length_rev in E; discriminate.
    + rewrite trimStartRev_digit, <- E, rev_involutive; [reflexivity |].
      simpl in Hrev; apply andb_true_iff in Hrev; tauto.
  - unfold strNumericLiteral; apply orb_true_iff; right.
    pose proof (isDigit_range a Ha) as Hr.
    replace (Nat.eqb a 43) with false by (symmetry; apply Nat.eqb_neq; lia).
    replace (Nat.eqb a 45) with false by (symmetry; apply Nat.eqb_neq; lia).
    simpl orb; cbv iota; unfold strUnsignedDecimalLiteral.
    destruct (list_eq_dec Nat.eq_dec (a :: r) infinityCodes); [reflexivity |].
    replace (Nat.eqb a 46) with false by (symmetry; apply Nat.eqb_neq; lia).
    rewrite Ha, (skipDigits_all _ Hall); reflexivity.
Qed.

Lemma arrayIndexLike_numeric (k : string) :
  isArrayIndexLike k = true -> isNumericString k = true.
Proof.
  unfold isArrayIndexLike, isNumericString; intros H.
  destruct (digits_numeric _ H) as (-> & Hn).
  destruct (map code (list_ascii_of_string k)); [reflexivity | exact Hn].
Qed.

Lemma operand_key (value : option ParseTree) (type : string) (index : nat)
      (pos : string) (x : VariableT) :
  operand value type index pos = JsObject x ->
  isArrayIndexLike (camelOf x) = false.
Proof.
  unfold operand; destruct value as [v |]; simpl.
  - destruct (isNumericString (text v)) eqn:Hnum; simpl; [destruct v; discriminate |].
    destruct (startsWithQuote (text v)); simpl; intros H; injection H as <-.
    + reflexivity.
    + unfold camelOf; simpl.
      destruct (isArrayIndexLike (text v)) eqn:Hk; [| reflexivity].
      apply arrayIndexLike_numeric in Hk; congruence.
  - intros H; injection H as <-; reflexivity.
Qed.

Lemma upsert_Forall (Pk : string * VariableT -> Prop) (k : string)
      (v : VariableT) (m : VarMap) :
  Forall Pk m -> Pk (k, v) -> Forall Pk (upsert k v m).
Proof.
  intros Hm Hk; induction m as [| [k' v'] m IH]; simpl.
  - constructor; [exact Hk | constructor].
  - inversion Hm as [| x xs Hx Hxs]; subst.
    destruct (String.eqb k' k); constructor; auto.
Qed.

Lemma merge_keys (p : JsValue) (m : VarMap) :
  (forall x, p = JsObject x -> isArrayIndexLike (camelOf x) = false) ->
  Forall (fun kv => isArrayIndexLike (camelOf (snd kv)) = false) m ->
  Forall (fun kv => isArrayIndexLike (camelOf (snd kv)) = false) (merge p m).
Proof.
  intros Hp Hm; destruct p as [| s | x]; simpl; try exact Hm.
  apply upsert_Forall; [exact Hm | exact (Hp x eq_refl)].
Qed.

Lemma lowerTerms_keys (cn : IdentifierName) (n : ParseTree) (s : ClauseLocals) :
  lowerTerms cn n = Ok s ->
  Forall (fun v => isArrayIndexLike (camelOf v) = false) (values (variables s)).
Proof.
  intros H; unfold values; rewrite Forall_map; revert H.
  apply lowerTerms_invariant
    with (P := fun s => Forall (fun kv => isArrayIndexLike (camelOf (snd kv)) = false)
                               (variables s)).
  - intros c s0 H0; exact H0.
  - intros o s0 s1 H0 H.
    apply messageContentStep_inv in H
      as [(_ & ->) | (_ & c & l & r & _ & Hl & Hr & ->)]; simpl.
    + apply upsert_Forall; [exact H0 | reflexivity].
    + apply merge_keys; [subst r; intros x; apply operand_key |].
      apply merge_keys; [subst l; intros x; apply operand_key | exact H0].
  - intros e s0 H0; exact H0.
  - constructor.
Qed.

(** C5.  The [variables] of every returned clause has no two entries with
    the same camel name, and is the Variables discovered by the clause's
    terms, deduplicated by camel name with the later occurrence
    overwriting the earlier, in order of first discovery; no name is a
    digits-only key, so the object enumerates them in that order. *)
Theorem C5_clause_variables (tree : ParseTree) (contract : Contract) :
  parse tree = Ok contract ->
  Forall (fun cl =>
            NoDup (map camelOf (clause_variables cl))
            /\ clause_variables cl = dedupLastWins (discovered (clause_terms cl))
            /\ Forall (fun v => isArrayIndexLike (camelOf v) = false)
                      (clause_variables cl))
         (clauses contract).
Proof.
  apply parse_clauses.
  intros n c Hc.
  apply lowerClause_inv in Hc as (ct & idn & rp & s & _ & _ & Hs & ->); simpl.
  split; [| split; [| exact (lowerTerms_keys _ _ _ Hs)]];
    rewrite (lowerTerms_variables _ _ _ Hs);
    destruct (values_mergeAll (discovered (terms s))) as (Hv & Hn); auto.
Qed.

Lemma C5_clause_variables_witness :
  exists contract,
    parse Sample.mixedContract = Ok contract
    /\ map (fun cl => map camelOf (clause_variables cl)) (clauses contract)
       = [["messageContent1"; "amount"; "status"; "messageContent32"; "limit"]; []]
    /\ Forall (fun cl =>
                 NoDup (map camelOf (clause_variables cl))
                 /\ clause_variables cl
                    = dedupLastWins (discovered (clause_terms cl))
                 /\ Forall (fun v => isArrayIndexLike (camelOf v) = false)
                           (clause_variables cl))
              (clauses contract).
Proof.
  destruct (parse Sample.mixedContract) as [contract |] eqn:Hp;
    [| vm_compute in Hp; discriminate].
  exists contract; split; [reflexivity |]; split.
  - vm_compute in Hp; injection Hp as <-; reflexivity.
  - apply (C5_clause_variables Sample.mixedContract); exact Hp.
Defined.

(** ** Clauses are lowered independently of one another *)

Lemma Appends_nil (l l' : Locals) :
  cur_clauses l' = cur_clauses l -> Appends [] l l'.
Proof. intros H; exists []; split; [constructor | rewrite app_nil_r; exact H]. Qed.

Lemma Appends_app (n1 n2 : list ParseTree) (l1 l2 l3 : Locals) :
  Appends n1 l1 l2 -> Appends n2 l2 l3 -> Appends (n1 ++ n2) l1 l3.
Proof.
  intros (c1 & F1 & E1) (c2 & F2 & E2); exists (c1 ++ c2); split.
  - apply Forall2_app; assumption.
  - rewrite E2, E1, app_assoc; reflexivity.
Qed.

Lemma clauseStep_Appends (n : ParseTree) (l l' : Locals) :
  clauseStep n l = Ok l' ->
  Appends (if instanceOf ClauseContext n then [n] else []) l l'.
Proof.
  unfold clauseStep; destruct (instanceOf ClauseContext n).
  - intros H; apply bind_Ok in H as (c & Hc & H); injection H as <-.
    exists [c]; split; [constructor; [exact Hc | constructor] | reflexivity].
  - intros H; injection H as <-; apply Appends_nil; reflexivity.
Qed.

Lemma filter_as_flat_map {A : Type} (p : A -> bool) (l : list A) :
  flat_map (fun a => if p a then [a] else []) l = filter p l.
Proof.
  induction l as [| a l IH]; simpl; [reflexivity |].
  rewrite IH; destruct (p a); reflexivity.
Qed.

Lemma itemStep_Appends (item : ParseTree) (l l' : Locals) :
  itemStep item l = Ok l' ->
  Appends (if instanceOf ClausesContext item
           then filter (instanceOf ClauseContext) (children item) else [])
          l l'.
Proof.
  unfold itemStep; intros H.
  apply bind_Ok in H as (l1 & H1 & H).
  apply bind_Ok in H as (l2 & H2 & H).
  apply bind_Ok in H as (l3 & H3 & H).
  assert (cur_clauses l1 = cur_clauses l) as E1.
  { destruct (instanceOf VariablesContext item).
    - rewrite variables_block_id in H1; injection H1 as <-; reflexivity.
    - injection H1 as <-; reflexivity. }
  assert (cur_clauses l2 = cur_clauses l) as E2.
  { destruct (instanceOf DatesContext item).
    - exact (forEach_invariant
               dateStep (fun x => cur_clauses x = cur_clauses l)
               (dateStep_invariant (fun x => cur_clauses x = cur_clauses l)
                                   (fun _ _ E => E) (fun _ _ E => E))
               _ _ _ E1 H2).
    - injection H2 as <-; exact E1. }
  assert (cur_clauses l3 = cur_clauses l) as E3.
  { destruct (instanceOf PartiesContext item).
    - exact (forEach_invariant
               partyStep (fun x => cur_clauses x = cur_clauses l)
               (partyStep_invariant (fun x => cur_clauses x = cur_clauses l)
                                    (fun _ _ E => E) (fun _ _ E => E))
               _ _ _ E2 H3).
    - injection H3 as <-; exact E2. }
  destruct (instanceOf ClausesContext item).
  - rewrite <- filter_as_flat_map.
    apply (forEach_flat clauseStep
             (fun n => if instanceOf ClauseContext n then [n] else [])
             Appends) in H.
    + destruct H as (cls & F & E); exists cls; split; [exact F |].
      rewrite E, E3; reflexivity.
    + intros s; apply Appends_nil; reflexivity.
    + exact Appends_app.
    + exact clauseStep_Appends.
  - injection H as <-; apply Appends_nil; exact E3.
Qed.

Lemma parse_lowers_each_clause (tree : ParseTree) (contract : Contract) :
  parse tree = Ok contract ->
  Forall2 (fun n c => lowerClause n = Ok c) (clauseNodes tree) (clauses contract).
Proof.
  unfold parse; intros H.
  apply bind_Ok in H as (l & Hl & H); injection H as <-; simpl.
  apply (forEach_flat itemStep
           (fun item => if instanceOf ClausesContext item
                        then filter (instanceOf ClauseContext) (children item)
                        else [])
           Appends) in Hl.
  - destruct Hl as (cls & F & E); simpl in E; rewrite E; exact F.
  - intros s; apply Appends_nil; reflexivity.
  - exact Appends_app.
  - exact itemStep_Appends.
Qed.

(** * Further properties of the walk *)

(** ** When the walk throws *)

Lemma succeeds_Ok {A : Type} (r : Result A) :
  succeeds r = true <-> exists a, r = Ok a.
Proof.
  destruct r as [a | e]; simpl; split; intros H; eauto; try discriminate.
  destruct H as (a & H); discriminate.
Qed.

Lemma succeeds_bind {A B : Type} (m : Result A) (k : A -> Result B) (b : bool) :
  (forall a, succeeds (k a) = b) ->
  succeeds (bind m k) = succeeds m && b.
Proof.
  intros H; destruct m as [a | e]; simpl; [apply H | reflexivity].
Qed.

(** A loop whose iterations throw or not regardless of the locals
    succeeds exactly when every iteration does. *)
Lemma succeeds_forEach {A S : Type} (f : A -> S -> Result S) (ok : A -> bool) :
  (forall x s, succeeds (f x s) = ok x) ->
  forall xs s, succeeds (forEach f xs s) = forallb ok xs.
Proof.
  intros Hf xs; induction xs as [| x xs IH]; intros s; simpl; [reflexivity |].
  rewrite <- (Hf x s); destruct (f x s) as [s1 | e]; simpl; [apply IH | reflexivity].
Qed.

Lemma forallb_flat_map {A B : Type} (p : B -> bool) (g : A -> list B) (l : list A) :
  forallb p (flat_map g l) = forallb (fun a => forallb p (g a)) l.
Proof.
  induction l as [| a l IH]; simpl; [reflexivity |].
  rewrite forallb_app, IH; reflexivity.
Qed.

Lemma forallb_andb {A : Type} (p q : A -> bool) (l : list A) :
  forallb (fun a => p a && q a) l = forallb p l && forallb q l.
Proof.
  induction l as [| a l IH]; simpl; [reflexivity |].
  rewrite IH; destruct (p a), (q a), (forallb p l); reflexivity.
Qed.

Lemma succeeds_childText (t : ParseTree) (i : nat) :
  succeeds (childText t i) = indexable t i.
Proof.
  unfold childText, indexable; destruct (children t) as [| c cs]; [reflexivity |].
  destruct (nth_error (c :: cs) i) as [x |] eqn:E.
  - change (true = Nat.ltb i (length (c :: cs))); symmetry.
    apply Nat.ltb_lt, nth_error_Some; rewrite E; discriminate.
  - change (false = Nat.ltb i (length (c :: cs))); symmetry.
    apply Nat.ltb_ge, nth_error_None; exact E.
Qed.

Lemma succeeds_parseMessageContent (o : ParseTree) (index : nat) :
  succeeds (parseMessageContent o index) = messageContentOk o.
Proof.
  unfold parseMessageContent, messageContentOk.
  destruct (Nat.eqb (childCount o) 4); [reflexivity |]; simpl.
  rewrite <- succeeds_childText; destruct (childText o 3); reflexivity.
Qed.

(** X3.  The analyzer throws exactly on a message-content node with one,
    two or three children; on every other node it returns. *)
Theorem parseMessageContent_throws_iff (o : ParseTree) (index : nat) :
  parseMessageContent o index = Throw TypeError
  <-> 1 <= childCount o <= 3.
Proof.
  unfold parseMessageContent, childText, childCount.
  destruct (children o) as [| c1 [| c2 [| c3 [| c4 [| c5 rest]]]]]; simpl;
    split; intros H; try discriminate; try reflexivity; try lia.
Qed.

(** X4.  A message-content node without children is read as a comparison
    whose comparator is [undefined] and whose operands are the two
    anonymous Variables of the term index, typed [NUMBER]. *)
Theorem parseMessageContent_childless (o : ParseTree) (index : nat) :
  childCount o = 0 ->
  parseMessageContent o index
  = Ok [JsObject (anonymousVariable "NUMBER" index "1");
        JsUndefined;
        JsObject (anonymousVariable "NUMBER" index "2")].
Proof.
  unfold parseMessageContent, childText, child, childCount.
  destruct (children o) as [| c cs]; [reflexivity | discriminate].
Qed.

Lemma parseMessageContent_childless_witness :
  parseMessageContent (RuleNode MessageContentContext []) 7
  = Ok [JsObject (anonymousVariable "NUMBER" 7 "1");
        JsUndefined;
        JsObject (anonymousVariable "NUMBER" 7 "2")].
Proof. apply parseMessageContent_childless; reflexivity. Defined.

Lemma succeeds_messageContentStep (cn : IdentifierName) (o : ParseTree)
      (s : ClauseLocals) :
  succeeds (messageContentStep cn o s) = messageContentOk o.
Proof.
  unfold messageContentStep.
  rewrite <- (succeeds_parseMessageContent o (termIndex s)).
  destruct (parseMessageContent o (termIndex s)); reflexivity.
Qed.

Lemma succeeds_operationStep (cn : IdentifierName) (o : ParseTree)
      (s : ClauseLocals) :
  succeeds (operationStep cn o s) = operationOk o.
Proof.
  unfold operationStep, operationOk.
  destruct (instanceOf TimeoutContext o); [rewrite forEach_timeoutStep |]; simpl;
    (destruct (instanceOf MessageContentContext o);
     [apply succeeds_messageContentStep | reflexivity]).
Qed.

Lemma succeeds_termStep (cn : IdentifierName) (t : ParseTree) (s : ClauseLocals) :
  succeeds (termStep cn t s) = forallb operationOk (operationsOfTerm t).
Proof.
  unfold termStep, operationsOfTerm; destruct (instanceOf TermContext t); simpl;
    [| reflexivity].
  apply succeeds_forEach; intros; apply succeeds_operationStep.
Qed.

Lemma succeeds_termsStep (cn : IdentifierName) (t : ParseTree) (s : ClauseLocals) :
  succeeds (termsStep cn t s) = forallb operationOk (operationsOfTerms t).
Proof.
  unfold termsStep, operationsOfTerms;
    destruct (instanceOf TermOrWhenContext t); simpl; [| reflexivity].
  rewrite forallb_flat_map.
  apply succeeds_forEach; intros; apply succeeds_termStep.
Qed.

Lemma succeeds_clauseChildStep (cn : IdentifierName) (c : ParseTree)
      (s : ClauseLocals) :
  succeeds (clauseChildStep cn c s)
  = breachOk c && forallb operationOk (operationsOfChild c).
Proof.
  unfold clauseChildStep, breachOk, operationsOfChild.
  destruct (instanceOf OnBreachContext c).
  - rewrite <- succeeds_childText; destruct (childText c 4); reflexivity.
  - destruct (instanceOf TermsContext c); simpl; [| reflexivity].
    rewrite forallb_flat_map.
    apply succeeds_forEach; intros; apply succeeds_termsStep.
Qed.

Lemma succeeds_lowerTerms (cn : IdentifierName) (n : ParseTree) :
  succeeds (lowerTerms cn n)
  = forallb breachOk (children n) && forallb operationOk (operationNodes n).
Proof.
  unfold lowerTerms, operationNodes.
  rewrite forallb_flat_map, <- forallb_andb.
  apply succeeds_forEach; intros; apply succeeds_clauseChildStep.
Qed.

Lemma succeeds_rolePlayer (n : ParseTree) :
  succeeds (bind (rolePlayerNode n) (fun rp => childText rp 2)) = rolePlayerOk n.
Proof.
  unfold rolePlayerNode, rolePlayerOk.
  destruct (find (instanceOf RolePlayerContext) (children n)); simpl;
    [apply succeeds_childText | reflexivity].
Qed.

Lemma succeeds_lowerClause (n : ParseTree) :
  succeeds (lowerClause n) = clauseOk n.
Proof.
  unfold lowerClause, clauseOk, hasID, ID_required.
  assert (exists ct, childText n 0 = Ok ct) as (ct & ->).
  { apply succeeds_Ok; rewrite succeeds_childText; unfold indexable.
    destruct (children n); reflexivity. }
  simpl; destruct (ID n) as [idn |]; simpl; [| reflexivity].
  rewrite <- succeeds_rolePlayer.
  destruct (rolePlayerNode n) as [rp |]; simpl; [| reflexivity].
  destruct (childText rp 2) as [r |]; simpl; [| reflexivity].
  rewrite <- (succeeds_lowerTerms (mkClauseName (orEmpty ct) (text idn)) n).
  destruct (lowerTerms _ n); reflexivity.
Qed.

Lemma succeeds_clauseStep (n : ParseTree) (l : Locals) :
  succeeds (clauseStep n l)
  = if instanceOf ClauseContext n then clauseOk n else true.
Proof.
  unfold clauseStep; destruct (instanceOf ClauseContext n); [| reflexivity].
  rewrite <- succeeds_lowerClause; destruct (lowerClause n); reflexivity.
Qed.

Lemma succeeds_partyStep (p : ParseTree) (l : Locals) :
  succeeds (partyStep p l) = partyOk p.
Proof.
  unfold partyStep, partyOk.
  destruct (instanceOf ApplicationContext p); simpl.
  - rewrite <- succeeds_childText; destruct (childText p 2) as [a |]; simpl;
      [| reflexivity].
    destruct (instanceOf ProcessContext p); reflexivity.
  - destruct (instanceOf ProcessContext p); [| reflexivity].
    rewrite <- succeeds_childText; destruct (childText p 2); reflexivity.
Qed.

Lemma succeeds_dateStep (d : ParseTree) (l : Locals) :
  succeeds (dateStep d l) = true.
Proof.
  unfold dateStep.
  assert (forall (k : string -> Locals -> Locals) cs l0,
             exists l1,
               forEach (fun x l => if instanceOf DatetimeContext x
                                   then Ok (k (text x) l) else Ok l) cs l0
               = Ok l1) as Hloop.
  { intros k cs l0; apply forEach_total; intros x s.
    destruct (instanceOf DatetimeContext x); eauto. }
  destruct (instanceOf BeginDateContext d).
  - destruct (Hloop setBeginDate (children d) l) as (l1 & ->); simpl.
    destruct (instanceOf DueDateContext d); [| reflexivity].
    destruct (Hloop setDueDate (children d) l1) as (l2 & ->); reflexivity.
  - simpl; destruct (instanceOf DueDateContext d); [| reflexivity].
    destruct (Hloop setDueDate (children d) l) as (l2 & ->); reflexivity.
Qed.

Lemma succeeds_itemStep (item : ParseTree) (l : Locals) :
  succeeds (itemStep item l) = itemOk item.
Proof.
  unfold itemStep, itemOk.
  assert (exists l1, (if instanceOf VariablesContext item
                      then forEach variableStep (children item) l else Ok l)
                     = Ok l1) as (l1 & ->).
  { destruct (instanceOf VariablesContext item);
      [rewrite variables_block_id |]; eauto. }
  simpl.
  assert (exists l2, (if instanceOf DatesContext item
                      then forEach dateStep (children item) l1 else Ok l1)
                     = Ok l2) as (l2 & ->).
  { destruct (instanceOf DatesContext item); [| eauto].
    apply succeeds_Ok.
    rewrite (succeeds_forEach dateStep (fun _ => true) succeeds_dateStep).
    induction (children item); simpl; auto. }
  simpl.
  destruct (instanceOf PartiesContext item).
  - rewrite <- (succeeds_forEach partyStep partyOk succeeds_partyStep
                                 (children item) l2).
    destruct (forEach partyStep (children item) l2) as [l3 |]; simpl;
      [| reflexivity].
    destruct (instanceOf ClausesContext item); [| reflexivity].
    apply succeeds_forEach; intros; apply succeeds_clauseStep.
  - simpl; destruct (instanceOf ClausesContext item); [| reflexivity].
    apply succeeds_forEach; intros; apply succeeds_clauseStep.
Qed.

(** X5.  The walk of lines 43-213 over the children of the contract node
    runs to its end exactly on the trees of the right shape: every
    application and process node has no children or at least three; every
    clause node has an [ID] token and a role-player node with no children
    or at least three; every on-breach child of a clause has no children
    or at least five; and no message-content node reached has one, two or
    three children.  On every other tree the walk throws. *)
Theorem walk_succeeds_iff (tree : ParseTree) :
  (exists l, forEach itemStep (children tree) initLocals = Ok l)
  <-> wellShaped tree = true.
Proof.
  rewrite <- succeeds_Ok; unfold wellShaped.
  rewrite <- (succeeds_forEach itemStep itemOk succeeds_itemStep
                               (children tree) initLocals).
  tauto.
Qed.

(** ** Term names *)

Lemma NamedByPosition_snoc (cn : IdentifierName) (ts : list Term) (t : Term) :
  NamedByPosition cn ts ->
  termNameOf t = termName cn (termTypeOf t) (length ts) ->
  NamedByPosition cn (ts ++ [t]).
Proof.
  intros H Ht k x Hk.
  destruct (Nat.lt_ge_cases k (length ts)) as [Hlt | Hge].
  - rewrite nth_error_app1 in Hk by exact Hlt; auto.
  - rewrite nth_error_app2 in Hk by exact Hge.
    destruct (k - length ts) as [| d] eqn:E; simpl in Hk.
    + injection Hk as <-; replace k with (length ts) by lia; exact Ht.
    + destruct d; discriminate.
Qed.

Lemma lowerTerms_positions (cn : IdentifierName) (n : ParseTree)
      (s : ClauseLocals) :
  lowerTerms cn n = Ok s ->
  termIndex s = length (terms s) /\ NamedByPosition cn (terms s).
Proof.
  apply lowerTerms_invariant
    with (P := fun s => termIndex s = length (terms s)
                        /\ NamedByPosition cn (terms s)).
  - intros c s0 (Hi & Hn); simpl; split.
    + rewrite length_app, Hi; simpl; lia.
    + apply NamedByPosition_snoc; [exact Hn | rewrite Hi; reflexivity].
  - intros o s0 s1 (Hi & Hn) H.
    apply messageContentStep_inv in H
      as [(_ & ->) | (_ & c & l & r & _ & _ & _ & ->)]; simpl; split;
      try (rewrite length_app, Hi; simpl; lia);
      (apply NamedByPosition_snoc; [exact Hn | rewrite Hi; reflexivity]).
  - intros e s0 H; exact H.
  - split; [reflexivity |]; intros k t Hk; destruct k; discriminate.
Qed.

(** X1.  In every returned clause the term at position [k] of [terms] is
    named from the clause name, its own type and the index [k]. *)
Theorem terms_named_by_position (tree : ParseTree) (contract : Contract) :
  parse tree = Ok contract ->
  Forall (fun cl =>
            forall k t, nth_error (clause_terms cl) k = Some t ->
                        termNameOf t
                        = termName (clause_name cl) (termTypeOf t) k)
         (clauses contract).
Proof.
  apply parse_clauses.
  intros n c Hc.
  apply lowerClause_inv in Hc as (ct & idn & rp & s & _ & _ & Hs & ->); simpl.
  exact (proj2 (lowerTerms_positions _ _ _ Hs)).
Qed.

Lemma terms_named_by_position_witness :
  exists contract,
    parse Sample.mixedContract = Ok contract
    /\ Forall (fun cl =>
                 forall k t, nth_error (clause_terms cl) k = Some t ->
                             termNameOf t
                             = termName (clause_name cl) (termTypeOf t) k)
              (clauses contract).
Proof.
  destruct (parse Sample.mixedContract) as [contract |] eqn:Hp;
    [| vm_compute in Hp; discriminate].
  exists contract; split; [reflexivity |].
  apply (terms_named_by_position Sample.mixedContract); exact Hp.
Defined.

Lemma append_cancel_l (p a b : string) : p ^^ a = p ^^ b -> a = b.
Proof.
  induction p as [| c p IH]; simpl; intros H; [exact H |].
  injection H as H; auto.
Qed.

Lemma showNat_inj (i j : nat) : showNat i = showNat j -> i = j.
Proof.
  unfold showNat; intros H.
  apply DecimalNat.Unsigned.to_uint_inj.
  pose proof (f_equal NilEmpty.uint_of_string H) as E.
  rewrite !NilEmpty.usu in E; injection E as E; exact E.
Qed.

Lemma termName_inj (cn : IdentifierName) (t1 t2 : Term) (i j : nat) :
  pascal (termName cn (termTypeOf t1) i) = pascal (termName cn (termTypeOf t2) j)
  \/ camel (termName cn (termTypeOf t1) i) = camel (termName cn (termTypeOf t2) j)
  \/ snake (termName cn (termTypeOf t1) i) = snake (termName cn (termTypeOf t2) j) ->
  i = j.
Proof.
  destruct t1, t2; simpl; intros [H | [H | H]];
    apply append_cancel_l in H; simpl in H;
    try discriminate; apply showNat_inj;
    repeat match type of H with
           | String _ _ = String _ _ => injection H as H
           end; exact H.
Qed.

Lemma NoDup_by_position {A B : Type} (f : A -> B) (l : list A) :
  (forall i j a b, nth_error l i = Some a -> nth_error l j = Some b ->
                   f a = f b -> i = j) ->
  NoDup (map f l).
Proof.
  intros H; apply NoDup_nth_error; intros i j Hi E.
  rewrite length_map in Hi; rewrite !nth_error_map in E.
  destruct (nth_error l i) as [a |] eqn:Ea;
    [| apply nth_error_None in Ea; lia].
  destruct (nth_error l j) as [b |] eqn:Eb; [| discriminate].
  injection E as E; eauto.
Qed.

(** X2.  Within every returned clause no two terms share a name: the
    pascal names are pairwise distinct, and so are the camel names and the
    snake names. *)
Theorem term_names_unique (tree : ParseTree) (contract : Contract) :
  parse tree = Ok contract ->
  Forall (fun cl =>
            NoDup (map (fun t => pascal (termNameOf t)) (clause_terms cl))
            /\ NoDup (map (fun t => camel (termNameOf t)) (clause_terms cl))
            /\ NoDup (map (fun t => snake (termNameOf t)) (clause_terms cl)))
         (clauses contract).
Proof.
  apply parse_clauses.
  intros n c Hc.
  apply lowerClause_inv in Hc as (ct & idn & rp & s & _ & _ & Hs & ->); simpl.
  destruct (lowerTerms_positions _ _ _ Hs) as (_ & Hn).
  repeat split; apply NoDup_by_position; intros i j a b Ha Hb E;
    rewrite (Hn i a Ha), (Hn j b Hb) in E;
    eapply termName_inj; eauto.
Qed.

Lemma term_names_unique_witness :
  exists contract,
    parse Sample.mixedContract = Ok contract
    /\ Forall (fun cl =>
                 NoDup (map (fun t => pascal (termNameOf t)) (clause_terms cl))
                 /\ NoDup (map (fun t => camel (termNameOf t)) (clause_terms cl))
                 /\ NoDup (map (fun t => snake (termNameOf t)) (clause_terms cl)))
              (clauses contract).
Proof.
  destruct (parse Sample.mixedContract) as [contract |] eqn:Hp;
    [| vm_compute in Hp; discriminate].
  exists contract; split; [reflexivity |].
  apply (term_names_unique Sample.mixedContract); exact Hp.
Defined.

(** ** Dates and parties: the last assignment wins *)

Lemma last_app_default {A : Type} (a b : list A) (d : A) :
  last (a ++ b) d = last b (last a d).
Proof.
  revert a; induction b as [| x b IH] using rev_ind; intros a.
  - rewrite app_nil_r; reflexivity.
  - rewrite app_assoc, !last_last; reflexivity.
Qed.

Lemma assigned_app (f : Field) (a b : list (Field * string)) :
  assigned f (a ++ b) = assigned f a ++ assigned f b.
Proof. unfold assigned; rewrite filter_app, map_app; reflexivity. Qed.

Lemma Assigns_nil (l : Locals) : Assigns [] l l.
Proof. split; reflexivity. Qed.

Lemma Assigns_app (a b : list (Field * string)) (l1 l2 l3 : Locals) :
  Assigns a l1 l2 -> Assigns b l2 l3 -> Assigns (a ++ b) l1 l3.
Proof.
  intros (Ha & Ca) (Hb & Cb); split; [| congruence].
  intros f; rewrite assigned_app, last_app_default, Hb, Ha; reflexivity.
Qed.

(** One assignment. *)
Lemma Assigns_one (f : Field) (v : string) (l l' : Locals) :
  (forall g, getField g l' = if Field_eqb g f then v else getField g l) ->
  cur_clauses l' = cur_clauses l ->
  Assigns [(f, v)] l l'.
Proof.
  intros H C; split; [| exact C].
  intros g; rewrite H; unfold assigned; simpl.
  destruct f, g; reflexivity.
Qed.

Lemma datetime_loop (f : Field) (set : string -> Locals -> Locals)
      (d : ParseTree) :
  (forall v l, Assigns [(f, v)] l (set v l)) ->
  forall l l',
    forEach (fun x l => if instanceOf DatetimeContext x
                        then Ok (set (text x) l) else Ok l)
            (children d) l = Ok l' ->
    Assigns (datetimeTexts f d) l l'.
Proof.
  intros Hset; unfold datetimeTexts.
  induction (children d) as [| x xs IH]; simpl; intros l l' H.
  - injection H as <-; apply Assigns_nil.
  - destruct (instanceOf DatetimeContext x); simpl in *.
    + apply (Assigns_app [(f, text x)] _ l (set (text x) l) l'); auto.
    + auto.
Qed.

Lemma setBeginDate_Assigns (v : string) (l : Locals) :
  Assigns [(FBeginDate, v)] l (setBeginDate v l).
Proof. apply Assigns_one; [intros []; reflexivity | reflexivity]. Qed.

Lemma setDueDate_Assigns (v : string) (l : Locals) :
  Assigns [(FDueDate, v)] l (setDueDate v l).
Proof. apply Assigns_one; [intros []; reflexivity | reflexivity]. Qed.

Lemma setApplication_Assigns (v : string) (l : Locals) :
  Assigns [(FApplication, v)] l (setApplication v l).
Proof. apply Assigns_one; [intros []; reflexivity | reflexivity]. Qed.

Lemma setProcess_Assigns (v : string) (l : Locals) :
  Assigns [(FProcess, v)] l (setProcess v l).
Proof. apply Assigns_one; [intros []; reflexivity | reflexivity]. Qed.

Lemma dateStep_Assigns (d : ParseTree) (l l' : Locals) :
  dateStep d l = Ok l' -> Assigns (assignmentsOfDate d) l l'.
Proof.
  unfold dateStep, assignmentsOfDate; intros H.
  apply bind_Ok in H as (l1 & H1 & H2).
  apply (Assigns_app _ _ l l1 l').
  - destruct (instanceOf BeginDateContext d).
    + exact (datetime_loop FBeginDate setBeginDate d setBeginDate_Assigns _ _ H1).
    + injection H1 as <-; apply Assigns_nil.
  - destruct (instanceOf DueDateContext d).
    + exact (datetime_loop FDueDate setDueDate d setDueDate_Assigns _ _ H2).
    + injection H2 as <-; apply Assigns_nil.
Qed.

Lemma childText_orEmpty (t : ParseTree) (i : nat) (r : option string) :
  childText t i = Ok r -> orEmpty r = childTextOrEmpty t i.
Proof.
  unfold childText, childTextOrEmpty; destruct (children t) as [| c cs].
  - intros H; injection H as <-; destruct i; reflexivity.
  - destruct (nth_error (c :: cs) i); [| discriminate].
    intros H; injection H as <-; reflexivity.
Qed.

Lemma partyStep_Assigns (p : ParseTree) (l l' : Locals) :
  partyStep p l = Ok l' -> Assigns (assignmentsOfParty p) l l'.
Proof.
  unfold partyStep, assignmentsOfParty; intros H.
  apply bind_Ok in H as (l1 & H1 & H2).
  apply (Assigns_app _ _ l l1 l').
  - destruct (instanceOf ApplicationContext p).
    + apply bind_Ok in H1 as (a & Ha & H1); injection H1 as <-.
      rewrite (childText_orEmpty _ _ _ Ha); apply setApplication_Assigns.
    + injection H1 as <-; apply Assigns_nil.
  - destruct (instanceOf ProcessContext p).
    + apply bind_Ok in H2 as (a & Ha & H2); injection H2 as <-.
      rewrite (childText_orEmpty _ _ _ Ha); apply setProcess_Assigns.
    + injection H2 as <-; apply Assigns_nil.
Qed.

Lemma itemStep_Assigns (item : ParseTree) (l l' : Locals) :
  itemStep item l = Ok l' ->
  (forall f, getField f l' = last (assigned f (assignmentsOfItem item))
                                  (getField f l)).
Proof.
  unfold itemStep, assignmentsOfItem; intros H.
  apply bind_Ok in H as (l1 & H1 & H).
  apply bind_Ok in H as (l2 & H2 & H).
  apply bind_Ok in H as (l3 & H3 & H).
  assert (l1 = l) as ->.
  { destruct (instanceOf VariablesContext item).
    - rewrite variables_block_id in H1; injection H1 as <-; reflexivity.
    - injection H1 as <-; reflexivity. }
  assert (Assigns (if instanceOf DatesContext item
                   then flat_map assignmentsOfDate (children item) else [])
                  l l2) as A2.
  { destruct (instanceOf DatesContext item).
    - exact (forEach_flat dateStep assignmentsOfDate Assigns
                          Assigns_nil Assigns_app dateStep_Assigns _ _ _ H2).
    - injection H2 as <-; apply Assigns_nil. }
  assert (Assigns (if instanceOf PartiesContext item
                   then flat_map assignmentsOfParty (children item) else [])
                  l2 l3) as A3.
  { destruct (instanceOf PartiesContext item).
    - exact (forEach_flat partyStep assignmentsOfParty Assigns
                          Assigns_nil Assigns_app partyStep_Assigns _ _ _ H3).
    - injection H3 as <-; apply Assigns_nil. }
  destruct (Assigns_app _ _ _ _ _ A2 A3) as (A & _).
  intros f; rewrite <- A; clear A A2 A3 H1 H2 H3.
  destruct (instanceOf ClausesContext item); [| injection H as <-; reflexivity].
  refine (forEach_invariant clauseStep (fun x => getField f x = getField f l3)
                            _ _ _ _ eq_refl H).
  intros n s s' Hs Hn; unfold clauseStep in Hn.
  destruct (instanceOf ClauseContext n).
  - apply bind_Ok in Hn as (c & _ & Hn); injection Hn as <-.
    rewrite <- Hs; destruct f; reflexivity.
  - injection Hn as <-; exact Hs.
Qed.

Lemma walk_Assigns (items : list ParseTree) (l l' : Locals) :
  forEach itemStep items l = Ok l' ->
  forall f, getField f l' = last (assigned f (flat_map assignmentsOfItem items))
                                 (getField f l).
Proof.
  revert l; induction items as [| item items IH]; simpl; intros l H f.
  - injection H as <-; reflexivity.
  - apply bind_Ok in H as (l1 & H1 & H2).
    rewrite assigned_app, last_app_default, (IH _ H2 f),
      (itemStep_Assigns _ _ _ H1 f); reflexivity.
Qed.

(** X6.  [beginDate] is the text of the datetime node visited last under
    the begin-date nodes of the dates blocks, and [dueDate] likewise under
    the due-date nodes; each is empty when no such node is visited. *)
Theorem dates_last_wins (tree : ParseTree) (contract : Contract) :
  parse tree = Ok contract ->
  beginDate contract = last (assigned FBeginDate (assignments tree)) ""
  /\ dueDate contract = last (assigned FDueDate (assignments tree)) "".
Proof.
  unfold parse; intros H.
  apply bind_Ok in H as (l & Hl & H); injection H as <-; simpl.
  split.
  - exact (walk_Assigns _ _ _ Hl FBeginDate).
  - exact (walk_Assigns _ _ _ Hl FDueDate).
Qed.

(** X7.  [application] is the text of the third child of the application
    node visited last in the parties blocks, and [process] likewise for
    the process nodes; a node without children assigns the empty text, and
    each field is empty when no such node is visited. *)
Theorem parties_last_wins (tree : ParseTree) (contract : Contract) :
  parse tree = Ok contract ->
  application contract = last (assigned FApplication (assignments tree)) ""
  /\ process contract = last (assigned FProcess (assignments tree)) "".
Proof.
  unfold parse; intros H.
  apply bind_Ok in H as (l & Hl & H); injection H as <-; simpl.
  split.
  - exact (walk_Assigns _ _ _ Hl FApplication).
  - exact (walk_Assigns _ _ _ Hl FProcess).
Qed.

Lemma dates_last_wins_witness :
  exists contract,
    parse SampleFull.contract = Ok contract
    /\ beginDate contract = "2024-01-01T00:00"
    /\ dueDate contract = "2024-12-31".
Proof.
  destruct (parse SampleFull.contract) as [contract |] eqn:Hp;
    [| vm_compute in Hp; discriminate].
  exists contract; split; [reflexivity |].
  exact (dates_last_wins SampleFull.contract contract Hp).
Defined.

Lemma parties_last_wins_witness :
  exists contract,
    parse SampleFull.contract = Ok contract
    /\ application contract = "shop"
    /\ process contract = "".
Proof.
  destruct (parse SampleFull.contract) as [contract |] eqn:Hp;
    [| vm_compute in Hp; discriminate].
  exists contract; split; [reflexivity |].
  exact (parties_last_wins SampleFull.contract contract Hp).
Defined.

Lemma walk_succeeds_iff_witness :
  (exists l, forEach itemStep (children SampleFull.contract) initLocals = Ok l)
  /\ ~ (exists l,
           forEach itemStep
                   (children (RuleNode ContractContext
                                       [RuleNode PartiesContext
                                                 [RuleNode ApplicationContext
                                                           [Sample.tok "application"]]]))
                   initLocals
           = Ok l).
Proof.
  split.
  - apply (proj2 (walk_succeeds_iff SampleFull.contract)); reflexivity.
  - intros H; apply (proj1 (walk_succeeds_iff _)) in H; discriminate H.
Defined.

Lemma parseMessageContent_throws_iff_witness :
  parseMessageContent (RuleNode MessageContentContext
                                [Sample.tok "MessageContent"; Sample.tok "(";
                                 Sample.tok ")"]) 0
  = Throw TypeError.
Proof.
  apply (proj2 (parseMessageContent_throws_iff _ 0)); unfold childCount; simpl; lia.
Defined.

(** ** Breach messages *)

Lemma map_filter_flat_map {A B : Type} (f : A -> B) (p : A -> bool) (l : list A) :
  map f (filter p l) = flat_map (fun a => if p a then [f a] else []) l.
Proof.
  induction l as [| a l IH]; simpl; [reflexivity |].
  destruct (p a); simpl; rewrite IH; reflexivity.
Qed.

Lemma lowerTerms_messages (cn : IdentifierName) (n : ParseTree)
      (s : ClauseLocals) :
  lowerTerms cn n = Ok s ->
  messages s = {| error := last (breachTexts n) ""; success := "" |}.
Proof.
  unfold lowerTerms, breachTexts; intros H.
  rewrite map_filter_flat_map.
  refine (forEach_flat
            (clauseChildStep cn)
            (fun c => if instanceOf OnBreachContext c
                      then [childTextOrEmpty c 4] else [])
            (fun texts s s' =>
               messages s' = {| error := last texts (error (messages s));
                                success := success (messages s) |})
            _ _ _ _ _ _ H).
  - intros s0; destruct s0 as [t v [e su] i]; reflexivity.
  - intros l1 l2 s1 s2 s3 H1 H2.
    rewrite H2, H1, last_app_default; reflexivity.
  - intros c s0 s1 Hc; unfold clauseChildStep in Hc.
    destruct (instanceOf OnBreachContext c); simpl.
    + apply bind_Ok in Hc as (e & He & Hc); injection Hc as <-; simpl.
      rewrite (childText_orEmpty _ _ _ He); reflexivity.
    + assert (messages s1 = messages s0) as ->;
        [| destruct s0 as [t v [e su] i]; reflexivity].
      destruct (negb (instanceOf TermsContext c));
        [injection Hc as <-; reflexivity |].
      refine (forEach_invariant
                (termsStep cn) (fun x => messages x = messages s0)
                (termsStep_invariant cn _ _ _) _ _ _ eq_refl Hc).
      * intros x s2 Hs2; exact Hs2.
      * intros o s2 s3 Hs2 Ho.
        apply messageContentStep_inv in Ho
          as [(_ & ->) | (_ & c0 & l & r & _ & _ & _ & ->)]; exact Hs2.
Qed.

(** X8.  The [error] message of every returned clause is the text of the
    fifth child of the on-breach child visited last in its clause node
    (empty when that child has no children, or when the clause has no
    on-breach child), and its [success] message is always empty. *)
Theorem breach_message_last_wins (tree : ParseTree) (contract : Contract) :
  parse tree = Ok contract ->
  Forall2 (fun n cl =>
             clause_messages cl
             = {| error := last (breachTexts n) ""; success := "" |})
          (clauseNodes tree) (clauses contract).
Proof.
  intros H; apply parse_lowers_each_clause in H.
  induction H as [| n cl ns cls Hn _ IH]; constructor; [| exact IH].
  apply lowerClause_inv in Hn as (ct & idn & rp & s & _ & _ & Hs & ->); simpl.
  exact (lowerTerms_messages _ _ _ Hs).
Qed.

Lemma breach_message_last_wins_witness :
  exists contract,
    parse SampleFull.contract = Ok contract
    /\ Forall2 (fun n cl =>
                  clause_messages cl
                  = {| error := last (breachTexts n) ""; success := "" |})
               [SampleFull.clause] (clauses contract)
    /\ breachTexts SampleFull.clause = ["first"; "second"].
Proof.
  destruct (parse SampleFull.contract) as [contract |] eqn:Hp;
    [| vm_compute in Hp; discriminate].
  exists contract; split; [reflexivity |]; split; [| reflexivity].
  exact (breach_message_last_wins SampleFull.contract contract Hp).
Defined.

(** ** Nodes the walk does not recognise *)

Lemma itemStep_skips (item : ParseTree) (l : Locals) :
  instanceOf DatesContext item = false ->
  instanceOf PartiesContext item = false ->
  instanceOf ClausesContext item = false ->
  itemStep item l = Ok l.
Proof.
  intros H1 H2 H3; unfold itemStep; rewrite H1, H2, H3.
  destruct (instanceOf VariablesContext item);
    [rewrite variables_block_id |]; reflexivity.
Qed.

(** X9.  A child of the contract node that is neither a dates, a parties
    nor a clauses block -- a token, a rule node of any other kind -- is
    skipped by the walk of lines 43-213: its step returns the locals it
    was given, so the walk over the children around it ends as it does
    without that child, in the same locals or the same exception,
    whatever the locals it starts from. *)
Theorem unrecognised_item_skipped
        (before after : list ParseTree) (item : ParseTree) (l : Locals) :
  instanceOf DatesContext item = false ->
  instanceOf PartiesContext item = false ->
  instanceOf ClausesContext item = false ->
  itemStep item l = Ok l
  /\ forEach itemStep (before ++ item :: after) l
     = forEach itemStep (before ++ after) l.
Proof.
  intros H1 H2 H3; split; [exact (itemStep_skips item l H1 H2 H3) |].
  rewrite !forEach_app.
  destruct (forEach itemStep before l) as [l1 | e];
    cbn [bind forEach]; [| reflexivity].
  rewrite (itemStep_skips item l1 H1 H2 H3); reflexivity.
Qed.

Lemma unrecognised_item_skipped_witness :
  itemStep (RuleNode OtherContext [Sample.tok "note"]) initLocals
  = Ok initLocals
  /\ forEach itemStep
             ([Sample.tok "contract"; Sample.ident "payment"]
                ++ RuleNode OtherContext [Sample.tok "note"]
                :: [SampleFull.datesNode]) initLocals
     = forEach itemStep
               ([Sample.tok "contract"; Sample.ident "payment"]
                  ++ [SampleFull.datesNode]) initLocals.
Proof.
  apply unrecognised_item_skipped; reflexivity.
Defined.

(** ** Terms in source order *)

Lemma timeoutValues_app (a b : list Term) :
  timeoutValues (a ++ b) = timeoutValues a ++ timeoutValues b.
Proof. apply flat_map_app. Qed.

Lemma comparators_app (a b : list Term) :
  comparators (a ++ b) = comparators a ++ comparators b.
Proof. apply flat_map_app. Qed.

Lemma timeoutTermsFrom_values (cn : IdentifierName) (i : nat)
      (cs : list ParseTree) :
  timeoutValues (timeoutTermsFrom cn i cs) = map text cs
  /\ comparators (timeoutTermsFrom cn i cs) = [].
Proof.
  revert i; induction cs as [| c cs IH]; intros i; simpl; [auto |].
  destruct (IH (S i)) as (-> & ->); auto.
Qed.

Lemma childText_comparator (o : ParseTree) (c : option string) :
  childText o 3 = Ok c -> c = option_map text (child o 3).
Proof.
  unfold childText, child; destruct (children o) as [| x xs].
  - intros H; injection H as <-; reflexivity.
  - destruct (nth_error (x :: xs) 3); [| discriminate].
    intros H; injection H as <-; reflexivity.
Qed.

(** The values and comparators pushed by the loop over [ops]. *)
Lemma operations_order (cn : IdentifierName) (ops : list ParseTree)
      (s s' : ClauseLocals) :
  forEach (operationStep cn) ops s = Ok s' ->
  timeoutValues (terms s')
  = timeoutValues (terms s) ++ map text (numericTimeoutChildren ops)
  /\ comparators (terms s')
     = comparators (terms s) ++ map nodeComparator (messageContentNodes ops).
Proof.
  revert s; induction ops as [| o ops IH]; intros s H; simpl in *.
  - injection H as <-; rewrite !app_nil_r; auto.
  - apply bind_Ok in H as (s1 & H1 & H2).
    apply IH in H2 as (IHv & IHc); rewrite IHv, IHc; clear IH IHv IHc.
    unfold numericTimeoutChildren, messageContentNodes; simpl.
    destruct (instanceOf TimeoutContext o) eqn:Ht.
    + rewrite operationStep_timeout in H1 by exact Ht; injection H1 as <-.
      rewrite (instanceOf_exclusive _ MessageContentContext o Ht) by discriminate.
      simpl; rewrite timeoutValues_app, comparators_app.
      destruct (timeoutTermsFrom_values cn (termIndex s) (numericChildren o))
        as (-> & ->).
      rewrite map_app, app_nil_r, <- app_assoc; auto.
    + destruct (instanceOf MessageContentContext o) eqn:Hm.
      * rewrite operationStep_message in H1 by exact Hm.
        apply messageContentStep_inv in H1
          as [(H4 & ->) | (H4 & c & l & r & Hc & _ & _ & ->)];
          simpl; rewrite timeoutValues_app, comparators_app; simpl;
          rewrite app_nil_r, <- app_assoc; simpl; unfold nodeComparator.
        -- rewrite H4; auto.
        -- apply Nat.eqb_neq in H4; rewrite H4.
           rewrite (childText_comparator _ _ Hc); auto.
      * rewrite operationStep_other in H1 by assumption; injection H1 as <-.
        auto.
Qed.

(** X10.  The values of the Timeout terms of a lowered clause, in order,
    are the texts of the timeout children that coerce to a number, in
    source order. *)
Theorem timeout_values_in_source_order (n : ParseTree) (cl : Clause) :
  lowerClause n = Ok cl ->
  timeoutValues (clause_terms cl)
  = map text (numericTimeoutChildren (operationNodes n)).
Proof.
  intros H.
  apply lowerClause_inv in H as (ct & idn & rp & s & _ & _ & Hs & ->); simpl.
  apply lowerTerms_flat, operations_order in Hs as (Hv & _); exact Hv.
Qed.

Lemma timeout_values_in_source_order_witness :
  exists cl,
    lowerClause SampleFull.clause = Ok cl
    /\ timeoutValues (clause_terms cl) = ["30"; "1e3"].
Proof.
  destruct (lowerClause SampleFull.clause) as [cl |] eqn:H;
    [| vm_compute in H; discriminate].
  exists cl; split; [reflexivity |].
  exact (timeout_values_in_source_order SampleFull.clause cl H).
Defined.

(** X11.  The message-content terms of a lowered clause follow the
    message-content nodes one to one and in source order; each carries no
    comparator when its node has four children, and otherwise the text of
    the node's fourth child ([undefined] for a node without children). *)
Theorem comparators_in_source_order (n : ParseTree) (cl : Clause) :
  lowerClause n = Ok cl ->
  comparators (clause_terms cl)
  = map nodeComparator (messageContentNodes (operationNodes n)).
Proof.
  intros H.
  apply lowerClause_inv in H as (ct & idn & rp & s & _ & _ & Hs & ->); simpl.
  apply lowerTerms_flat, operations_order in Hs as (_ & Hc); exact Hc.
Qed.

Lemma comparators_in_source_order_witness :
  exists cl,
    lowerClause SampleFull.clause = Ok cl
    /\ comparators (clause_terms cl) = [Some (JsString ">="); None].
Proof.
  destruct (lowerClause SampleFull.clause) as [cl |] eqn:H;
    [| vm_compute in H; discriminate].
  exists cl; split; [reflexivity |].
  exact (comparators_in_source_order SampleFull.clause cl H).
Defined.

(** ** The entries of a message-content term and the operands of its node *)

Lemma messageTerms_app (a b : list Term) :
  messageTerms (a ++ b) = messageTerms a ++ messageTerms b.
Proof. apply filter_app. Qed.

Lemma messageTerms_timeouts (cn : IdentifierName) (i : nat) (cs : list ParseTree) :
  messageTerms (timeoutTermsFrom cn i cs) = [].
Proof.
  revert i; induction cs as [| c cs IH]; intros i; simpl; [reflexivity |].
  apply IH.
Qed.

Lemma operand_EntryOf (value : option ParseTree) (type : string) (index : nat)
      (pos : string) :
  EntryOf value (operand value type index pos).
Proof.
  unfold operand, EntryOf; destruct value as [v |]; simpl; [| eauto].
  destruct (isNumericString (text v)); simpl; [reflexivity |].
  destruct (startsWithQuote (text v)); simpl; eauto.
Qed.

Lemma operand_counts (value : option ParseTree) (type : string) (index : nat)
      (pos : string) :
  length (variablesIn [operand value type index pos])
  = 1 - (if isNumericOperand value then 1 else 0).
Proof.
  unfold operand, isNumericOperand; destruct value as [v |]; simpl.
  - destruct (isNumericString (text v)); simpl; [reflexivity |].
    destruct (startsWithQuote (text v)); reflexivity.
  - reflexivity.
Qed.

Lemma variablesIn_pair (l r : JsValue) :
  length (variablesIn [l; r])
  = length (variablesIn [l]) + length (variablesIn [r]).
Proof.
  destruct l, r; reflexivity.
Qed.

(** The message-content terms pushed by the loop over [ops]. *)
Lemma operations_entries (cn : IdentifierName) (ops : list ParseTree)
      (s s' : ClauseLocals) :
  forEach (operationStep cn) ops s = Ok s' ->
  exists new,
    messageTerms (terms s') = messageTerms (terms s) ++ new
    /\ Forall2 TermOfNode (messageContentNodes ops) new.
Proof.
  revert s; induction ops as [| o ops IH]; intros s H; simpl in *.
  - injection H as <-; exists []; rewrite app_nil_r; split; constructor.
  - apply bind_Ok in H as (s1 & H1 & H2).
    apply IH in H2 as (new & E & F); clear IH.
    unfold messageContentNodes in *; simpl.
    destruct (instanceOf TimeoutContext o) eqn:Ht.
    + rewrite operationStep_timeout in H1 by exact Ht; injection H1 as <-.
      rewrite (instanceOf_exclusive _ MessageContentContext o Ht) by discriminate.
      simpl in E; rewrite messageTerms_app, messageTerms_timeouts, app_nil_r in E.
      exists new; split; assumption.
    + destruct (instanceOf MessageContentContext o) eqn:Hm.
      * rewrite operationStep_message in H1 by exact Hm.
        apply messageContentStep_inv in H1
          as [(H4 & ->) | (H4 & c & l & r & Hc & Hl & Hr & ->)];
          simpl in E; rewrite messageTerms_app in E; simpl in E;
          rewrite <- app_assoc in E; simpl in E.
        -- exists (presenceTerm cn (termIndex s) :: new); split; [exact E |].
           constructor; [| exact F].
           unfold TermOfNode, presenceTerm; rewrite H4; simpl; eauto.
        -- eexists; split; [exact E |].
           constructor; [| exact F].
           unfold TermOfNode, comparisonTerm.
           apply Nat.eqb_neq in H4; rewrite H4.
           rewrite (childText_comparator _ _ Hc) in *.
           split; [reflexivity |]; subst l r; split.
           ++ do 2 eexists; split; [reflexivity |]; split; apply operand_EntryOf.
           ++ rewrite variablesIn_pair, !operand_counts; unfold numericOperands.
              destruct (isNumericOperand (child o 2)), (isNumericOperand (child o 4));
                reflexivity.
      * rewrite operationStep_other in H1 by assumption; injection H1 as <-.
        exists new; split; assumption.
Qed.

Lemma lowerClause_entries (n : ParseTree) (cl : Clause) :
  lowerClause n = Ok cl ->
  Forall2 TermOfNode (messageContentNodes (operationNodes n))
          (messageTerms (clause_terms cl)).
Proof.
  intros H.
  apply lowerClause_inv in H as (ct & idn & rp & s & _ & _ & Hs & ->); simpl.
  apply lowerTerms_flat, operations_entries in Hs as (new & E & F).
  simpl in E; rewrite E; exact F.
Qed.

(** C4, as the code has it.  In every returned clause a message-content
    term without comparator holds exactly one Variable, and a term with a
    comparator holds exactly two operand entries, each a Variable or the
    raw text of a numeric operand.  Entry by entry: the message-content
    terms of a returned clause follow the message-content nodes of its
    clause node one to one and in order; a node of four children gives a
    term without comparator and with one Variable; any other node gives a
    term with a comparator and two entries, the first standing for the
    node's left operand and the second for its right operand -- the raw
    text of the operand when it coerces to a number, a Variable when it
    does not -- so that the term holds two Variables less one for each
    numeric operand. *)
Theorem C4_term_shape (tree : ParseTree) (contract : Contract) :
  parse tree = Ok contract ->
  (forall cl name comparator vars,
      In cl (clauses contract) ->
      In (MessageContent name comparator vars) (clause_terms cl) ->
      TermShape comparator vars)
  /\ Forall2 (fun n cl =>
                Forall2 TermOfNode (messageContentNodes (operationNodes n))
                        (messageTerms (clause_terms cl)))
             (clauseNodes tree) (clauses contract).
Proof.
  intros Hp; split.
  - intros cl name comparator vars Hcl Ht.
    refine (parse_terms
              (fun t => match t with
                        | Timeout _ _ => True
                        | MessageContent _ c vs => TermShape c vs
                        end) _ _ _ tree contract cl
              (MessageContent name comparator vars) Hp Hcl Ht).
    + intros; exact I.
    + intros cn i; simpl; eauto.
    + intros cn i o c _ _; simpl.
      do 2 eexists; split; [reflexivity |]; split; apply operand_entry.
  - apply parse_lowers_each_clause in Hp.
    induction Hp as [| n cl ns cls Hn _ IH]; constructor; [| exact IH].
    exact (lowerClause_entries n cl Hn).
Qed.

Lemma C4_term_shape_witness :
  exists contract,
    parse Sample.mixedContract = Ok contract
    /\ TermShape (Some (JsString ">"))
                 [JsObject (referenceVariable "NUMBER" "amount"); JsString "100"]
    /\ Forall2 (fun n cl =>
                  Forall2 TermOfNode (messageContentNodes (operationNodes n))
                          (messageTerms (clause_terms cl)))
               (clauseNodes Sample.mixedContract) (clauses contract)
    /\ map numericOperands
           (messageContentNodes (operationNodes Sample.mixedClause))
       = [0; 1; 0; 2; 0].
Proof.
  destruct (parse Sample.mixedContract) as [contract |] eqn:Hp;
    [| vm_compute in Hp; discriminate].
  exists contract; split; [reflexivity |].
  destruct (C4_term_shape Sample.mixedContract contract Hp) as (H1 & H2).
  split; [| split; [exact H2 | reflexivity]].
  vm_compute in Hp; injection Hp as <-.
  eapply H1; [left; reflexivity |].
  simpl; do 2 right; left; reflexivity.
Defined.

(** ** Synthesized Variable names are not unique across terms *)

Lemma string_of_revapp (d e : Decimal.uint) :
  NilEmpty.string_of_uint (Decimal.revapp d e)
  = NilEmpty.string_of_uint (Decimal.revapp d Decimal.Nil)
    ^^ NilEmpty.string_of_uint e.
Proof.
  assert (forall a b c : string, (a ^^ b) ^^ c = a ^^ (b ^^ c)) as assoc.
  { intros a b c; induction a as [| x a IH]; simpl; [| rewrite IH]; reflexivity. }
  revert e; induction d as [| d IH | d IH | d IH | d IH | d IH | d IH | d IH
                            | d IH | d IH | d IH]; intros e; simpl;
    [reflexivity | ..];
    rewrite IH; symmetry; rewrite IH, assoc; reflexivity.
Qed.

Lemma showNat_tenfold (i : nat) :
  i <> 0 ->
  showNat (10 * i + 1) = showNat i ^^ "1"
  /\ showNat (10 * i + 2) = showNat i ^^ "2".
Proof.
  intros Hi; unfold showNat.
  rewrite !DecimalNat.Unsigned.to_uint_alt.
  replace (10 * i + 2) with (S (S (10 * i))) by lia.
  replace (10 * i + 1) with (S (10 * i)) by lia.
  rewrite !DecimalNat.Unsigned.to_lu_succ,
    (DecimalNat.Unsigned.to_lu_tenfold i Hi).
  unfold Decimal.rev; simpl.
  split; apply string_of_revapp.
Qed.

(** X13.  For every term index [i] other than zero, the anonymous
    Variable of term [i] at position 1 (or 2) has the camel and pascal
    names of the presence-check Variable of term [10 i + 1] (or
    [10 i + 2]), while their snake names differ; merged into the same map,
    the later of the two replaces the earlier. *)
Theorem synthesized_names_collide (type : string) (i : nat) (m : VarMap) :
  i <> 0 ->
  let a1 := anonymousVariable type i "1" in
  let a2 := anonymousVariable type i "2" in
  let p1 := presenceVariable (10 * i + 1) in
  let p2 := presenceVariable (10 * i + 2) in
  camel (var_name a1) = camel (var_name p1)
  /\ pascal (var_name a1) = pascal (var_name p1)
  /\ snake (var_name a1) <> snake (var_name p1)
  /\ camel (var_name a2) = camel (var_name p2)
  /\ pascal (var_name a2) = pascal (var_name p2)
  /\ snake (var_name a2) <> snake (var_name p2)
  /\ lookup (camel (var_name a1)) (merge (JsObject p1) (merge (JsObject a1) m))
     = Some p1
  /\ lookup (camel (var_name a2)) (merge (JsObject p2) (merge (JsObject a2) m))
     = Some p2.
Proof.
  intros Hi a1 a2 p1 p2; subst a1 a2 p1 p2.
  destruct (showNat_tenfold i Hi) as (E1 & E2).
  cbn [anonymousVariable presenceVariable var_name camel pascal snake merge].
  rewrite E1, E2, !lookup_upsert, !String.eqb_refl.
  repeat split; try reflexivity; intros H;
    apply (append_cancel_l "messageContent_") in H;
    apply append_cancel_l in H; discriminate H.
Qed.

Lemma synthesized_names_collide_witness :
  camel (var_name (anonymousVariable "TEXT" 1 "1")) = "messageContent11"
  /\ camel (var_name (presenceVariable 11)) = "messageContent11"
  /\ lookup "messageContent11"
            (merge (JsObject (presenceVariable 11))
                   (merge (JsObject (anonymousVariable "TEXT" 1 "1")) []))
     = Some (presenceVariable 11).
Proof.
  split; [reflexivity |]; split; [reflexivity |].
  assert (1 <> 0) as H by discriminate.
  exact (proj1 (proj2 (proj2 (proj2 (proj2 (proj2 (proj2
           (synthesized_names_collide "TEXT" 1 [] H)))))))).
Defined.

(** ** Quoted operands *)

Lemma trimStart_quote (r : list nat) : trimStart (34 :: r) = 34 :: r.
Proof.
  simpl; destruct r as [| b r]; [reflexivity |].
  destruct r as [| c r]; reflexivity.
Qed.

(** Trimming the reversed text never consumes the quote at its end. *)
Lemma trimStartRev_keeps_quote (n : nat) (l : list nat) :
  length l <= n -> exists m, trimStartRev (l ++ [34]) = m ++ [34].
Proof.
  revert l; induction n as [| n IH]; intros l Hl.
  - destruct l; [exists []; reflexivity | simpl in Hl; lia].
  - destruct l as [| c [| b l2]].
    + exists []; reflexivity.
    + simpl; destruct (isWS1 c); [exists []; reflexivity |].
      replace (isWS2 34 c) with false by reflexivity.
      exists [c]; reflexivity.
    + simpl in Hl.
      change (trimStartRev ((c :: b :: l2) ++ [34]))
        with (if isWS1 c then trimStartRev ((b :: l2) ++ [34])
              else if isWS2 b c then trimStartRev (l2 ++ [34])
                   else match l2 ++ [34] with
                        | [] => c :: b :: l2 ++ [34]
                        | a :: r3 => if isWS3 a b c then trimStartRev r3
                                     else c :: b :: l2 ++ [34]
                        end).
      destruct (isWS1 c); [apply IH; simpl; lia |].
      destruct (isWS2 b c); [apply IH; lia |].
      destruct l2 as [| a l3]; simpl.
      * replace (isWS3 34 b c) with false by reflexivity.
        exists [c; b]; reflexivity.
      * destruct (isWS3 a b c); [apply IH; simpl in Hl; lia |].
        exists (c :: b :: a :: l3); reflexivity.
Qed.

Lemma trim_quote (r : list nat) : exists t, trim (34 :: r) = 34 :: t.
Proof.
  unfold trim; rewrite trimStart_quote; simpl rev.
  destruct (trimStartRev_keeps_quote (length (rev r)) (rev r) (le_n _))
    as (m & ->).
  exists (rev m); rewrite rev_app_distr; reflexivity.
Qed.

Lemma strNumericLiteral_quote (t : list nat) : strNumericLiteral (34 :: t) = false.
Proof.
  unfold strNumericLiteral, nonDecimalIntegerLiteral, strUnsignedDecimalLiteral.
  destruct (list_eq_dec Nat.eq_dec (34 :: t) infinityCodes) as [E | _];
    [discriminate E |].
  destruct t; reflexivity.
Qed.

Lemma quoted_not_numeric (s : string) :
  startsWithQuote s = true -> isNumericString s = false.
Proof.
  destruct s as [| c s]; simpl; [discriminate |].
  intros H; apply Ascii.eqb_eq in H; subst c.
  unfold isNumericString; simpl map.
  change (code "034") with 34.
  destruct (trim_quote (map code (list_ascii_of_string s))) as (t & ->).
  apply strNumericLiteral_quote.
Qed.

(** X20.  A text that begins with a double quote never coerces to a
    number, so an operand that is a quoted literal always becomes the
    anonymous Variable of its term index and position, whatever the quotes
    contain: it is never carried through as a literal nor read as a
    variable reference. *)
Theorem quoted_operand_is_anonymous :
  (forall s, startsWithQuote s = true -> isNumericString s = false)
  /\ (forall v type index pos,
         startsWithQuote (text v) = true ->
         operand (Some v) type index pos
         = JsObject (anonymousVariable type index pos)).
Proof.
  split; [exact quoted_not_numeric |].
  intros v type index pos H; unfold operand; simpl.
  rewrite (quoted_not_numeric _ H), H; reflexivity.
Qed.

Lemma quoted_operand_is_anonymous_witness :
  isNumericString (dquote ^^ "5" ^^ dquote) = false
  /\ operand (Some (Sample.tok (dquote ^^ "5" ^^ dquote))) "NUMBER" 3 "2"
     = JsObject (anonymousVariable "NUMBER" 3 "2").
Proof.
  split.
  - apply (proj1 quoted_operand_is_anonymous); reflexivity.
  - apply (proj2 quoted_operand_is_anonymous); reflexivity.
Defined.

(** * The revised canonicalizer *)

(** ** Its message-condition analyzer *)

Lemma revised_childText_child (t : Revised.ParseTree) (i : nat)
      (c : Revised.ParseTree) :
  Revised.child t i = Some c ->
  Revised.childText t i = Ok (Some (Revised.text c)).
Proof.
  unfold Revised.child, Revised.childText; destruct (Revised.children t).
  - destruct i; discriminate.
  - intros ->; reflexivity.
Qed.

Lemma revised_analyzer_total (term : Revised.ParseTree) (index : nat) :
  exists r, Revised.parseMessageContent term index = Ok r.
Proof.
  unfold Revised.parseMessageContent, Revised.childCount, Revised.childText.
  destruct (Revised.children term)
    as [| c1 [| c2 [| c3 [| c4 [| c5 [| c6 [| c7 rest]]]]]]];
    simpl; eexists; reflexivity.
Qed.

(** X14.  The revised analyzer never throws.  It returns one Variable and
    no comparator for a node with four children, two Variables and the
    text of the fourth child as comparator for a node with six, and
    neither Variables nor comparator for any other node. *)
Theorem revised_analyzer_shape (term : Revised.ParseTree) (index : nat) :
  exists r,
    Revised.parseMessageContent term index = Ok r
    /\ (Revised.childCount term = 4 ->
        r = {| Revised.mc_variables :=
                 [Revised.mkVar ("messageContent" ^^ showNat index) "boolean"];
               Revised.mc_comparator := None |})
    /\ (Revised.childCount term = 6 ->
        length (Revised.mc_variables r) = 2
        /\ Revised.mc_comparator r
           = option_map Revised.text (Revised.child term 3)
        /\ Revised.mc_comparator r <> None)
    /\ (Revised.childCount term <> 4 -> Revised.childCount term <> 6 ->
        r = {| Revised.mc_variables := []; Revised.mc_comparator := None |}).
Proof.
  unfold Revised.parseMessageContent, Revised.childCount, Revised.child,
    Revised.childText.
  destruct (Revised.children term)
    as [| c1 [| c2 [| c3 [| c4 [| c5 [| c6 [| c7 rest]]]]]]];
    simpl; eexists; (split; [reflexivity |]);
    repeat split; intros; try discriminate; try reflexivity; try lia.
  destruct (Revised.instanceOf Revised.VariableNameContext c3),
    (Revised.instanceOf Revised.VariableNameContext c5); reflexivity.
Qed.

(** X15.  For a node with six children both Variables take the type the
    comparator decides -- [TEXT] for [==] and [!=], [NUMBER] otherwise,
    never [BOOLEAN] -- and each is named from its operand: the operand's
    text, the term index and the position for a name node, and
    [messageContent], the index and the position for anything else. *)
Theorem revised_analyzer_operands (term : Revised.ParseTree) (index : nat) :
  Revised.childCount term = 6 ->
  exists value1 comparator value2,
    Revised.child term 2 = Some value1
    /\ Revised.child term 3 = Some comparator
    /\ Revised.child term 4 = Some value2
    /\ Revised.parseMessageContent term index
       = Ok {| Revised.mc_variables :=
                 [Revised.mkVar (Revised.operandName value1 index "1")
                                (comparatorType (Revised.text comparator));
                  Revised.mkVar (Revised.operandName value2 index "2")
                                (comparatorType (Revised.text comparator))];
               Revised.mc_comparator := Some (Revised.text comparator) |}.
Proof.
  unfold Revised.parseMessageContent, Revised.childCount, Revised.child,
    Revised.childText, Revised.operandName, Revised.referenceName,
    Revised.anonymousName.
  destruct (Revised.children term)
    as [| c1 [| c2 [| c3 [| c4 [| c5 [| c6 [| c7 rest]]]]]]];
    try discriminate; intros _.
  exists c3, c4, c5; repeat split; simpl; unfold comparatorType.
  destruct (String.eqb (Revised.text c4) "=="),
    (String.eqb (Revised.text c4) "!="),
    (Revised.instanceOf Revised.VariableNameContext c3),
    (Revised.instanceOf Revised.VariableNameContext c5); reflexivity.
Qed.

Lemma revised_analyzer_operands_witness :
  Revised.parseMessageContent
    (Revised.comparisonNode (Revised.nameNode "weight") "<"
                            (Revised.numberNode "100")) 2
  = Ok {| Revised.mc_variables :=
            [Revised.mkVar "weight21" "NUMBER";
             Revised.mkVar "messageContent22" "NUMBER"];
          Revised.mc_comparator := Some "<" |}.
Proof.
  destruct (revised_analyzer_operands
              (Revised.comparisonNode (Revised.nameNode "weight") "<"
                                      (Revised.numberNode "100")) 2 eq_refl)
    as (v1 & c & v2 & H1 & Hc & H2 & H).
  injection H1 as <-; injection Hc as <-; injection H2 as <-; exact H.
Defined.

Lemma revised_analyzer_shape_witness :
  exists r,
    Revised.parseMessageContent
      (Revised.RuleNode Revised.MessageContentContext
                        [Revised.tok "MessageContent"; Revised.tok "(";
                         Revised.tok "a"; Revised.tok "b"; Revised.tok ")"]) 3
    = Ok r
    /\ r = {| Revised.mc_variables := []; Revised.mc_comparator := None |}.
Proof.
  destruct (revised_analyzer_shape
              (Revised.RuleNode Revised.MessageContentContext
                                [Revised.tok "MessageContent"; Revised.tok "(";
                                 Revised.tok "a"; Revised.tok "b";
                                 Revised.tok ")"]) 3)
    as (r & Hr & _ & _ & H).
  exists r; split; [exact Hr |].
  apply H; unfold Revised.childCount; simpl; lia.
Defined.

(** ** Invariants of its clause walk *)

Section RevisedClauseWalk.
Variable clauseName : IdentifierName.
Variable P : Revised.ClauseLocals -> Prop.
Hypothesis P_timeout :
  forall c s, P s -> P (Revised.pushTimeout clauseName c s).
Hypothesis P_message :
  forall o r s,
    P s -> Revised.parseMessageContent o (Revised.termIndex s) = Ok r ->
    P (Revised.pushMessageContent clauseName r s).
Hypothesis P_error : forall e s, P s -> P (Revised.setError e s).

Lemma revised_timeoutStep_invariant c s s' :
  P s -> Revised.timeoutStep clauseName c s = Ok s' -> P s'.
Proof.
  unfold Revised.timeoutStep; intros Hs H.
  destruct (Revised.instanceOf Revised.NumberContext c);
    injection H as <-; auto.
Qed.

Lemma revised_operationStep_invariant o s s' :
  P s -> Revised.operationStep clauseName o s = Ok s' -> P s'.
Proof.
  unfold Revised.operationStep; intros Hs H.
  apply bind_Ok in H as (s1 & H1 & H2).
  assert (P s1) as Hs1.
  { destruct (Revised.instanceOf Revised.TimeoutContext o).
    - exact (forEach_invariant _ P revised_timeoutStep_invariant _ _ _ Hs H1).
    - injection H1 as <-; exact Hs. }
  destruct (Revised.instanceOf Revised.MessageContentContext o).
  - unfold Revised.messageContentStep in H2.
    apply bind_Ok in H2 as (r & Hr & H2); injection H2 as <-; eauto.
  - injection H2 as <-; exact Hs1.
Qed.

Lemma revised_termStep_invariant t s s' :
  P s -> Revised.termStep clauseName t s = Ok s' -> P s'.
Proof.
  unfold Revised.termStep; intros Hs H.
  destruct (negb (Revised.instanceOf Revised.TermContext t)).
  - injection H as <-; exact Hs.
  - exact (forEach_invariant _ P revised_operationStep_invariant _ _ _ Hs H).
Qed.

Lemma revised_termsStep_invariant t s s' :
  P s -> Revised.termsStep clauseName t s = Ok s' -> P s'.
Proof.
  unfold Revised.termsStep; intros Hs H.
  destruct (negb (Revised.instanceOf Revised.TermOrWhenContext t)).
  - injection H as <-; exact Hs.
  - exact (forEach_invariant _ P revised_termStep_invariant _ _ _ Hs H).
Qed.

Lemma revised_clauseChildStep_invariant c s s' :
  P s -> Revised.clauseChildStep clauseName c s = Ok s' -> P s'.
Proof.
  unfold Revised.clauseChildStep; intros Hs H.
  destruct (Revised.instanceOf Revised.OnBreachContext c).
  - apply bind_Ok in H as (e & _ & H); injection H as <-; auto.
  - destruct (negb (Revised.instanceOf Revised.TermsContext c)).
    + injection H as <-; exact Hs.
    + exact (forEach_invariant _ P revised_termsStep_invariant _ _ _ Hs H).
Qed.

Lemma revised_lowerTerms_invariant n s :
  P Revised.initClauseLocals -> Revised.lowerTerms clauseName n = Ok s -> P s.
Proof.
  unfold Revised.lowerTerms; intros H0 H.
  exact (forEach_invariant _ P revised_clauseChildStep_invariant _ _ _ H0 H).
Qed.
End RevisedClauseWalk.

Lemma revised_lowerClause_inv (n : Revised.ParseTree) (cl : Revised.Clause) :
  Revised.lowerClause n = Ok cl ->
  exists cn s,
    Revised.lowerTerms cn n = Ok s
    /\ Revised.clause_name cl = cn
    /\ Revised.clause_variables cl = Revised.variables s
    /\ Revised.clause_terms cl = Revised.terms s
    /\ Revised.operation cl = Revised.rolePlayer cl.
Proof.
  unfold Revised.lowerClause; intros H.
  apply bind_Ok in H as (ct & _ & H).
  apply bind_Ok in H as (idNode & _ & H).
  apply bind_Ok in H as (rp1 & Hrp1 & H).
  apply bind_Ok in H as (r1 & Hr1 & H).
  apply bind_Ok in H as (rp2 & Hrp2 & H).
  apply bind_Ok in H as (r2 & Hr2 & H).
  apply bind_Ok in H as (s & Hs & H).
  rewrite Hrp1 in Hrp2; injection Hrp2 as <-.
  rewrite Hr1 in Hr2; injection Hr2 as <-.
  injection H as <-; simpl; eauto 10.
Qed.

(** X16.  A clause lowered by the revised canonicalizer lists the
    Variables of its terms in term order, repeated as often as they occur:
    nothing is merged or dropped. *)
Theorem revised_variables_concatenated (n : Revised.ParseTree)
        (cl : Revised.Clause) :
  Revised.lowerClause n = Ok cl ->
  Revised.clause_variables cl
  = flat_map Revised.termVariables (Revised.clause_terms cl).
Proof.
  intros H.
  apply revised_lowerClause_inv in H as (cn & s & Hs & _ & -> & -> & _).
  revert Hs; apply revised_lowerTerms_invariant
               with (P := fun s => Revised.variables s
                                   = flat_map Revised.termVariables
                                              (Revised.terms s)).
  - intros c s0 H0; simpl; rewrite flat_map_app; simpl.
    rewrite app_nil_r; exact H0.
  - intros o r s0 H0 _; simpl; rewrite flat_map_app; simpl.
    rewrite app_nil_r, H0; reflexivity.
  - intros e s0 H0; exact H0.
  - reflexivity.
Qed.

Lemma revised_variables_concatenated_witness :
  exists cl,
    Revised.lowerClause Revised.sampleClause = Ok cl
    /\ map Revised.var_name (Revised.clause_variables cl)
       = ["weight11"; "messageContent12"; "weight21"; "limit22"]
    /\ Revised.clause_variables cl
       = flat_map Revised.termVariables (Revised.clause_terms cl).
Proof.
  destruct (Revised.lowerClause Revised.sampleClause) as [cl |] eqn:H;
    [| vm_compute in H; discriminate].
  exists cl; split; [reflexivity |]; split.
  - vm_compute in H; injection H as <-; reflexivity.
  - exact (revised_variables_concatenated Revised.sampleClause cl H).
Defined.

Lemma termName_inj_types (cn : IdentifierName) (ty1 ty2 : string) (i j : nat) :
  ty1 = "timeout" \/ ty1 = "messageContent" ->
  ty2 = "timeout" \/ ty2 = "messageContent" ->
  pascal (termName cn ty1 i) = pascal (termName cn ty2 j)
  \/ camel (termName cn ty1 i) = camel (termName cn ty2 j)
  \/ snake (termName cn ty1 i) = snake (termName cn ty2 j) ->
  i = j.
Proof.
  intros [-> | ->] [-> | ->]; simpl; intros [H | [H | H]];
    apply append_cancel_l in H; simpl in H;
    try discriminate; apply showNat_inj;
    repeat match type of H with
           | String _ _ = String _ _ => injection H as H
           end; exact H.
Qed.

Lemma revised_termType (t : Revised.Term) :
  Revised.termTypeOf t = "timeout" \/ Revised.termTypeOf t = "messageContent".
Proof. destruct t; simpl; auto. Qed.

(** X17.  In a clause lowered by the revised canonicalizer the term at
    position [k] is named from the clause name, its type and [k], so no
    two terms share a pascal, camel or snake name. *)
Theorem revised_term_names (n : Revised.ParseTree) (cl : Revised.Clause) :
  Revised.lowerClause n = Ok cl ->
  (forall k t,
      nth_error (Revised.clause_terms cl) k = Some t ->
      Revised.termNameOf t
      = termName (Revised.clause_name cl) (Revised.termTypeOf t) k)
  /\ NoDup (map (fun t => pascal (Revised.termNameOf t)) (Revised.clause_terms cl))
  /\ NoDup (map (fun t => camel (Revised.termNameOf t)) (Revised.clause_terms cl))
  /\ NoDup (map (fun t => snake (Revised.termNameOf t)) (Revised.clause_terms cl)).
Proof.
  intros H.
  apply revised_lowerClause_inv in H as (cn & s & Hs & -> & _ & -> & _).
  assert (Revised.termIndex s = length (Revised.terms s)
          /\ forall k t,
              nth_error (Revised.terms s) k = Some t ->
              Revised.termNameOf t = termName cn (Revised.termTypeOf t) k)
    as (_ & Hn).
  { revert Hs; apply revised_lowerTerms_invariant
                 with (P := fun s =>
                              Revised.termIndex s = length (Revised.terms s)
                              /\ forall k t,
                                  nth_error (Revised.terms s) k = Some t ->
                                  Revised.termNameOf t
                                  = termName cn (Revised.termTypeOf t) k).
    - intros c s0 (Hi & Hk); simpl; split;
        [rewrite length_app, Hi; simpl; lia |].
      intros k t Ht.
      destruct (Nat.lt_ge_cases k (length (Revised.terms s0))) as [Hlt | Hge].
      + rewrite nth_error_app1 in Ht by exact Hlt; auto.
      + rewrite nth_error_app2 in Ht by exact Hge.
        destruct (k - length (Revised.terms s0)) as [| d] eqn:E; simpl in Ht;
          [| destruct d; discriminate].
        injection Ht as <-; simpl; rewrite Hi; f_equal; lia.
    - intros o r s0 (Hi & Hk) _; simpl; split;
        [rewrite length_app, Hi; simpl; lia |].
      intros k t Ht.
      destruct (Nat.lt_ge_cases k (length (Revised.terms s0))) as [Hlt | Hge].
      + rewrite nth_error_app1 in Ht by exact Hlt; auto.
      + rewrite nth_error_app2 in Ht by exact Hge.
        destruct (k - length (Revised.terms s0)) as [| d] eqn:E; simpl in Ht;
          [| destruct d; discriminate].
        injection Ht as <-; simpl; rewrite Hi; f_equal; lia.
    - intros e s0 H0; exact H0.
    - split; [reflexivity |]; intros k t Ht; destruct k; discriminate. }
  split; [exact Hn |].
  repeat split; apply NoDup_by_position; intros i j a b Ha Hb E;
    rewrite (Hn i a Ha), (Hn j b Hb) in E;
    eapply (termName_inj_types cn _ _ i j (revised_termType a) (revised_termType b));
    eauto.
Qed.

Lemma revised_term_names_witness :
  exists cl,
    Revised.lowerClause Revised.sampleClause = Ok cl
    /\ length (Revised.clause_terms cl) = 4
    /\ NoDup (map (fun t => snake (Revised.termNameOf t))
                  (Revised.clause_terms cl)).
Proof.
  destruct (Revised.lowerClause Revised.sampleClause) as [cl |] eqn:H;
    [| vm_compute in H; discriminate].
  exists cl; split; [reflexivity |]; split.
  - vm_compute in H; injection H as <-; reflexivity.
  - exact (proj2 (proj2 (proj2 (revised_term_names Revised.sampleClause cl H)))).
Defined.

(** ** When it throws *)

Lemma revised_succeeds_childText (t : Revised.ParseTree) (i : nat) :
  succeeds (Revised.childText t i) = Revised.indexable t i.
Proof.
  unfold Revised.childText, Revised.indexable.
  destruct (Revised.children t) as [| c cs]; [reflexivity |].
  destruct (nth_error (c :: cs) i) as [x |] eqn:E.
  - change (true = Nat.ltb i (length (c :: cs))); symmetry.
    apply Nat.ltb_lt, nth_error_Some; rewrite E; discriminate.
  - change (false = Nat.ltb i (length (c :: cs))); symmetry.
    apply Nat.ltb_ge, nth_error_None; exact E.
Qed.

Lemma revised_succeeds_operationStep (cn : IdentifierName)
      (o : Revised.ParseTree) (s : Revised.ClauseLocals) :
  succeeds (Revised.operationStep cn o s) = true.
Proof.
  unfold Revised.operationStep.
  assert (exists s1,
             (if Revised.instanceOf Revised.TimeoutContext o
              then forEach (Revised.timeoutStep cn) (Revised.children o) s
              else Ok s) = Ok s1) as (s1 & ->).
  { destruct (Revised.instanceOf Revised.TimeoutContext o); [| eauto].
    apply forEach_total; intros c s0; unfold Revised.timeoutStep.
    destruct (Revised.instanceOf Revised.NumberContext c); eauto. }
  simpl; destruct (Revised.instanceOf Revised.MessageContentContext o);
    [| reflexivity].
  unfold Revised.messageContentStep.
  destruct (revised_analyzer_total o (Revised.termIndex s1)) as (r & ->).
  reflexivity.
Qed.

Lemma revised_succeeds_clauseChildStep (cn : IdentifierName)
      (c : Revised.ParseTree) (s : Revised.ClauseLocals) :
  succeeds (Revised.clauseChildStep cn c s)
  = if Revised.instanceOf Revised.OnBreachContext c
    then Revised.indexable c 4 else true.
Proof.
  unfold Revised.clauseChildStep.
  destruct (Revised.instanceOf Revised.OnBreachContext c).
  - rewrite <- revised_succeeds_childText.
    destruct (Revised.childText c 4); reflexivity.
  - destruct (negb (Revised.instanceOf Revised.TermsContext c)); [reflexivity |].
    rewrite (succeeds_forEach (Revised.termsStep cn) (fun _ => true)).
    + induction (Revised.children c); simpl; auto.
    + intros t s0; unfold Revised.termsStep.
      destruct (negb (Revised.instanceOf Revised.TermOrWhenContext t));
        [reflexivity |].
      rewrite (succeeds_forEach (Revised.termStep cn) (fun _ => true)).
      * induction (Revised.children t); simpl; auto.
      * intros t1 s1; unfold Revised.termStep.
        destruct (negb (Revised.instanceOf Revised.TermContext t1));
          [reflexivity |].
        rewrite (succeeds_forEach (Revised.operationStep cn) (fun _ => true)
                                  (revised_succeeds_operationStep cn)).
        induction (Revised.children t1); simpl; auto.
Qed.

(** X18.  The revised canonicalizer lowers a clause node exactly when the
    node has a name node, a role-player node with no children or at least
    three, and only on-breach children with no children or at least five;
    no term of the clause, whatever its shape, makes it throw. *)
Theorem revised_lowerClause_succeeds_iff (n : Revised.ParseTree) :
  (exists cl, Revised.lowerClause n = Ok cl) <-> Revised.clauseOk n = true.
Proof.
  rewrite <- succeeds_Ok; unfold Revised.lowerClause, Revised.clauseOk,
                            Revised.variableName_required, Revised.rolePlayerNode.
  assert (exists ct, Revised.childText n 0 = Ok ct) as (ct & ->).
  { apply succeeds_Ok; rewrite revised_succeeds_childText.
    unfold Revised.indexable; destruct (Revised.children n); reflexivity. }
  simpl bind.
  destruct (Revised.variableName n) as [nm |]; simpl; [| split; discriminate].
  destruct (find (Revised.instanceOf Revised.RolePlayerContext)
                 (Revised.children n)) as [rp |]; simpl;
    [| split; discriminate].
  rewrite <- revised_succeeds_childText.
  destruct (Revised.childText rp 2) as [r |]; simpl; [| split; discriminate].
  unfold Revised.lowerTerms.
  rewrite <- (succeeds_forEach
                (Revised.clauseChildStep
                   (mkClauseName (orEmpty ct) (Revised.text nm)))
                _ (revised_succeeds_clauseChildStep _)
                (Revised.children n) Revised.initClauseLocals).
  destruct (forEach _ (Revised.children n) Revised.initClauseLocals);
    simpl; tauto.
Qed.

Lemma revised_lowerClause_succeeds_iff_witness :
  (exists cl, Revised.lowerClause Revised.sampleClause = Ok cl)
  /\ ~ (exists cl,
           Revised.lowerClause
             (Revised.RuleNode Revised.ClauseContext
                               [Revised.tok "right"; Revised.tok "{";
                                Revised.tok "}"]) = Ok cl).
Proof.
  split.
  - apply (proj2 (revised_lowerClause_succeeds_iff Revised.sampleClause)).
    reflexivity.
  - intros H; apply (proj1 (revised_lowerClause_succeeds_iff _)) in H.
    discriminate H.
Defined.

(** ** Its timeouts *)

Section RevisedTimeouts.
Variable cn : IdentifierName.

Lemma revised_R_nil s : Revised.TimeoutsAppended [] s s.
Proof. unfold Revised.TimeoutsAppended; simpl; rewrite app_nil_r; reflexivity. Qed.

Lemma revised_R_app l1 l2 s1 s2 s3 :
  Revised.TimeoutsAppended l1 s1 s2 -> Revised.TimeoutsAppended l2 s2 s3 -> Revised.TimeoutsAppended (l1 ++ l2) s1 s3.
Proof.
  unfold Revised.TimeoutsAppended, Revised.numberChildren; intros H1 H2.
  rewrite H2, H1, flat_map_app, map_app, app_assoc; reflexivity.
Qed.

Lemma revised_timeout_loop cs s s' :
  forEach (Revised.timeoutStep cn) cs s = Ok s' ->
  Revised.timeoutValues (Revised.terms s')
  = Revised.timeoutValues (Revised.terms s)
    ++ map Revised.text (filter (Revised.instanceOf Revised.NumberContext) cs).
Proof.
  revert s; induction cs as [| c cs IH]; simpl; intros s H.
  - injection H as <-; rewrite app_nil_r; auto.
  - unfold Revised.timeoutStep at 1 in H.
    destruct (Revised.instanceOf Revised.NumberContext c); simpl in H.
    + apply IH in H; rewrite H; simpl; unfold Revised.timeoutValues.
      rewrite flat_map_app; simpl; rewrite <- app_assoc; reflexivity.
    + apply IH in H; exact H.
Qed.

Lemma revised_operationStep_R o s s' :
  Revised.operationStep cn o s = Ok s' -> Revised.TimeoutsAppended [o] s s'.
Proof.
  unfold Revised.operationStep, Revised.TimeoutsAppended, Revised.numberChildren; intros H; simpl.
  rewrite app_nil_r.
  apply bind_Ok in H as (s1 & H1 & H2).
  assert (Revised.timeoutValues (Revised.terms s')
          = Revised.timeoutValues (Revised.terms s1)) as ->.
  { destruct (Revised.instanceOf Revised.MessageContentContext o).
    - unfold Revised.messageContentStep in H2.
      apply bind_Ok in H2 as (r & _ & H2); injection H2 as <-; simpl.
      unfold Revised.timeoutValues; rewrite flat_map_app; simpl.
      rewrite app_nil_r; reflexivity.
    - injection H2 as <-; reflexivity. }
  destruct (Revised.instanceOf Revised.TimeoutContext o).
  - exact (revised_timeout_loop _ _ _ H1).
  - injection H1 as <-; simpl; rewrite app_nil_r; reflexivity.
Qed.

Lemma revised_operations_R ops s s' :
  forEach (Revised.operationStep cn) ops s = Ok s' -> Revised.TimeoutsAppended ops s s'.
Proof.
  revert s; induction ops as [| o ops IH]; simpl; intros s H.
  - injection H as <-; apply revised_R_nil.
  - apply bind_Ok in H as (s1 & H1 & H2).
    apply (revised_R_app [o] ops s s1 s');
      [apply revised_operationStep_R; exact H1 | apply IH; exact H2].
Qed.

Lemma revised_lowerTerms_R n s :
  Revised.lowerTerms cn n = Ok s ->
  Revised.TimeoutsAppended (Revised.operationNodes n) Revised.initClauseLocals s.
Proof.
  unfold Revised.lowerTerms, Revised.operationNodes.
  apply (forEach_flat (Revised.clauseChildStep cn) Revised.operationsOfChild Revised.TimeoutsAppended
                      revised_R_nil revised_R_app).
  intros c s0 s1 H; unfold Revised.clauseChildStep, Revised.operationsOfChild in *.
  destruct (Revised.instanceOf Revised.OnBreachContext c).
  - apply bind_Ok in H as (e & _ & H); injection H as <-.
    unfold Revised.TimeoutsAppended; simpl; rewrite app_nil_r; reflexivity.
  - destruct (Revised.instanceOf Revised.TermsContext c); simpl in H;
      [| injection H as <-; apply revised_R_nil].
    revert H; apply (forEach_flat (Revised.termsStep cn)
                                  Revised.operationsOfTerms Revised.TimeoutsAppended
                                  revised_R_nil revised_R_app).
    intros t s2 s3 H; unfold Revised.termsStep, Revised.operationsOfTerms in *.
    destruct (Revised.instanceOf Revised.TermOrWhenContext t); simpl in H;
      [| injection H as <-; apply revised_R_nil].
    revert H; apply (forEach_flat (Revised.termStep cn)
                                  Revised.operationsOfTerm Revised.TimeoutsAppended
                                  revised_R_nil revised_R_app).
    intros t1 s4 s5 H; unfold Revised.termStep, Revised.operationsOfTerm in *.
    destruct (Revised.instanceOf Revised.TermContext t1); simpl in H;
      [| injection H as <-; apply revised_R_nil].
    apply revised_operations_R; exact H.
Qed.
End RevisedTimeouts.

(** X19.  The revised canonicalizer emits a Timeout term for each number
    node directly under a timeout node, and for nothing else: the values
    of the Timeout terms of a lowered clause, in order, are the texts of
    those number nodes in source order. *)
Theorem revised_timeouts_are_number_nodes (n : Revised.ParseTree)
        (cl : Revised.Clause) :
  Revised.lowerClause n = Ok cl ->
  Revised.timeoutValues (Revised.clause_terms cl)
  = map Revised.text (Revised.numberChildren (Revised.operationNodes n)).
Proof.
  intros H.
  apply revised_lowerClause_inv in H as (cn & s & Hs & _ & _ & -> & _).
  exact (revised_lowerTerms_R cn n s Hs).
Qed.

Lemma revised_timeouts_are_number_nodes_witness :
  exists cl,
    Revised.lowerClause Revised.sampleClause = Ok cl
    /\ Revised.timeoutValues (Revised.clause_terms cl) = ["30"].
Proof.
  destruct (Revised.lowerClause Revised.sampleClause) as [cl |] eqn:H;
    [| vm_compute in H; discriminate].
  exists cl; split; [reflexivity |].
  exact (revised_timeouts_are_number_nodes Revised.sampleClause cl H).
Defined.
